(** * SSA optimization passes: constant folding, value-numbering redundancy
      elimination and trip-count driven loop unrolling.

    A shallow embedding of the passes of the llvm-opt-passes plugin
    (ConstantFoldingPass, RedundancyAnalysis, RedundancyEliminationPass,
    LoopUnrollingPass) together with the properties their specification
    states about them.

    Conventions.
    - A C++ [unsigned] is an [N] below [2^32]; every arithmetic operation
      that can leave that range is wrapped explicitly with [wrap32].
    - A pointer to an IR object ([Instruction*], [Type*], [BasicBlock*]) is
      the identity of that object: a natural number.  Pointer comparison is
      comparison of identities.
    - Facts that the host compiler computes (dominance, trip counts, the
      constant evaluator, the unroll primitive) are parameters of the
      definitions that use them. *)

From Stdlib Require Import ZArith NArith List Bool Lia Permutation.
From stdpp Require Import base decidable countable numbers list gmap fin_maps.

Local Open Scope N_scope.

(** ** Machine integers *)

Definition wrap32 (n : N) : N := n mod 2 ^ 32.

(** ** The IR substrate *)

Module IR.

(** The opcodes of llvm/IR/Instruction.def, in the order of that file. *)
Inductive Opcode : Set :=
  (* terminators *)
  | Ret | Br | Switch | IndirectBr | Invoke | Resume | Unreachable
  | CleanupRet | CatchRet | CatchSwitch | CallBr
  (* unary *)
  | FNeg
  (* binary *)
  | Add | FAdd | Sub | FSub | Mul | FMul | UDiv | SDiv | FDiv
  | URem | SRem | FRem | Shl | LShr | AShr | And | Or | Xor
  (* memory *)
  | Alloca | Load | Store | GetElementPtr | Fence | AtomicCmpXchg | AtomicRMW
  (* casts *)
  | Trunc | ZExt | SExt | FPToUI | FPToSI | UIToFP | SIToFP | FPTrunc
  | FPExt | PtrToInt | IntToPtr | BitCast | AddrSpaceCast
  (* other *)
  | CleanupPad | CatchPad | ICmp | FCmp | PHI | Call | Select | UserOp1
  | UserOp2 | VAArg | ExtractElement | InsertElement | ShuffleVector
  | ExtractValue | InsertValue | LandingPad | Freeze.

#[global] Instance Opcode_eq_dec : EqDecision Opcode.
Proof. solve_decision. Defined.

Definition allOpcodes : list Opcode :=
  [ Ret; Br; Switch; IndirectBr; Invoke; Resume; Unreachable;
    CleanupRet; CatchRet; CatchSwitch; CallBr; FNeg;
    Add; FAdd; Sub; FSub; Mul; FMul; UDiv; SDiv; FDiv;
    URem; SRem; FRem; Shl; LShr; AShr; And; Or; Xor;
    Alloca; Load; Store; GetElementPtr; Fence; AtomicCmpXchg; AtomicRMW;
    Trunc; ZExt; SExt; FPToUI; FPToSI; UIToFP; SIToFP; FPTrunc;
    FPExt; PtrToInt; IntToPtr; BitCast; AddrSpaceCast;
    CleanupPad; CatchPad; ICmp; FCmp; PHI; Call; Select; UserOp1;
    UserOp2; VAArg; ExtractElement; InsertElement; ShuffleVector;
    ExtractValue; InsertValue; LandingPad; Freeze ].

(** [getOpcode()] as a number: the position in [allOpcodes]. *)
Definition opcodeIndex (o : Opcode) : nat :=
  match list_find (fun o' => o' = o) allOpcodes with
  | Some (i, _) => i
  | None => 0%nat
  end.

#[global] Instance Opcode_countable : Countable Opcode.
Proof.
  apply (inj_countable opcodeIndex (fun n => allOpcodes !! n)).
  intros o. destruct o; reflexivity.
Defined.

(** Opcode families, as the class hierarchy of llvm/IR/Instructions.h
    groups them ([isa<BinaryOperator>], [isa<CastInst>], ...). *)
Definition isTerminatorOp (o : Opcode) : bool :=
  match o with
  | Ret | Br | Switch | IndirectBr | Invoke | Resume | Unreachable
  | CleanupRet | CatchRet | CatchSwitch | CallBr => true
  | _ => false
  end.

Definition isBinaryOp (o : Opcode) : bool :=
  match o with
  | Add | FAdd | Sub | FSub | Mul | FMul | UDiv | SDiv | FDiv
  | URem | SRem | FRem | Shl | LShr | AShr | And | Or | Xor => true
  | _ => false
  end.

Definition isCastOp (o : Opcode) : bool :=
  match o with
  | Trunc | ZExt | SExt | FPToUI | FPToSI | UIToFP | SIToFP | FPTrunc
  | FPExt | PtrToInt | IntToPtr | BitCast | AddrSpaceCast => true
  | _ => false
  end.

Definition isCmpOp (o : Opcode) : bool :=
  match o with ICmp | FCmp => true | _ => false end.

(** Identities of IR objects. *)
Definition InstrId := nat.
Definition TypeId := nat.
Definition BlockId := nat.

(** A constant is identified by its (uniqued) handle. *)
Definition Constant := Z.

(** [Value*]: what an operand can point to. *)
Inductive Value : Set :=
  | VArgument (n : nat)
  | VConstant (c : Constant)
  | VInstruction (i : InstrId)
  | VBasicBlock (b : BlockId).

Arguments VArgument n%_nat.
Arguments VInstruction i%_nat.
Arguments VBasicBlock b%_nat.

#[global] Instance Value_eq_dec : EqDecision Value.
Proof. solve_decision. Defined.

#[global] Instance Value_countable : Countable Value.
Proof.
  apply (inj_countable'
    (fun v => match v with
              | VArgument n => inl (inl n)
              | VConstant c => inl (inr c)
              | VInstruction i => inr (inl i)
              | VBasicBlock b => inr (inr b)
              end)
    (fun s => match s with
              | inl (inl n) => VArgument n
              | inl (inr c) => VConstant c
              | inr (inl i) => VInstruction i
              | inr (inr b) => VBasicBlock b
              end)).
  now intros [].
Defined.

Definition isaConstant (v : Value) : bool :=
  match v with VConstant _ => true | _ => false end.

(** Memory orderings of an atomic access. *)
Inductive AtomicOrdering : Set :=
  | NotAtomic | Unordered | Monotonic | Acquire | Release
  | AcquireRelease | SequentiallyConsistent.

#[global] Instance AtomicOrdering_eq_dec : EqDecision AtomicOrdering.
Proof. solve_decision. Defined.

(** What a call site knows about its callee.  [calledFunction] is [None]
    for an indirect call; otherwise it carries the callee's
    [doesNotAccessMemory()] attribute. *)
Record CallInfo : Set := {
  calledFunction : option bool;
  onlyReadsMemory : bool;
  doesNotThrow : bool;
  willReturnAttr : bool
}.

Definition noCall : CallInfo :=
  {| calledFunction := None; onlyReadsMemory := false;
     doesNotThrow := false; willReturnAttr := false |}.

(** An instruction: identity, opcode, result type, ordered operands and the
    attributes the passes read. *)
Record Instruction : Set := {
  iid : InstrId;
  opcode : Opcode;
  ty : TypeId;
  operands : list Value;
  predicate : N;
  inBounds : bool;
  volatileFlag : bool;
  ordering : AtomicOrdering;
  callInfo : CallInfo;
  unwinds : bool
}.

Record BasicBlock : Set := {
  bid : BlockId;
  instrs : list Instruction
}.

(** A function body is its list of blocks in layout order. *)
Definition Function := list BasicBlock.

Definition instructions (F : Function) : list Instruction :=
  concat (map instrs F).

Definition instrIds (F : Function) : list InstrId :=
  map iid (instructions F).

(** Dereferencing an [Instruction*] in the current state of the function. *)
Definition findInstr (F : Function) (i : InstrId) : option Instruction :=
  find (fun I => bool_decide (iid I = i)) (instructions F).

Definition getType (F : Function) (i : InstrId) : option TypeId :=
  ty <$> findInstr F i.

(** [Old->replaceAllUsesWith(New)]: every operand slot that holds [Old]
    holds [New] afterwards, in every instruction of the function. *)
Definition replaceUse (Old New : Value) (v : Value) : Value :=
  if bool_decide (v = Old) then New else v.

Definition setOperands (I : Instruction) (ops : list Value) : Instruction :=
  {| iid := iid I; opcode := opcode I; ty := ty I; operands := ops;
     predicate := predicate I; inBounds := inBounds I;
     volatileFlag := volatileFlag I; ordering := ordering I;
     callInfo := callInfo I; unwinds := unwinds I |}.

Definition mapInstrs (f : Instruction -> Instruction) (F : Function)
  : Function :=
  map (fun BB => {| bid := bid BB; instrs := map f (instrs BB) |}) F.

Definition replaceAllUsesWith (F : Function) (Old : InstrId) (New : Value)
  : Function :=
  mapInstrs
    (fun I => setOperands I (map (replaceUse (VInstruction Old) New)
                                 (operands I)))
    F.

(** [I->eraseFromParent()]: the instruction leaves its block. *)
Definition eraseFromParent (F : Function) (i : InstrId) : Function :=
  map (fun BB =>
         {| bid := bid BB;
            instrs := filter (fun I => iid I <> i) (instrs BB) |})
      F.

(** *** Instruction predicates of the host library

    These follow the definitions of llvm/lib/IR/Instruction.cpp, which the
    passes call but do not define. *)

Definition isTerminator (I : Instruction) : bool := isTerminatorOp (opcode I).

Definition isVolatile (I : Instruction) : bool :=
  match opcode I with
  | AtomicRMW | Store | Load | AtomicCmpXchg | Call | Invoke => volatileFlag I
  | _ => false
  end.

Definition isAtomic (I : Instruction) : bool :=
  match opcode I with
  | AtomicCmpXchg | AtomicRMW | Fence => true
  | Load | Store => negb (bool_decide (ordering I = NotAtomic))
  | _ => false
  end.

(** [LoadInst::isUnordered]: at most unordered and not volatile. *)
Definition isUnordered (I : Instruction) : bool :=
  match ordering I with
  | NotAtomic | Unordered => negb (volatileFlag I)
  | _ => false
  end.

Definition mayWriteToMemory (I : Instruction) : bool :=
  match opcode I with
  | Fence | Store | VAArg | AtomicCmpXchg | AtomicRMW | CatchPad | CatchRet =>
      true
  | Call | Invoke | CallBr => negb (onlyReadsMemory (callInfo I))
  | Load => negb (isUnordered I)
  | _ => false
  end.

Definition mayThrow (I : Instruction) : bool :=
  match opcode I with
  | Call => negb (doesNotThrow (callInfo I))
  | Resume => true
  | CleanupRet | CatchSwitch | Invoke | CleanupPad => unwinds I
  | _ => false
  end.

Definition willReturn (I : Instruction) : bool :=
  match opcode I with
  | Store => negb (volatileFlag I)
  | Call | Invoke | CallBr => willReturnAttr (callInfo I)
  | _ => true
  end.

Definition mayHaveSideEffects (I : Instruction) : bool :=
  mayWriteToMemory I || mayThrow I || negb (willReturn I).

End IR.

(** ** Loop analyzer (LoopUnrollingPass.h / LoopUnrollingPass.cpp) *)

Module LoopUnrolling.
Import IR.

Inductive UnrollStrategy : Set :=
  | FullUnroll | PartialUnroll | RuntimeUnroll | NoUnroll.

#[global] Instance UnrollStrategy_eq_dec : EqDecision UnrollStrategy.
Proof. solve_decision. Defined.

Record LoopUnrollConfig : Set := {
  FullUnrollMaxCount : N;
  FullUnrollMaxInstructions : N;
  PartialUnrollFactor : N;
  MaxPartialUnrollFactor : N;
  AllowRuntimeUnroll : bool;
  RuntimeUnrollMinTripCount : N;
  UnrollLoopsWithCalls : bool;
  MaxUnrolledSize : N
}.

(** The member initialisers of [struct LoopUnrollConfig]. *)
Definition defaultConfig : LoopUnrollConfig :=
  {| FullUnrollMaxCount := 8;
     FullUnrollMaxInstructions := 100;
     PartialUnrollFactor := 4;
     MaxPartialUnrollFactor := 8;
     AllowRuntimeUnroll := true;
     RuntimeUnrollMinTripCount := 4;
     UnrollLoopsWithCalls := false;
     MaxUnrolledSize := 400 |}.

(** A natural loop with what LoopInfo and ScalarEvolution report about it.
    [loopBlocks] is [L->blocks()]; the two trip-count fields are the
    [unsigned] results of [getSmallConstantTripCount] and
    [getSmallConstantTripMultiple]. *)
#[warning="-register-all"]
Inductive Loop : Set := mkLoop {
  loopHeader : BlockId;
  loopBlocks : list BasicBlock;
  loopPreheader : option BlockId;
  loopLatch : option BlockId;
  loopExitBlocks : list BlockId;
  subLoops : list Loop;
  smallConstantTripCount : N;
  smallConstantTripMultiple : N
}.

Record LoopUnrollCandidate : Set := {
  L : Loop;
  TripCount : N;
  TripMultiple : N;
  InstructionCount : N;
  IsSimple : bool;
  HasSideEffects : bool;
  Strategy : UnrollStrategy;
  UnrollFactor : N
}.

Definition computeTripCount (l : Loop) : N :=
  let TripCount := smallConstantTripCount l in
  if 0 <? TripCount then TripCount else 0.

Definition countInstructions (l : Loop) : N :=
  fold_left
    (fun Count BB =>
       fold_left
         (fun Count I =>
            if negb (bool_decide (opcode I = PHI)) && negb (isTerminator I)
            then wrap32 (Count + 1) else Count)
         (instrs BB) Count)
    (loopBlocks l) 0.

Definition isSimpleLoop (l : Loop) : bool :=
  match loopPreheader l with
  | None => false
  | Some _ =>
      match loopLatch l with
      | None => false
      | Some _ => true
      end
  end.

(** The three tests the body of [hasSideEffects] applies to one
    instruction. *)
Definition instrHasSideEffects (I : Instruction) : bool :=
  (if bool_decide (opcode I = Call) then
     match calledFunction (callInfo I) with
     | None => true
     | Some doesNotAccessMemory => negb doesNotAccessMemory
     end
   else false)
  || isVolatile I
  || isAtomic I.

Definition hasSideEffects (l : Loop) : bool :=
  existsb (fun BB => existsb instrHasSideEffects (instrs BB)) (loopBlocks l).

Section Analyzer.
Variable Config : LoopUnrollConfig.

Definition determineStrategy (Candidate : LoopUnrollCandidate)
  : UnrollStrategy :=
  if HasSideEffects Candidate && negb (UnrollLoopsWithCalls Config)
  then NoUnroll
  else if (0 <? TripCount Candidate)
          && (TripCount Candidate <=? FullUnrollMaxCount Config)
          && (wrap32 (InstructionCount Candidate * TripCount Candidate)
              <=? FullUnrollMaxInstructions Config)
  then FullUnroll
  else if 0 <? TripCount Candidate then PartialUnroll
  else if AllowRuntimeUnroll Config && IsSimple Candidate then RuntimeUnroll
  else NoUnroll.

(** [while (Factor > 1 && TripCount % Factor != 0) Factor--;] *)
Fixpoint adjustToDivisor (TC : N) (Factor : nat) : nat :=
  match Factor with
  | S (S _ as Factor') =>
      if negb (TC mod N.of_nat Factor =? 0)
      then adjustToDivisor TC Factor' else Factor
  | _ => Factor
  end.

(** [while (Factor > 1 && InstructionCount * Factor > MaxUnrolledSize)
    Factor--;] *)
Fixpoint adjustToSize (IC : N) (Factor : nat) : nat :=
  match Factor with
  | S (S _ as Factor') =>
      if MaxUnrolledSize Config <? wrap32 (IC * N.of_nat Factor)
      then adjustToSize IC Factor' else Factor
  | _ => Factor
  end.

Definition calculateUnrollFactor (Candidate : LoopUnrollCandidate) : N :=
  match Strategy Candidate with
  | FullUnroll => TripCount Candidate
  | PartialUnroll =>
      let Factor := N.to_nat (PartialUnrollFactor Config) in
      let Factor := adjustToDivisor (TripCount Candidate) Factor in
      let Factor := adjustToSize (InstructionCount Candidate) Factor in
      N.of_nat Factor
  | RuntimeUnroll => PartialUnrollFactor Config
  | NoUnroll => 1
  end.

Definition analyzeLoop (l : Loop) : LoopUnrollCandidate :=
  let Candidate :=
    {| L := l;
       TripCount := computeTripCount l;
       TripMultiple := smallConstantTripMultiple l;
       InstructionCount := countInstructions l;
       IsSimple := isSimpleLoop l;
       HasSideEffects := hasSideEffects l;
       Strategy := NoUnroll;
       UnrollFactor := 1 |} in
  let Candidate :=
    {| L := L Candidate;
       TripCount := TripCount Candidate;
       TripMultiple := TripMultiple Candidate;
       InstructionCount := InstructionCount Candidate;
       IsSimple := IsSimple Candidate;
       HasSideEffects := HasSideEffects Candidate;
       Strategy := determineStrategy Candidate;
       UnrollFactor := UnrollFactor Candidate |} in
  {| L := L Candidate;
     TripCount := TripCount Candidate;
     TripMultiple := TripMultiple Candidate;
     InstructionCount := InstructionCount Candidate;
     IsSimple := IsSimple Candidate;
     HasSideEffects := HasSideEffects Candidate;
     Strategy := Strategy Candidate;
     UnrollFactor := calculateUnrollFactor Candidate |}.

(** [depth_first(L)]: the loop, then the traversal of each sub-loop. *)
Fixpoint depth_first (l : Loop) : list Loop :=
  match l with
  | mkLoop _ _ _ _ _ subs _ _ =>
      l :: (fix each (ls : list Loop) : list Loop :=
              match ls with
              | [] => []
              | s :: rest => depth_first s ++ each rest
              end) subs
  end.

(** [LI] is the list of top-level loops, in LoopInfo's order. *)
Definition getCandidates (LI : list Loop) : list LoopUnrollCandidate :=
  flat_map
    (fun l =>
       let Worklist := depth_first l in
       filter (fun Candidate => Strategy Candidate <> NoUnroll)
              (map analyzeLoop Worklist))
    LI.

End Analyzer.
End LoopUnrolling.

(** What a pass hands back to the pass manager. *)
Inductive PreservedAnalyses : Set :=
  | PreservedAll
  | PreservedNone
  | PreservedCFGAndDomTree
  | PreservedDomTree.

(** ** Constant folder (ConstantFoldingPass.h / ConstantFoldingPass.cpp) *)

Module ConstantFolding.
Import IR.

Record Stats : Set := {
  BinaryOpsFound : N;
  CastsFound : N;
  ComparisonsFound : N;
  SelectsFound : N;
  GEPsFound : N
}.

Record ConstantFoldingVisitor : Set := {
  FoldingCandidates : list InstrId;
  Statistics : Stats
}.

Definition newVisitor : ConstantFoldingVisitor :=
  {| FoldingCandidates := [];
     Statistics := {| BinaryOpsFound := 0; CastsFound := 0;
                      ComparisonsFound := 0; SelectsFound := 0;
                      GEPsFound := 0 |} |}.

(** [isa<Constant>(I.getOperand(n))] *)
Definition operandIsConstant (I : Instruction) (n : nat) : bool :=
  match operands I !! n with
  | Some v => isaConstant v
  | None => false
  end.

Definition allOperandsConstant (I : Instruction) : bool :=
  forallb isaConstant (operands I).

Section Pass.
(** [ConstantFoldInstruction(I, DL)] of llvm/Analysis/ConstantFolding.h, for
    the data layout of the module being compiled; [None] is [nullptr]. *)
Variable ConstantFoldInstruction : Instruction -> option Constant.

Definition pushCandidate (V : ConstantFoldingVisitor) (I : Instruction)
  (bump : Stats -> Stats) : ConstantFoldingVisitor :=
  {| FoldingCandidates := FoldingCandidates V ++ [iid I];
     Statistics := bump (Statistics V) |}.

Definition visitBinaryOperator (V : ConstantFoldingVisitor) (BO : Instruction)
  : ConstantFoldingVisitor * bool :=
  if operandIsConstant BO 0 && operandIsConstant BO 1 then
    match ConstantFoldInstruction BO with
    | Some _ =>
        (pushCandidate V BO (fun s =>
           {| BinaryOpsFound := wrap32 (BinaryOpsFound s + 1);
              CastsFound := CastsFound s;
              ComparisonsFound := ComparisonsFound s;
              SelectsFound := SelectsFound s;
              GEPsFound := GEPsFound s |}), true)
    | None => (V, false)
    end
  else (V, false).

Definition visitCastInst (V : ConstantFoldingVisitor) (CI : Instruction)
  : ConstantFoldingVisitor * bool :=
  if operandIsConstant CI 0 then
    match ConstantFoldInstruction CI with
    | Some _ =>
        (pushCandidate V CI (fun s =>
           {| BinaryOpsFound := BinaryOpsFound s;
              CastsFound := wrap32 (CastsFound s + 1);
              ComparisonsFound := ComparisonsFound s;
              SelectsFound := SelectsFound s;
              GEPsFound := GEPsFound s |}), true)
    | None => (V, false)
    end
  else (V, false).

Definition visitCmpInst (V : ConstantFoldingVisitor) (CI : Instruction)
  : ConstantFoldingVisitor * bool :=
  if operandIsConstant CI 0 && operandIsConstant CI 1 then
    match ConstantFoldInstruction CI with
    | Some _ =>
        (pushCandidate V CI (fun s =>
           {| BinaryOpsFound := BinaryOpsFound s;
              CastsFound := CastsFound s;
              ComparisonsFound := wrap32 (ComparisonsFound s + 1);
              SelectsFound := SelectsFound s;
              GEPsFound := GEPsFound s |}), true)
    | None => (V, false)
    end
  else (V, false).

(** [SI.getCondition()] is operand 0 of a select. *)
Definition visitSelectInst (V : ConstantFoldingVisitor) (SI : Instruction)
  : ConstantFoldingVisitor * bool :=
  if operandIsConstant SI 0 then
    match ConstantFoldInstruction SI with
    | Some _ =>
        (pushCandidate V SI (fun s =>
           {| BinaryOpsFound := BinaryOpsFound s;
              CastsFound := CastsFound s;
              ComparisonsFound := ComparisonsFound s;
              SelectsFound := wrap32 (SelectsFound s + 1);
              GEPsFound := GEPsFound s |}), true)
    | None => (V, false)
    end
  else (V, false).

Definition visitGetElementPtrInst (V : ConstantFoldingVisitor)
  (GEP : Instruction) : ConstantFoldingVisitor * bool :=
  if allOperandsConstant GEP then
    match ConstantFoldInstruction GEP with
    | Some _ =>
        (pushCandidate V GEP (fun s =>
           {| BinaryOpsFound := BinaryOpsFound s;
              CastsFound := CastsFound s;
              ComparisonsFound := ComparisonsFound s;
              SelectsFound := SelectsFound s;
              GEPsFound := wrap32 (GEPsFound s + 1) |}), true)
    | None => (V, false)
    end
  else (V, false).

(** The default visitor for unhandled instructions. *)
Definition visitInstruction (V : ConstantFoldingVisitor) (I : Instruction)
  : ConstantFoldingVisitor * bool := (V, false).

(** [InstVisitor::visit]: dispatch on the opcode to the most specific
    overridden handler of the instruction's class. *)
Definition visit (V : ConstantFoldingVisitor) (I : Instruction)
  : ConstantFoldingVisitor * bool :=
  if isBinaryOp (opcode I) then visitBinaryOperator V I
  else if isCastOp (opcode I) then visitCastInst V I
  else if isCmpOp (opcode I) then visitCmpInst V I
  else match opcode I with
       | Select => visitSelectInst V I
       | GetElementPtr => visitGetElementPtrInst V I
       | _ => visitInstruction V I
       end.

Definition tryFold (I : Instruction) : option Constant :=
  ConstantFoldInstruction I.

(** The state of one sweep of the fixed-point loop. *)
Record SweepState : Set := {
  body : Function;
  ToDelete : list InstrId;
  Changed : bool;
  TotalFolded : N
}.

Definition replaceAndScheduleRemoval (st : SweepState) (I : InstrId)
  (Replacement : Constant) : SweepState :=
  {| body := replaceAllUsesWith (body st) I (VConstant Replacement);
     ToDelete := ToDelete st ++ [I];
     Changed := Changed st;
     TotalFolded := TotalFolded st |}.

(** The body of the two nested [for] loops, at the instruction whose
    identity is [i]: the instruction is read in the current state of the
    function, so it sees the uses redirected earlier in the same sweep. *)
Definition sweepStep (st : SweepState) (i : InstrId) : SweepState :=
  match findInstr (body st) i with
  | Some Inst =>
      match tryFold Inst with
      | Some C =>
          let st := replaceAndScheduleRemoval st i C in
          {| body := body st; ToDelete := ToDelete st;
             Changed := true;
             TotalFolded := wrap32 (TotalFolded st + 1) |}
      | None => st
      end
  | None => st
  end.

(** One iteration of the [do ... while (Changed)] body. *)
Definition sweep (F : Function) (Total : N) : SweepState :=
  let st :=
    fold_left sweepStep (instrIds F)
      {| body := F; ToDelete := []; Changed := false;
         TotalFolded := Total |} in
  {| body := fold_left eraseFromParent (ToDelete st) (body st);
     ToDelete := ToDelete st;
     Changed := Changed st;
     TotalFolded := TotalFolded st |}.

(** The [do ... while (Changed)] loop; [None] when [fuel] iterations were
    not enough to reach an unchanged sweep. *)
Fixpoint foldLoop (fuel : nat) (F : Function) (Total : N)
  : option (Function * N) :=
  match fuel with
  | O => None
  | S fuel' =>
      let st := sweep F Total in
      if Changed st then foldLoop fuel' (body st) (TotalFolded st)
      else Some (body st, TotalFolded st)
  end.

Definition collectCandidates (F : Function) : ConstantFoldingVisitor :=
  fold_left
    (fun V BB => fold_left (fun V I => fst (visit V I)) (instrs BB) V)
    F newVisitor.

(** [ConstantFoldingPass::run].  Every changing sweep erases an
    instruction, so one more iteration than there are instructions always
    suffices (theorem [run_total]). *)
Definition run (F : Function) : option (Function * PreservedAnalyses) :=
  let Visitor := collectCandidates F in
  match FoldingCandidates Visitor with
  | [] => Some (F, PreservedAll)
  | _ :: _ =>
      match foldLoop (S (length (instructions F))) F 0 with
      | Some (F', TotalFolded) =>
          Some (F', if 0 <? TotalFolded then PreservedNone else PreservedAll)
      | None => None
      end
  end.

End Pass.
End ConstantFolding.

(** ** Value numbering (RedundancyAnalysis.h / RedundancyAnalysis.cpp) *)

Module RedundancyAnalysis.
Import IR.

Record ExpressionKey : Set := {
  Opcode : IR.Opcode;
  OperandValueNumbers : list N;
  ResultType : TypeId;
  Predicate : N;
  InBounds : bool
}.

#[global] Instance ExpressionKey_eq_dec : EqDecision ExpressionKey.
Proof. solve_decision. Defined.

#[global] Instance ExpressionKey_countable : Countable ExpressionKey.
Proof.
  apply (inj_countable'
    (fun k => (Opcode k, OperandValueNumbers k, ResultType k, Predicate k,
               InBounds k))
    (fun t => match t with
              | (o, vs, t, p, b) =>
                  {| Opcode := o; OperandValueNumbers := vs; ResultType := t;
                     Predicate := p; InBounds := b |}
              end)).
  now intros [].
Defined.

(** [ExpressionKey::operator==], field by field in the order of the
    source. *)
Definition ExpressionKey_eqb (This Other : ExpressionKey) : bool :=
  bool_decide (Opcode This = Opcode Other)
  && bool_decide (OperandValueNumbers This = OperandValueNumbers Other)
  && bool_decide (ResultType This = ResultType Other)
  && bool_decide (Predicate This = Predicate Other)
  && bool_decide (InBounds This = InBounds Other).

(** The table owns the next free number, the number of every value seen,
    and for every expression key the bucket of instructions recorded under
    it, in insertion order. *)
Record ValueNumberTable : Set := {
  NextValueNumber : N;
  ValueNumbers : gmap Value N;
  ExpressionTable : gmap ExpressionKey (list InstrId)
}.

Definition newTable : ValueNumberTable :=
  {| NextValueNumber := 1; ValueNumbers := ∅; ExpressionTable := ∅ |}.

Definition isCommutative (Opcode : IR.Opcode) : bool :=
  match Opcode with
  | Add | FAdd | Mul | FMul | And | Or | Xor => true
  | _ => false
  end.

Definition canonicalizeOperands (Operands : list N) (Opcode : IR.Opcode)
  : list N :=
  match Operands with
  | [Op0; Op1] =>
      if isCommutative Opcode
      then (if Op1 <? Op0 then [Op1; Op0] else Operands)
      else Operands
  | _ => Operands
  end.

Definition getValueNumber (VNT : ValueNumberTable) (V : Value)
  : N * ValueNumberTable :=
  match ValueNumbers VNT !! V with
  | Some VN => (VN, VNT)
  | None =>
      let VN := NextValueNumber VNT in
      (VN, {| NextValueNumber := wrap32 (VN + 1);
              ValueNumbers := <[V := VN]> (ValueNumbers VNT);
              ExpressionTable := ExpressionTable VNT |})
  end.

Definition lookupValueNumber (VNT : ValueNumberTable) (V : Value) : N :=
  match ValueNumbers VNT !! V with
  | Some VN => VN
  | None => 0
  end.

(** The operand loop of [createExpressionKey]: numbers are requested left
    to right and the table is threaded through. *)
Fixpoint numberOperands (VNT : ValueNumberTable) (Ops : list Value)
  : list N * ValueNumberTable :=
  match Ops with
  | [] => ([], VNT)
  | Op :: rest =>
      let '(VN, VNT) := getValueNumber VNT Op in
      let '(VNs, VNT) := numberOperands VNT rest in
      (VN :: VNs, VNT)
  end.

Definition createExpressionKey (VNT : ValueNumberTable) (Inst : Instruction)
  : ExpressionKey * ValueNumberTable :=
  let '(VNs, VNT) := numberOperands VNT (operands Inst) in
  ({| Opcode := opcode Inst;
      OperandValueNumbers := canonicalizeOperands VNs (opcode Inst);
      ResultType := ty Inst;
      Predicate := if isCmpOp (opcode Inst) then predicate Inst else 0;
      InBounds := if bool_decide (opcode Inst = GetElementPtr)
                  then inBounds Inst else false |},
   VNT).

(** The dominator tree the host hands to the analysis: instruction-level
    dominance and the blocks in depth-first order from the root. *)
Record DominatorTree : Type := {
  dominates : InstrId -> InstrId -> bool;
  preorder : list BasicBlock
}.

Definition findAvailableValue (VNT : ValueNumberTable) (Key : ExpressionKey)
  (QueryPoint : InstrId) (DT : DominatorTree) : option InstrId :=
  match ExpressionTable VNT !! Key with
  | None => None
  | Some Candidates =>
      find (fun Candidate =>
              negb (bool_decide (Candidate = QueryPoint))
              && dominates DT Candidate QueryPoint)
           Candidates
  end.

Definition addExpression (VNT : ValueNumberTable) (Key : ExpressionKey)
  (Inst : InstrId) : ValueNumberTable :=
  {| NextValueNumber := NextValueNumber VNT;
     ValueNumbers := ValueNumbers VNT;
     ExpressionTable :=
       <[Key := default [] (ExpressionTable VNT !! Key) ++ [Inst]]>
         (ExpressionTable VNT) |}.

(** [RedundancyInfo::Stats]; its counter of redundant instructions is
    named [RedundantCount] here, the name [RedundantInstructions] being
    taken by the map. *)
Record Stats : Set := {
  TotalInstructions : N;
  RedundantCount : N;
  UniqueExpressions : N
}.

Record RedundancyInfo : Set := {
  RedundantInstructions : gmap InstrId InstrId;
  Statistics : Stats
}.

Definition emptyInfo : RedundancyInfo :=
  {| RedundantInstructions := ∅;
     Statistics := {| TotalInstructions := 0; RedundantCount := 0;
                      UniqueExpressions := 0 |} |}.

Definition isRedundant (RI : RedundancyInfo) (Inst : InstrId) : bool :=
  bool_decide (is_Some (RedundantInstructions RI !! Inst)).

Definition getReplacement (RI : RedundancyInfo) (Inst : InstrId)
  : option InstrId :=
  RedundantInstructions RI !! Inst.

Definition hasRedundancies (RI : RedundancyInfo) : bool :=
  negb (bool_decide (RedundantInstructions RI = ∅)).

Definition isAnalyzable (Inst : Instruction) : bool :=
  if bool_decide (opcode Inst = PHI) then false
  else if isTerminator Inst then false
  else if mayHaveSideEffects Inst then false
  else if isVolatile Inst then false
  else if bool_decide (opcode Inst = Load) || bool_decide (opcode Inst = Store)
  then false
  else if bool_decide (opcode Inst = Alloca) then false
  else if bool_decide (opcode Inst = Call) || bool_decide (opcode Inst = Invoke)
  then false
  else true.

Definition bumpTotal (s : Stats) : Stats :=
  {| TotalInstructions := wrap32 (TotalInstructions s + 1);
     RedundantCount := RedundantCount s;
     UniqueExpressions := UniqueExpressions s |}.

Definition bumpRedundant (s : Stats) : Stats :=
  {| TotalInstructions := TotalInstructions s;
     RedundantCount := wrap32 (RedundantCount s + 1);
     UniqueExpressions := UniqueExpressions s |}.

Definition bumpUnique (s : Stats) : Stats :=
  {| TotalInstructions := TotalInstructions s;
     RedundantCount := RedundantCount s;
     UniqueExpressions := wrap32 (UniqueExpressions s + 1) |}.

Section Analysis.
Variable DT : DominatorTree.

(** The body of the [for] loop of [processBlock]. *)
Definition processInstruction (st : ValueNumberTable * RedundancyInfo)
  (Inst : Instruction) : ValueNumberTable * RedundancyInfo :=
  let '(VNT, Result) := st in
  let Result :=
    {| RedundantInstructions := RedundantInstructions Result;
       Statistics := bumpTotal (Statistics Result) |} in
  if negb (isAnalyzable Inst) then
    (snd (getValueNumber VNT (VInstruction (iid Inst))), Result)
  else
    let '(Key, VNT) := createExpressionKey VNT Inst in
    let Available := findAvailableValue VNT Key (iid Inst) DT in
    let '(VNT, Result) :=
      match Available with
      | Some Available =>
          (VNT,
           {| RedundantInstructions :=
                <[iid Inst := Available]> (RedundantInstructions Result);
              Statistics := bumpRedundant (Statistics Result) |})
      | None =>
          (addExpression VNT Key (iid Inst),
           {| RedundantInstructions := RedundantInstructions Result;
              Statistics := bumpUnique (Statistics Result) |})
      end in
    (snd (getValueNumber VNT (VInstruction (iid Inst))), Result).

Definition processBlock (st : ValueNumberTable * RedundancyInfo)
  (BB : BasicBlock) : ValueNumberTable * RedundancyInfo :=
  fold_left processInstruction (instrs BB) st.

(** The table after the arguments [Args] of the function are numbered. *)
Definition numberArguments (Args : list nat) : ValueNumberTable :=
  fold_left (fun VNT Arg => snd (getValueNumber VNT (VArgument Arg)))
            Args newTable.

(** [RedundancyAnalysis::run]; also returns the final table, which the
    source drops at the end of [run]. *)
Definition analyze (Args : list nat) : ValueNumberTable * RedundancyInfo :=
  fold_left processBlock (preorder DT) (numberArguments Args, emptyInfo).

Definition run (Args : list nat) : RedundancyInfo := snd (analyze Args).

End Analysis.

(** [getNumValueNumbers] of RedundancyAnalysis.h: [NextValueNumber - 1]
    in unsigned 32-bit arithmetic. *)
Definition getNumValueNumbers (VNT : ValueNumberTable) : N :=
  wrap32 (NextValueNumber VNT + (2 ^ 32 - 1)).

End RedundancyAnalysis.

(** ** Redundancy eliminator (RedundancyEliminationPass.cpp) *)

Module RedundancyElimination.
Import IR.

(** An [Instruction*] that may be null. *)
Definition InstPtr := option InstrId.

Record ElimState : Set := {
  body : Function;
  ToDelete : list InstrId;
  InstructionsEliminated : N
}.

(** The body of the range-[for] over the map, at the entry
    [(Redundant, Replacement)]. *)
Definition eliminateStep (st : ElimState) (entry : InstPtr * InstPtr)
  : ElimState :=
  match entry with
  | (Some Redundant, Some Replacement) =>
      if bool_decide (getType (body st) Redundant
                      <> getType (body st) Replacement)
      then st
      else
        {| body := replaceAllUsesWith (body st) Redundant
                     (VInstruction Replacement);
           ToDelete := ToDelete st ++ [Redundant];
           InstructionsEliminated :=
             wrap32 (InstructionsEliminated st + 1) |}
  | _ => st
  end.

(** [eliminateRedundancies].  The [DenseMap] is iterated in bucket order,
    which the source does not control; [entries] is the map in the order
    the iteration happens to visit it.  Returns the function, the result
    flag and the statistics counter. *)
Definition eliminateRedundancies (F : Function)
  (entries : list (InstPtr * InstPtr)) (Eliminated : N)
  : Function * bool * N :=
  match entries with
  | [] => (F, false, Eliminated)
  | _ :: _ =>
      let st :=
        fold_left eliminateStep entries
          {| body := F; ToDelete := [];
             InstructionsEliminated := Eliminated |} in
      (fold_left eraseFromParent (ToDelete st) (body st),
       negb (bool_decide (ToDelete st = [])),
       InstructionsEliminated st)
  end.

(** The entries of the analysis result as a map of non-null pointers. *)
Definition entriesOf (l : list (InstrId * InstrId))
  : list (InstPtr * InstPtr) :=
  map (fun e => (Some (fst e), Some (snd e))) l.

Section Pass.
(** The order in which iterating a [DenseMap<Instruction*, Instruction*>]
    visits its entries.  It depends on the addresses of the instructions;
    all that is known is that every entry is visited once. *)
Variable denseMapOrder : gmap InstrId InstrId -> list (InstrId * InstrId).

(** [RedundancyEliminationPass::run] on the function [F] with arguments
    [Args] and dominator tree [DT]. *)
Definition run (F : Function) (Args : list nat)
  (DT : RedundancyAnalysis.DominatorTree) : Function * PreservedAnalyses :=
  let RI := RedundancyAnalysis.run DT Args in
  let entries :=
    entriesOf (denseMapOrder (RedundancyAnalysis.RedundantInstructions RI)) in
  let '(F', Changed, _) := eliminateRedundancies F entries 0 in
  if negb Changed then (F', PreservedAll) else (F', PreservedCFGAndDomTree).

End Pass.

(** [order] visits every entry of [m] exactly once. *)
Definition visitsOnce
  (order : gmap InstrId InstrId -> list (InstrId * InstrId)) : Prop :=
  forall m, order m ≡ₚ map_to_list m.

End RedundancyElimination.

(** ** Loop unroller (LoopUnrollingPass.h / LoopUnrollingPass.cpp) *)

Module LoopUnrollingPass.
Import IR LoopUnrolling.

(** The members of the host's [UnrollLoopOptions] that [unrollLoop] names,
    and the assignment to each of them. *)
Module ULO.

Record UnrollLoopOptions : Set := {
  Count : N;
  Force : bool;
  AllowExpensiveTripCount : bool;
  UnrollRemainder : bool;
  ForgetAllSCEV : bool;
  TripCount : N;
  TripMultiple : N
}.

Definition setCount (o : UnrollLoopOptions) (v : N) : UnrollLoopOptions :=
  {| Count := v; Force := Force o;
     AllowExpensiveTripCount := AllowExpensiveTripCount o;
     UnrollRemainder := UnrollRemainder o; ForgetAllSCEV := ForgetAllSCEV o;
     TripCount := TripCount o; TripMultiple := TripMultiple o |}.

Definition setForce (o : UnrollLoopOptions) (v : bool) : UnrollLoopOptions :=
  {| Count := Count o; Force := v;
     AllowExpensiveTripCount := AllowExpensiveTripCount o;
     UnrollRemainder := UnrollRemainder o; ForgetAllSCEV := ForgetAllSCEV o;
     TripCount := TripCount o; TripMultiple := TripMultiple o |}.

Definition setAllowExpensiveTripCount (o : UnrollLoopOptions) (v : bool)
  : UnrollLoopOptions :=
  {| Count := Count o; Force := Force o;
     AllowExpensiveTripCount := v;
     UnrollRemainder := UnrollRemainder o; ForgetAllSCEV := ForgetAllSCEV o;
     TripCount := TripCount o; TripMultiple := TripMultiple o |}.

Definition setUnrollRemainder (o : UnrollLoopOptions) (v : bool)
  : UnrollLoopOptions :=
  {| Count := Count o; Force := Force o;
     AllowExpensiveTripCount := AllowExpensiveTripCount o;
     UnrollRemainder := v; ForgetAllSCEV := ForgetAllSCEV o;
     TripCount := TripCount o; TripMultiple := TripMultiple o |}.

Definition setForgetAllSCEV (o : UnrollLoopOptions) (v : bool)
  : UnrollLoopOptions :=
  {| Count := Count o; Force := Force o;
     AllowExpensiveTripCount := AllowExpensiveTripCount o;
     UnrollRemainder := UnrollRemainder o; ForgetAllSCEV := v;
     TripCount := TripCount o; TripMultiple := TripMultiple o |}.

Definition setTripCount (o : UnrollLoopOptions) (v : N)
  : UnrollLoopOptions :=
  {| Count := Count o; Force := Force o;
     AllowExpensiveTripCount := AllowExpensiveTripCount o;
     UnrollRemainder := UnrollRemainder o; ForgetAllSCEV := ForgetAllSCEV o;
     TripCount := v; TripMultiple := TripMultiple o |}.

Definition setTripMultiple (o : UnrollLoopOptions) (v : N)
  : UnrollLoopOptions :=
  {| Count := Count o; Force := Force o;
     AllowExpensiveTripCount := AllowExpensiveTripCount o;
     UnrollRemainder := UnrollRemainder o; ForgetAllSCEV := ForgetAllSCEV o;
     TripCount := TripCount o; TripMultiple := v |}.

End ULO.

(** The host's [LoopUnrollResult]. *)
Inductive LoopUnrollResult : Set :=
  | Unmodified | PartiallyUnrolled | FullyUnrolled.

#[global] Instance LoopUnrollResult_eq_dec : EqDecision LoopUnrollResult.
Proof. solve_decision. Defined.

(** [LoopUnrollingPass::Statistics]. *)
Record Statistics : Set := {
  LoopsAnalyzed : N;
  LoopsFullyUnrolled : N;
  LoopsPartiallyUnrolled : N;
  LoopsRuntimeUnrolled : N;
  LoopsSkipped : N
}.

(** What [emitRemark] sends to the remark emitter: [Unrolled] with the
    factor, or the missed remark [NotUnrolled], for the loop with the
    given header. *)
Inductive Remark : Set :=
  | Unrolled (Header : BlockId) (Factor : N)
  | NotUnrolled (Header : BlockId).

(** The [switch] on the strategy after a successful unroll. *)
Definition countUnrolled (Stats : Statistics) (s : UnrollStrategy)
  : Statistics :=
  match s with
  | FullUnroll =>
      {| LoopsAnalyzed := LoopsAnalyzed Stats;
         LoopsFullyUnrolled := wrap32 (LoopsFullyUnrolled Stats + 1);
         LoopsPartiallyUnrolled := LoopsPartiallyUnrolled Stats;
         LoopsRuntimeUnrolled := LoopsRuntimeUnrolled Stats;
         LoopsSkipped := LoopsSkipped Stats |}
  | PartialUnroll =>
      {| LoopsAnalyzed := LoopsAnalyzed Stats;
         LoopsFullyUnrolled := LoopsFullyUnrolled Stats;
         LoopsPartiallyUnrolled := wrap32 (LoopsPartiallyUnrolled Stats + 1);
         LoopsRuntimeUnrolled := LoopsRuntimeUnrolled Stats;
         LoopsSkipped := LoopsSkipped Stats |}
  | RuntimeUnroll =>
      {| LoopsAnalyzed := LoopsAnalyzed Stats;
         LoopsFullyUnrolled := LoopsFullyUnrolled Stats;
         LoopsPartiallyUnrolled := LoopsPartiallyUnrolled Stats;
         LoopsRuntimeUnrolled := wrap32 (LoopsRuntimeUnrolled Stats + 1);
         LoopsSkipped := LoopsSkipped Stats |}
  | NoUnroll => Stats
  end.

Definition countSkipped (Stats : Statistics) : Statistics :=
  {| LoopsAnalyzed := LoopsAnalyzed Stats;
     LoopsFullyUnrolled := LoopsFullyUnrolled Stats;
     LoopsPartiallyUnrolled := LoopsPartiallyUnrolled Stats;
     LoopsRuntimeUnrolled := LoopsRuntimeUnrolled Stats;
     LoopsSkipped := wrap32 (LoopsSkipped Stats + 1) |}.

(** [Stats.LoopsAnalyzed += n] *)
Definition countAnalyzed (Stats : Statistics) (n : nat) : Statistics :=
  {| LoopsAnalyzed := wrap32 (LoopsAnalyzed Stats + N.of_nat n);
     LoopsFullyUnrolled := LoopsFullyUnrolled Stats;
     LoopsPartiallyUnrolled := LoopsPartiallyUnrolled Stats;
     LoopsRuntimeUnrolled := LoopsRuntimeUnrolled Stats;
     LoopsSkipped := LoopsSkipped Stats |}.

(** The assignments [unrollLoop] makes to its local object [ULO], in
    order, starting from what the object holds when it is declared.  The
    trip count is assigned only when it is known. *)
Definition unrollOptions (ULO : ULO.UnrollLoopOptions)
  (Candidate : LoopUnrollCandidate) : ULO.UnrollLoopOptions :=
  let ULO := ULO.setCount ULO (UnrollFactor Candidate) in
  let ULO := ULO.setForce ULO false in
  let ULO := ULO.setAllowExpensiveTripCount ULO false in
  let ULO :=
    ULO.setUnrollRemainder ULO
      (bool_decide (Strategy Candidate = RuntimeUnroll)) in
  let ULO := ULO.setForgetAllSCEV ULO false in
  let ULO :=
    if 0 <? TripCount Candidate
    then ULO.setTripCount ULO (TripCount Candidate) else ULO in
  ULO.setTripMultiple ULO (TripMultiple Candidate).

Definition emitRemark (l : Loop) (Candidate : LoopUnrollCandidate)
  (Success : bool) : Remark :=
  if Success then Unrolled (loopHeader l) (UnrollFactor Candidate)
  else NotUnrolled (loopHeader l).

(** [LI.getLoopsInPreorder()] *)
Definition getLoopsInPreorder (LI : list Loop) : list Loop :=
  flat_map depth_first LI.

Section Pass.
(** The function under transformation together with the analyses that the
    host's [UnrollLoop] updates in place: LoopInfo, ScalarEvolution, the
    dominator tree and the assumption cache. *)
Variable Host : Type.
(** [LI.getLoopFor(BB)] is not null in the current LoopInfo. *)
Variable getLoopFor : Host -> BlockId -> bool.
(** The host's [UnrollLoop(L, ULO, &LI, &SE, &DT, &AC, &TTI, &ORE,
    PreserveLCSSA)]. *)
Variable UnrollLoop :
  Loop -> ULO.UnrollLoopOptions -> bool -> Host -> LoopUnrollResult * Host.
Variable Config : LoopUnrollConfig.
(** [UnrollLoopOptions ULO;] declares the object without an initializer:
    what its members hold before the assignments is not fixed by the
    program.  It is a parameter, one object for each call of
    [unrollLoop], counted from 0. *)
Variable uninitialized : nat -> ULO.UnrollLoopOptions.

Definition unrollLoop (ULO : ULO.UnrollLoopOptions) (l : Loop) (h : Host)
  (Candidate : LoopUnrollCandidate) : bool * Host :=
  let ULO := unrollOptions ULO Candidate in
  let '(Result, h) := UnrollLoop l ULO true h in
  (negb (bool_decide (Result = Unmodified)), h).

(** The pass while it walks the candidates: the function and its
    analyses, the statistics, the flag [Changed], the remarks emitted so
    far and the number of calls of [unrollLoop] so far. *)
Record State : Type := {
  host : Host;
  Stats : Statistics;
  Changed : bool;
  Remarks : list Remark;
  Calls : nat
}.

(** The body of the loop over the candidates. *)
Definition processCandidate (st : State) (Candidate : LoopUnrollCandidate)
  : State :=
  let l := L Candidate in
  if negb (getLoopFor (host st) (loopHeader l)) then st
  else
    let '(Success, h) :=
      unrollLoop (uninitialized (Calls st)) l (host st) Candidate in
    {| host := h;
       Stats := if Success
                then countUnrolled (Stats st) (Strategy Candidate)
                else countSkipped (Stats st);
       Changed := if Success then true else Changed st;
       Remarks := Remarks st ++ [emitRemark l Candidate Success];
       Calls := S (Calls st) |}.

(** [LI] is the list of top-level loops of the function when the pass
    starts; [Stats0] is what the pass object has counted before. *)
Definition run (h : Host) (LI : list Loop) (Stats0 : Statistics)
  : State * PreservedAnalyses :=
  let st := {| host := h; Stats := Stats0; Changed := false;
               Remarks := []; Calls := 0 |} in
  match LI with
  | [] => (st, PreservedAll)
  | _ :: _ =>
      let Candidates := getCandidates Config LI in
      let st :=
        {| host := h;
           Stats := countAnalyzed Stats0 (length (getLoopsInPreorder LI));
           Changed := false; Remarks := []; Calls := 0 |} in
      match Candidates with
      | [] => (st, PreservedAll)
      | _ :: _ =>
          let st := fold_left processCandidate Candidates st in
          if negb (Changed st) then (st, PreservedAll)
          else (st, PreservedDomTree)
      end
  end.

End Pass.

Arguments host {Host} _.
Arguments Stats {Host} _.
Arguments Changed {Host} _.
Arguments Remarks {Host} _.
Arguments Calls {Host} _.

End LoopUnrollingPass.

(** ** The function passes of the plugin (PassRegistration.cpp) *)

Module PassRegistration.
Import IR.

Section Pipeline.
Variable ConstantFoldInstruction : Instruction -> option Constant.
Variable denseMapOrder : gmap InstrId InstrId -> list (InstrId * InstrId).
(** The result of the host's [DominatorTreeAnalysis] for a function. *)
Variable DominatorTreeAnalysis :
  Function -> RedundancyAnalysis.DominatorTree.

(** The function pass manager the plugin adds at the end of the
    optimizer: [ConstantFoldingPass], then [RedundancyEliminationPass] on
    the function the folder leaves, with the analyses of that function.
    Returns the function and what each pass reports as preserved. *)
Definition optimizerLast (F : Function) (Args : list nat)
  : option (Function * PreservedAnalyses * PreservedAnalyses) :=
  match ConstantFolding.run ConstantFoldInstruction F with
  | Some (F1, PA1) =>
      let '(F2, PA2) :=
        RedundancyElimination.run denseMapOrder F1 Args
          (DominatorTreeAnalysis F1) in
      Some (F2, PA1, PA2)
  | None => None
  end.

End Pipeline.
End PassRegistration.

(** ** Example programs *)

Module Examples.
Import IR.
Local Open Scope nat_scope.

(** An instruction with no special attributes. *)
Definition instr (i : InstrId) (o : Opcode) (t : TypeId)
  (ops : list Value) : Instruction :=
  {| iid := i; opcode := o; ty := t; operands := ops; predicate := 0%N;
     inBounds := false; volatileFlag := false; ordering := NotAtomic;
     callInfo := noCall; unwinds := false |}.

Arguments instr i%_nat o t%_nat ops%_list.

(** A direct call to a function that is known not to access memory, not
    to throw and to return. *)
Definition pureCall (i : InstrId) (t : TypeId) (ops : list Value)
  : Instruction :=
  {| iid := i; opcode := Call; ty := t; operands := ops; predicate := 0%N;
     inBounds := false; volatileFlag := false; ordering := NotAtomic;
     callInfo := {| calledFunction := Some true; onlyReadsMemory := true;
                    doesNotThrow := true; willReturnAttr := true |};
     unwinds := false |}.

(** [load volatile] from the pointer [p]. *)
Definition volatileLoad (i : InstrId) (t : TypeId) (p : Value)
  : Instruction :=
  {| iid := i; opcode := Load; ty := t; operands := [p]; predicate := 0%N;
     inBounds := false; volatileFlag := true; ordering := NotAtomic;
     callInfo := noCall; unwinds := false |}.

Definition i32 : TypeId := 0.
Definition double : TypeId := 1.
Definition void : TypeId := 2.

(** A loop of one block: a phi, [n] additions and the back-edge branch,
    whose trip count ScalarEvolution reports as [tc]. *)
Definition addLoop (n : nat) (tc : N) : LoopUnrolling.Loop :=
  LoopUnrolling.mkLoop 0
    [ {| bid := 0;
         instrs :=
           instr 0 PHI i32 [VConstant 0%Z; VInstruction 1]
           :: map (fun k => instr (S k) Add i32
                              [VInstruction k; VConstant 1%Z])
                  (seq 0 n)
           ++ [instr (S n) Br void [VBasicBlock 0; VBasicBlock 1]] |} ]
    (Some 2) (Some 0) [1] [] tc 1%N.

(** A loop of one block whose body is a single call to a memory-pure
    function, with trip count [tc]. *)
Definition pureCallLoop (tc : N) : LoopUnrolling.Loop :=
  LoopUnrolling.mkLoop 0
    [ {| bid := 0;
         instrs :=
           [ instr 0 PHI i32 [VConstant 0%Z; VInstruction 1];
             pureCall 1 i32 [VInstruction 0];
             instr 2 Br void [VBasicBlock 0; VBasicBlock 1] ] |} ]
    (Some 2) (Some 0) [1] [] tc 1%N.

(** A small constant evaluator standing in for the host's
    [ConstantFoldInstruction] when a pass is run on an example: integer
    addition, multiplication and signed division (undefined for a zero
    divisor) and the unary negation, each on constant operands only. *)
Definition evalConstant (Inst : Instruction) : option Constant :=
  match opcode Inst, operands Inst with
  | Add, [VConstant a; VConstant b] => Some (a + b)%Z
  | Mul, [VConstant a; VConstant b] => Some (a * b)%Z
  | SDiv, [VConstant a; VConstant b] =>
      if (b =? 0)%Z then None else Some (a ÷ b)%Z
  | FNeg, [VConstant a] => Some (- a)%Z
  | _, _ => None
  end.

(** [%0 = fneg double 1; ret %0] *)
Definition negateOnly : Function :=
  [ {| bid := 0;
       instrs := [ instr 0 FNeg double [VConstant 1%Z];
                   instr 1 Ret void [VInstruction 0] ] |} ].

(** The same function with the unrelated [%2 = add i32 1, 2] in front. *)
Definition negateAndAdd : Function :=
  [ {| bid := 0;
       instrs := [ instr 2 Add i32 [VConstant 1%Z; VConstant 2%Z];
                   instr 0 FNeg double [VConstant 1%Z];
                   instr 1 Ret void [VInstruction 0] ] |} ].

(** [a = 10 + 20; b = a * 2; c = b / 3; return c] *)
Definition constantChain : Function :=
  [ {| bid := 0;
       instrs := [ instr 0 Add i32 [VConstant 10%Z; VConstant 20%Z];
                   instr 1 Mul i32 [VInstruction 0; VConstant 2%Z];
                   instr 2 SDiv i32 [VInstruction 1; VConstant 3%Z];
                   instr 3 Ret void [VInstruction 2] ] |} ].

(** The dominator tree of a function that is a single block whose
    instructions are numbered in program order: an instruction dominates
    exactly those that come after it. *)
Definition singleBlockDT (F : Function) : RedundancyAnalysis.DominatorTree :=
  {| RedundancyAnalysis.dominates := fun a b => a <? b;
     RedundancyAnalysis.preorder := F |}.

(** [u = x + y; v = y + x; return u + v] *)
Definition commutativePair : Function :=
  [ {| bid := 0;
       instrs := [ instr 2 Add i32 [VArgument 0; VArgument 1];
                   instr 3 Add i32 [VArgument 1; VArgument 0];
                   instr 4 Add i32 [VInstruction 2; VInstruction 3];
                   instr 5 Ret void [VInstruction 4] ] |} ].

(** [a = *p; b = *p; return b] with both loads volatile. *)
Definition volatileLoads : Function :=
  [ {| bid := 0;
       instrs := [ volatileLoad 1 i32 (VArgument 0);
                   volatileLoad 2 i32 (VArgument 0);
                   instr 3 Ret void [VInstruction 2] ] |} ].


(** [x = 1 + 2; y = a + x; return y] for the argument [a]. *)
Definition partlyConstant : Function :=
  [ {| bid := 0;
       instrs := [ instr 0 Add i32 [VConstant 1%Z; VConstant 2%Z];
                   instr 1 Add i32 [VArgument 0; VInstruction 0];
                   instr 2 Ret void [VInstruction 1] ] |} ].

(** What constant folding leaves of [constantChain] and of
    [partlyConstant]. *)
Definition constantChainFolded : Function :=
  [ {| bid := 0; instrs := [ instr 3 Ret void [VConstant 20%Z] ] |} ].

Definition partlyConstantFolded : Function :=
  [ {| bid := 0;
       instrs := [ instr 1 Add i32 [VArgument 0; VConstant 3%Z];
                   instr 2 Ret void [VInstruction 1] ] |} ].

(** [u = x + y; v = y + x; w = x * y; z = y * x; return v + z] *)
Definition twoPairs : Function :=
  [ {| bid := 0;
       instrs := [ instr 2 Add i32 [VArgument 0; VArgument 1];
                   instr 3 Add i32 [VArgument 1; VArgument 0];
                   instr 4 Mul i32 [VArgument 0; VArgument 1];
                   instr 5 Mul i32 [VArgument 1; VArgument 0];
                   instr 6 Add i32 [VInstruction 3; VInstruction 5];
                   instr 7 Ret void [VInstruction 6] ] |} ].

(** A stand-in for the host's [UnrollLoop] when the unroller is run on an
    example: the state is the list of the options of the requests made so
    far; every request is recorded and reported as a partial unroll. *)
Definition recordingUnrollLoop (l : LoopUnrolling.Loop)
  (ULO : LoopUnrollingPass.ULO.UnrollLoopOptions) (PreserveLCSSA : bool)
  (h : list LoopUnrollingPass.ULO.UnrollLoopOptions)
  : LoopUnrollingPass.LoopUnrollResult
    * list LoopUnrollingPass.ULO.UnrollLoopOptions :=
  (LoopUnrollingPass.PartiallyUnrolled, h ++ [ULO]).

(** Storage that holds [tc] where the trip count of the options object
    lies, at every call. *)
Definition storage (tc : N) (call : nat)
  : LoopUnrollingPass.ULO.UnrollLoopOptions :=
  {| LoopUnrollingPass.ULO.Count := 0;
     LoopUnrollingPass.ULO.Force := false;
     LoopUnrollingPass.ULO.AllowExpensiveTripCount := false;
     LoopUnrollingPass.ULO.UnrollRemainder := false;
     LoopUnrollingPass.ULO.ForgetAllSCEV := false;
     LoopUnrollingPass.ULO.TripCount := tc;
     LoopUnrollingPass.ULO.TripMultiple := 0 |}.

(** The statistics of a pass object that has not run yet. *)
Definition noStatistics : LoopUnrollingPass.Statistics :=
  {| LoopUnrollingPass.LoopsAnalyzed := 0;
     LoopUnrollingPass.LoopsFullyUnrolled := 0;
     LoopUnrollingPass.LoopsPartiallyUnrolled := 0;
     LoopUnrollingPass.LoopsRuntimeUnrolled := 0;
     LoopUnrollingPass.LoopsSkipped := 0 |}.

End Examples.

(** * Vocabulary of the properties

    The notions the statements below are phrased in: the specification's
    own wording of a computed quantity, the start states and invariants of
    the loops, and the well-formedness conditions on the host's data. *)

Section LoopVocabulary.
Import IR LoopUnrolling.

(** The loop [l] with its reported trip count replaced by [tc]. *)
Definition withTripCount (l : Loop) (tc : N) : Loop :=
  mkLoop (loopHeader l) (loopBlocks l) (loopPreheader l) (loopLatch l)
         (loopExitBlocks l) (subLoops l) tc (smallConstantTripMultiple l).

(** The factor as the specification words it: the largest [F] from
    [partial_factor] down to 2 that divides the trip count and keeps
    [F * instruction_count] within [max_unrolled_size]; 1 if there is
    none. *)
Definition specPartialFactor (cfg : LoopUnrollConfig) (TC IC : N) : N :=
  match
    find (fun F => (TC mod F =? 0) && (F * IC <=? MaxUnrolledSize cfg))
         (map N.of_nat (rev (seq 2 (N.to_nat (PartialUnrollFactor cfg) - 1))))
  with
  | Some F => F
  | None => 1
  end.

(** [D] is the largest factor up to [bound] that divides [TC]. *)
Definition largestDivisor (bound TC D : N) : Prop :=
  1 <= D <= bound /\ TC mod D = 0
  /\ forall F, D < F <= bound -> TC mod F <> 0.

(** [F] is within the partial factor, divides the trip count and keeps the
    unrolled body within the size limit. *)
Definition qualifies (cfg : LoopUnrollConfig) (TC IC F : N) : Prop :=
  1 <= F <= PartialUnrollFactor cfg /\ TC mod F = 0
  /\ F * IC <= MaxUnrolledSize cfg.

End LoopVocabulary.

Section FolderVocabulary.
Import IR ConstantFolding.

(** The state a sweep over [F] starts from. *)
Definition sweepStart (F : Function) (Total : N) : SweepState :=
  {| body := F; ToDelete := []; Changed := false; TotalFolded := Total |}.

(** What every state of a sweep over [F] satisfies: no instruction has
    left the function yet, only instructions of [F] are scheduled for
    removal, and the flag is set exactly when something is scheduled. *)
Definition sweepInv (F : Function) (st : SweepState) : Prop :=
  instrIds (body st) = instrIds F
  /\ (forall j, In j (ToDelete st) -> In j (instrIds F))
  /\ (Changed st = true -> ToDelete st <> []).

End FolderVocabulary.

Section AnalysisVocabulary.
Import IR RedundancyAnalysis.
Variable DT : DominatorTree.

(** [i] is recorded in some bucket of the expression table. *)
Definition inTable (VNT : ValueNumberTable) (i : InstrId) : Prop :=
  exists K bucket, ExpressionTable VNT !! K = Some bucket /\ In i bucket.

(** [i] is the identity of an analyzable instruction among [pre]. *)
Definition analyzableIn (pre : list Instruction) (i : InstrId) : Prop :=
  exists Inst, In Inst pre /\ iid Inst = i /\ isAnalyzable Inst = true.

(** What holds of the table and the result after the instructions [pre]
    have been processed. *)
Definition analysisInv (pre : list Instruction)
  (st : ValueNumberTable * RedundancyInfo) : Prop :=
  (forall i, inTable (fst st) i ->
     analyzableIn pre i /\ RedundantInstructions (snd st) !! i = None)
  /\ (forall R P, RedundantInstructions (snd st) !! R = Some P ->
        analyzableIn pre R /\ P <> R /\ dominates DT P R = true
        /\ inTable (fst st) P)
  /\ (forall Inst, In Inst pre ->
        is_Some (ValueNumbers (fst st) !! VInstruction (iid Inst))).

(** The identities of the analyzable instructions of [l], in order: the
    instructions that can be a query point or a candidate. *)
Definition analyzableIds (l : list Instruction) : list InstrId :=
  map iid (List.filter isAnalyzable l).

(** Among the instructions [ids], the dominators of an instruction are
    totally ordered by dominance. *)
Definition treeLike (ids : list InstrId) : bool :=
  forallb (fun c =>
    forallb (fun a =>
      forallb (fun b =>
        implb (dominates DT a c && dominates DT b c)
              (bool_decide (a = b) || dominates DT a b || dominates DT b a))
        ids) ids) ids.

(** In the processing order [ids], no instruction is dominated by itself
    or by an instruction that comes after it. *)
Fixpoint dominatorsFirst (ids : list InstrId) : bool :=
  match ids with
  | [] => true
  | x :: rest =>
      forallb (fun a => negb (dominates DT a x)) (x :: rest)
      && dominatorsFirst rest
  end.

(** Two distinct instructions of one bucket do not dominate each other. *)
Definition bucketInv (VNT : ValueNumberTable) : Prop :=
  forall K bucket c1 c2,
    ExpressionTable VNT !! K = Some bucket ->
    In c1 bucket -> In c2 bucket -> c1 <> c2 ->
    dominates DT c1 c2 = false.

(** The table and result after the instructions [pre] of the function
    have been processed. *)
Definition stateAfter (Args : list nat) (pre : list Instruction)
  : ValueNumberTable * RedundancyInfo :=
  fold_left (processInstruction DT) pre (numberArguments Args, emptyInfo).

End AnalysisVocabulary.

Section EliminatorVocabulary.
Import IR RedundancyElimination.

(** The entry is acted upon: both pointers are non-null and the result
    types, read in [F], agree. *)
Definition matchedEntry (F : Function) (entry : InstPtr * InstPtr)
  : option (InstrId * InstrId) :=
  match entry with
  | (Some Redundant, Some Replacement) =>
      if bool_decide (getType F Redundant <> getType F Replacement)
      then None else Some (Redundant, Replacement)
  | _ => None
  end.

(** The operand [v] after every redundant instruction of [M] has been
    replaced by its replacement. *)
Definition redirect (M : gmap InstrId InstrId) (v : Value) : Value :=
  match v with
  | VInstruction i =>
      match M !! i with
      | Some p => VInstruction p
      | None => v
      end
  | _ => v
  end.

(** [Inst] with every operand redirected through [M]. *)
Definition redirectOperands (M : gmap InstrId InstrId) (Inst : Instruction)
  : Instruction :=
  setOperands Inst (map (redirect M) (operands Inst)).

(** No replacement of [l] is itself replaced by [l]. *)
Definition chainFree (l : list (InstrId * InstrId)) : Prop :=
  forall r p, In (r, p) l -> ~ In p (map fst l).

(** The start state of the loop over the map. *)
Definition elimStart (F : Function) (n : N) : ElimState :=
  {| body := F; ToDelete := []; InstructionsEliminated := n |}.

End EliminatorVocabulary.

Section FolderVocabularyMore.
Import IR ConstantFolding.

(** The five instruction families the visitor has a handler for. *)
Definition visitedFamily (o : Opcode) : bool :=
  isBinaryOp o || isCastOp o || isCmpOp o
  || bool_decide (o = Select) || bool_decide (o = GetElementPtr).

(** An operand slot after folding: untouched, or an instruction replaced
    by a constant. *)
Definition foldedOperand (v v' : Value) : Prop :=
  v' = v \/ exists j c, v = VInstruction j /\ v' = VConstant c.

(** [Inst'] is [Inst] with some instruction operands replaced by
    constants; nothing else differs. *)
Definition foldedFrom (Inst Inst' : Instruction) : Prop :=
  Inst' = setOperands Inst (operands Inst')
  /\ Forall2 foldedOperand (operands Inst) (operands Inst').

(** Some instruction of [F] has the instruction [j] as an operand. *)
Definition usedIn (F : Function) (j : InstrId) : Prop :=
  exists Inst, In Inst (instructions F) /\ In (VInstruction j) (operands Inst).

(** Every instruction operand of [F] is an instruction of [F]. *)
Definition closedUses (F : Function) : Prop :=
  forall j, usedIn F j -> In j (instrIds F).

(** [BB'] is the block [BB] after folding: the same label, and its
    instructions are, in order, some of the instructions of [BB] with
    folded operands. *)
Definition blockFoldedFrom (BB BB' : BasicBlock) : Prop :=
  bid BB' = bid BB
  /\ exists kept, sublist kept (instrs BB)
                  /\ Forall2 foldedFrom kept (instrs BB').

(** [F'] is the function [F] after folding: the same blocks in the same
    order, each folded. *)
Definition functionFoldedFrom (F F' : Function) : Prop :=
  Forall2 blockFoldedFrom F F'.

(** An operand slot after folding with the evaluator [eval]: untouched,
    or an instruction of [F] replaced by the constant to which [eval]
    evaluates that instruction, some of its own operands folded. *)
Definition evaluatedOperand (eval : Instruction -> option Constant)
  (F : Function) (v v' : Value) : Prop :=
  v' = v
  \/ exists j c J Jt,
       v = VInstruction j /\ v' = VConstant c
       /\ In J (instructions F) /\ iid J = j
       /\ foldedFrom J Jt /\ eval Jt = Some c.

(** Every instruction of [G] is an instruction of [F] whose operands are
    evaluated operands. *)
Definition evaluatedIn (eval : Instruction -> option Constant)
  (F G : Function) : Prop :=
  forall Inst', In Inst' (instructions G) ->
    exists Inst, In Inst (instructions F)
      /\ Inst' = setOperands Inst (operands Inst')
      /\ Forall2 (evaluatedOperand eval F) (operands Inst) (operands Inst').

End FolderVocabularyMore.


Section NumberingVocabulary.
Import IR RedundancyAnalysis.

(** [VNT'] knows every value [VNT] knows, under the same number. *)
Definition extends (VNT VNT' : ValueNumberTable) : Prop :=
  forall V n, ValueNumbers VNT !! V = Some n ->
              ValueNumbers VNT' !! V = Some n.

(** Every operand of [Inst] has a number in [VNT]. *)
Definition operandsNumbered (VNT : ValueNumberTable) (Inst : Instruction)
  : Prop :=
  forall v, In v (operands Inst) -> is_Some (ValueNumbers VNT !! v).

(** The key of [Inst], read off a table without changing it. *)
Definition keyOf (VNT : ValueNumberTable) (Inst : Instruction)
  : ExpressionKey :=
  {| Opcode := opcode Inst;
     OperandValueNumbers :=
       canonicalizeOperands (map (lookupValueNumber VNT) (operands Inst))
                            (opcode Inst);
     ResultType := ty Inst;
     Predicate := if isCmpOp (opcode Inst) then predicate Inst else 0;
     InBounds := if bool_decide (opcode Inst = GetElementPtr)
                 then inBounds Inst else false |}.

(** The numbers handed out so far are 1, 2, ... up to the number of
    values known, one per value. *)
Definition wellNumbered (VNT : ValueNumberTable) : Prop :=
  NextValueNumber VNT = N.of_nat (size (ValueNumbers VNT)) + 1
  /\ (forall V n, ValueNumbers VNT !! V = Some n ->
        1 <= n < NextValueNumber VNT)
  /\ (forall V W n, ValueNumbers VNT !! V = Some n ->
        ValueNumbers VNT !! W = Some n -> V = W).

(** The table is well numbered and [spare] more values can be numbered
    before the 32-bit counter overflows. *)
Definition numberingInv (spare : nat) (VNT : ValueNumberTable) : Prop :=
  wellNumbered VNT
  /\ N.of_nat (size (ValueNumbers VNT) + spare) + 1 < 2 ^ 32.

(** An upper bound of the number of values the analysis of the
    instructions [l] numbers: each instruction and each of its operands. *)
Definition valueBudget (l : list Instruction) : nat :=
  fold_right (fun Inst n => (S (length (operands Inst)) + n)%nat) 0%nat l.

(** What the table and the map record about expressions, after the
    instructions [pre] have been processed: an instruction sits in the
    bucket of its own key, and the replacement of a redundant instruction
    sits in the bucket of the key of that instruction. *)
Definition keyInv (pre : list Instruction)
  (st : ValueNumberTable * RedundancyInfo) : Prop :=
  (forall K bucket i,
     ExpressionTable (fst st) !! K = Some bucket -> In i bucket ->
     exists Inst, In Inst pre /\ iid Inst = i
                  /\ operandsNumbered (fst st) Inst
                  /\ K = keyOf (fst st) Inst)
  /\ (forall R P, RedundantInstructions (snd st) !! R = Some P ->
        exists Inst, In Inst pre /\ iid Inst = R
                     /\ operandsNumbered (fst st) Inst
                     /\ exists bucket,
                          ExpressionTable (fst st) !! keyOf (fst st) Inst
                            = Some bucket
                          /\ In P bucket)
  /\ (forall Inst, In Inst pre -> isAnalyzable Inst = true ->
        inTable (fst st) (iid Inst)
        \/ is_Some (RedundantInstructions (snd st) !! iid Inst)).

(** The two instructions compute the same expression: the same opcode and
    result type, the same predicate if they are comparisons, the same
    in-bounds flag if they are address computations, and the same
    operands, in the same order or, for a commutative opcode, swapped. *)
Definition sameExpression (I1 I2 : Instruction) : Prop :=
  opcode I1 = opcode I2 /\ ty I1 = ty I2
  /\ (isCmpOp (opcode I1) = true -> predicate I1 = predicate I2)
  /\ (opcode I1 = GetElementPtr -> inBounds I1 = inBounds I2)
  /\ (operands I1 = operands I2
      \/ (isCommutative (opcode I1) = true
          /\ exists a b, operands I1 = [a; b] /\ operands I2 = [b; a])).

End NumberingVocabulary.

Section EliminationVocabulary.
Import IR.

(** The dominator tree [DT] lists instructions of [F]: the blocks of [F]
    that can be reached from its entry. *)
Definition treeOf (F : Function) (DT : RedundancyAnalysis.DominatorTree)
  : Prop :=
  forall Inst, In Inst (instructions (RedundancyAnalysis.preorder DT)) ->
               In Inst (instructions F).

(** An operand slot after elimination: untouched, or a redundant
    instruction replaced by an instruction of the dominator tree that is
    another instruction, dominates it and computes the same expression. *)
Definition redirectedOperand (DT : RedundancyAnalysis.DominatorTree)
  (v v' : Value) : Prop :=
  v' = v
  \/ exists IR IP,
       v = VInstruction (iid IR) /\ v' = VInstruction (iid IP)
       /\ In IR (instructions (RedundancyAnalysis.preorder DT))
       /\ In IP (instructions (RedundancyAnalysis.preorder DT))
       /\ sameExpression IR IP
       /\ iid IP <> iid IR
       /\ RedundancyAnalysis.dominates DT (iid IP) (iid IR) = true.

End EliminationVocabulary.

Section UnrollerVocabulary.
Import IR LoopUnrolling LoopUnrollingPass.

(** The options of a request to unroll the loop [l] at run time, the trip
    count being the one of the object [ULO]. *)
Definition runtimeOptions (cfg : LoopUnrollConfig) (l : Loop)
  (ULO : ULO.UnrollLoopOptions) : ULO.UnrollLoopOptions :=
  {| ULO.Count := PartialUnrollFactor cfg;
     ULO.Force := false;
     ULO.AllowExpensiveTripCount := false;
     ULO.UnrollRemainder := true;
     ULO.ForgetAllSCEV := false;
     ULO.TripCount := ULO.TripCount ULO;
     ULO.TripMultiple := smallConstantTripMultiple l |}.

End UnrollerVocabulary.

(** * Properties *)

(** ** Machine integers *)

Lemma wrap32_small n : n < 2 ^ 32 -> wrap32 n = n.
Proof. intros H. unfold wrap32. now apply N.mod_small. Qed.

Lemma wrap32_bound n : wrap32 n < 2 ^ 32.
Proof. unfold wrap32. apply N.mod_lt. discriminate. Qed.

(** ** Loop analyzer *)

Section LoopAnalyzer.
Import IR LoopUnrolling.

Lemma computeTripCount_eq l : computeTripCount l = smallConstantTripCount l.
Proof.
  unfold computeTripCount. destruct (0 <? smallConstantTripCount l) eqn:E.
  - reflexivity.
  - apply N.ltb_ge in E. lia.
Qed.

Lemma countInstructions_bound l : countInstructions l < 2 ^ 32.
Proof.
  unfold countInstructions.
  assert (H0 : (0 : N) < 2 ^ 32) by reflexivity.
  revert H0. generalize (0 : N) as c. generalize (loopBlocks l) as bs.
  induction bs as [|BB bs IH]; intros c Hc; simpl; [exact Hc|].
  apply IH. revert c Hc. generalize (instrs BB) as is_.
  induction is_ as [|i is_ IHi]; intros c Hc; simpl; [exact Hc|].
  apply IHi. destruct (_ && _); [apply wrap32_bound | exact Hc].
Qed.

Lemma countInstructions_withTripCount l tc :
  countInstructions (withTripCount l tc) = countInstructions l.
Proof. reflexivity. Qed.

(** C6: with the default configuration, a loop without side effects whose
    trip count is between 1 and [full_max_count = 8] and whose unrolled
    size [trip_count * instruction_count] is at most [full_max_insns = 100]
    is selected for FullUnroll with factor [trip_count]; the same loop with
    trip count [full_max_count + 1 = 9] is not selected for FullUnroll. *)
Theorem full_unroll_boundary (l : Loop) :
  hasSideEffects l = false ->
  0 < smallConstantTripCount l <= FullUnrollMaxCount defaultConfig ->
  smallConstantTripCount l * countInstructions l
    <= FullUnrollMaxInstructions defaultConfig ->
  Strategy (analyzeLoop defaultConfig l) = FullUnroll
  /\ UnrollFactor (analyzeLoop defaultConfig l) = smallConstantTripCount l
  /\ Strategy (analyzeLoop defaultConfig
                 (withTripCount l (FullUnrollMaxCount defaultConfig + 1)))
     <> FullUnroll.
Proof.
  intros Hse [Hpos Hle] Hsize. simpl in Hle, Hsize.
  assert (Hs : Strategy (analyzeLoop defaultConfig l) = FullUnroll).
  { unfold analyzeLoop, determineStrategy. simpl.
    rewrite Hse, computeTripCount_eq. simpl.
    assert (E1 : (0 <? smallConstantTripCount l) = true)
      by (apply N.ltb_lt; lia).
    assert (E2 : (smallConstantTripCount l <=? 8) = true)
      by (apply N.leb_le; lia).
    rewrite E1, E2. simpl.
    rewrite wrap32_small by (change (2 ^ 32) with 4294967296; lia).
    assert (E3 : (countInstructions l * smallConstantTripCount l <=? 100)
                 = true) by (apply N.leb_le; lia).
    now rewrite E3. }
  split; [exact Hs|]. split.
  - unfold analyzeLoop in *. simpl in *. unfold calculateUnrollFactor.
    simpl. rewrite Hs. apply computeTripCount_eq.
  - unfold analyzeLoop, determineStrategy. simpl.
    destruct (hasSideEffects _ && _); [discriminate|].
    change (computeTripCount (withTripCount l (8 + 1))) with 9. simpl.
    discriminate.
Qed.

Lemma full_unroll_boundary_witness :
  let l := Examples.addLoop 3 8 in
  Strategy (analyzeLoop defaultConfig l) = FullUnroll
  /\ UnrollFactor (analyzeLoop defaultConfig l) = 8
  /\ Strategy (analyzeLoop defaultConfig (withTripCount l 9)) <> FullUnroll.
Proof.
  apply (full_unroll_boundary (Examples.addLoop 3 8)).
  - reflexivity.
  - vm_compute. split; [reflexivity | discriminate].
  - vm_compute. discriminate.
Defined.

Lemma adjustToDivisor_4 TC :
  largestDivisor 4 TC (N.of_nat (adjustToDivisor TC 4)).
Proof.
  unfold largestDivisor. cbn [adjustToDivisor].
  change (N.of_nat 4) with 4. change (N.of_nat 3) with 3.
  change (N.of_nat 2) with 2.
  destruct (TC mod 4 =? 0) eqn:E4; cbn [negb].
  { apply N.eqb_eq in E4. change (N.of_nat 4) with 4. repeat split; lia. }
  destruct (TC mod 3 =? 0) eqn:E3; cbn [negb].
  { apply N.eqb_eq in E3. apply N.eqb_neq in E4. change (N.of_nat 3) with 3.
    repeat split; try lia. intros F HF. assert (F = 4) by lia. now subst. }
  destruct (TC mod 2 =? 0) eqn:E2; cbn [negb].
  { apply N.eqb_eq in E2. apply N.eqb_neq in E4, E3.
    change (N.of_nat 2) with 2. repeat split; try lia. intros F HF.
    assert (HF' : F = 3 \/ F = 4) by lia. now destruct HF'; subst. }
  apply N.eqb_neq in E4, E3, E2. change (N.of_nat 1) with 1.
  repeat split; try lia.
  - apply N.mod_1_r.
  - intros F HF. assert (HF' : F = 2 \/ F = 3 \/ F = 4) by lia.
    now destruct HF' as [->|[->| ->]].
Qed.

Lemma adjustToSize_spec cfg IC (D : nat) :
  (1 <= D)%nat ->
  (1 <= adjustToSize cfg IC D <= D)%nat
  /\ (adjustToSize cfg IC D = 1%nat
      \/ wrap32 (IC * N.of_nat (adjustToSize cfg IC D))
         <= MaxUnrolledSize cfg)
  /\ (wrap32 (IC * N.of_nat D) <= MaxUnrolledSize cfg ->
      adjustToSize cfg IC D = D).
Proof.
  induction D as [|D IH]; [lia|]. intros _.
  destruct D as [|D].
  { cbn. split; [lia|]. split; [now left | reflexivity]. }
  change (adjustToSize cfg IC (S (S D)))
    with (if MaxUnrolledSize cfg <? wrap32 (IC * N.of_nat (S (S D)))
          then adjustToSize cfg IC (S D) else S (S D)).
  destruct (MaxUnrolledSize cfg <? wrap32 (IC * N.of_nat (S (S D)))) eqn:E.
  - apply N.ltb_lt in E. destruct IH as (Hr & Hs & _); [lia|].
    split; [lia|]. split; [exact Hs|]. intros; lia.
  - apply N.ltb_ge in E. split; [lia|]. split; [now right | reflexivity].
Qed.

Lemma In_getCandidates cfg LI c :
  In c (getCandidates cfg LI) ->
  (exists l, c = analyzeLoop cfg l) /\ Strategy c <> NoUnroll.
Proof.
  unfold getCandidates. rewrite in_flat_map. intros (l0 & _ & Hc).
  apply list_elem_of_In, list_elem_of_filter in Hc. destruct Hc as [Hs Hc].
  apply list_elem_of_In, in_map_iff in Hc. destruct Hc as (l & <- & _).
  split; [now exists l | exact Hs].
Qed.

Lemma adjustToSize_S cfg IC (F : nat) :
  adjustToSize cfg IC (S (S F))
  = if MaxUnrolledSize cfg <? wrap32 (IC * N.of_nat (S (S F)))
    then adjustToSize cfg IC (S F) else S (S F).
Proof. reflexivity. Qed.

(** The second loop stops at the largest factor, from the first one
    downwards, whose unrolled size (in 32-bit arithmetic) is within the
    limit, or at 1. *)
Lemma adjustToSize_skipped cfg IC (D : nat) :
  forall F, (adjustToSize cfg IC D < F <= D)%nat ->
    MaxUnrolledSize cfg < wrap32 (IC * N.of_nat F).
Proof.
  induction D as [|D IH]; [cbn; intros; lia|]. destruct D as [|D].
  { cbn. intros; lia. }
  rewrite adjustToSize_S.
  destruct (MaxUnrolledSize cfg <? wrap32 (IC * N.of_nat (S (S D)))) eqn:E.
  - apply N.ltb_lt in E. intros F HF.
    destruct (decide (F = S (S D))) as [->|Hne]; [exact E|].
    apply IH. lia.
  - intros; lia.
Qed.

(** The factor the specification describes, at the default configuration. *)
Lemma specPartialFactor_default TC IC :
  specPartialFactor defaultConfig TC IC
  = if (TC mod 4 =? 0) && (4 * IC <=? 400) then 4
    else if (TC mod 3 =? 0) && (3 * IC <=? 400) then 3
    else if (TC mod 2 =? 0) && (2 * IC <=? 400) then 2
    else 1.
Proof.
  unfold specPartialFactor.
  change (map N.of_nat (rev (seq 2 (N.to_nat
            (PartialUnrollFactor defaultConfig) - 1)))) with [4; 3; 2].
  cbn [find MaxUnrolledSize defaultConfig].
  destruct ((TC mod 4 =? 0) && _); [reflexivity|].
  destruct ((TC mod 3 =? 0) && _); [reflexivity|].
  destruct ((TC mod 2 =? 0) && _); reflexivity.
Qed.

(** The two loops of [calculateUnrollFactor] agree with the specification
    exactly when the factor they leave still divides the trip count. *)
Lemma default_factor_vs_spec TC IC :
  IC < 2 ^ 30 ->
  N.of_nat (adjustToSize defaultConfig IC (adjustToDivisor TC 4))
    = specPartialFactor defaultConfig TC IC
  <-> TC mod N.of_nat (adjustToSize defaultConfig IC (adjustToDivisor TC 4))
      = 0.
Proof.
  intros HIC. rewrite specPartialFactor_default.
  change (2 ^ 30) with 1073741824 in HIC.
  pose proof (N.mod_1_r TC) as E1.
  cbn [adjustToDivisor].
  change (N.of_nat 4) with 4. change (N.of_nat 3) with 3.
  change (N.of_nat 2) with 2.
  destruct (N.eqb_spec (TC mod 4) 0) as [E4|E4];
  destruct (N.eqb_spec (TC mod 3) 0) as [E3|E3];
  destruct (N.eqb_spec (TC mod 2) 0) as [E2|E2]; cbn [negb andb];
  cbn [adjustToSize MaxUnrolledSize defaultConfig];
  change (N.of_nat 4) with 4; change (N.of_nat 3) with 3;
  change (N.of_nat 2) with 2;
  rewrite ?(wrap32_small (IC * 4)), ?(wrap32_small (IC * 3)),
          ?(wrap32_small (IC * 2))
    by (change (2 ^ 32) with 4294967296; lia);
  repeat match goal with
  | |- context [?a <? ?b] => destruct (N.ltb_spec a b)
  | |- context [?a <=? ?b] => destruct (N.leb_spec a b)
  end; cbn [andb]; change (N.of_nat 4) with 4; change (N.of_nat 3) with 3;
  change (N.of_nat 2) with 2; change (N.of_nat 1) with 1; lia.
Qed.

(** C3: the factor of a partially unrolled loop is not always the largest
    factor that divides the trip count and fits the size limit.  With the
    default configuration, every candidate returned by [getCandidates]
    whose trip count is known and which is not selected for FullUnroll has
    strategy PartialUnroll, and its factor is found in two steps that do
    not look back: [D] is the largest factor up to [partial_factor = 4]
    that divides the trip count, and the factor is the largest one from [D]
    downwards that is 1 or keeps [factor * instruction_count] (in 32-bit
    arithmetic) within [max_unrolled_size = 400], whether or not it still
    divides the trip count.  For a loop of fewer than [2^30] instructions
    the factor is the one the specification describes exactly when it
    divides the trip count. *)
Theorem partial_factor_ignores_divisibility
  (LI : list Loop) (c : LoopUnrollCandidate) :
  In c (getCandidates defaultConfig LI) ->
  0 < TripCount c ->
  Strategy c <> FullUnroll ->
  Strategy c = PartialUnroll
  /\ (exists D,
        largestDivisor (PartialUnrollFactor defaultConfig) (TripCount c) D
        /\ 1 <= UnrollFactor c <= D
        /\ (UnrollFactor c = 1
            \/ wrap32 (InstructionCount c * UnrollFactor c)
               <= MaxUnrolledSize defaultConfig)
        /\ forall G, UnrollFactor c < G <= D ->
             MaxUnrolledSize defaultConfig
             < wrap32 (InstructionCount c * G))
  /\ (InstructionCount c < 2 ^ 30 ->
      UnrollFactor c
        = specPartialFactor defaultConfig (TripCount c) (InstructionCount c)
      <-> TripCount c mod UnrollFactor c = 0).
Proof.
  intros Hin Htc Hfull.
  destruct (In_getCandidates _ _ _ Hin) as [[l ->] Hno].
  set (pre := {| L := l; TripCount := computeTripCount l;
                 TripMultiple := smallConstantTripMultiple l;
                 InstructionCount := countInstructions l;
                 IsSimple := isSimpleLoop l;
                 HasSideEffects := hasSideEffects l;
                 Strategy := NoUnroll; UnrollFactor := 1 |}).
  assert (Hs : Strategy (analyzeLoop defaultConfig l) = PartialUnroll).
  { revert Hno Hfull Htc. unfold analyzeLoop. cbn [Strategy TripCount].
    fold pre. unfold determineStrategy. cbn [TripCount].
    intros Hno Hfull Htc.
    destruct (HasSideEffects pre && _); [congruence|].
    destruct (_ && _ && _); [congruence|].
    apply N.ltb_lt in Htc. unfold pre in *. cbn [TripCount] in *.
    now rewrite Htc. }
  split; [exact Hs|].
  revert Hs. unfold analyzeLoop. cbn [Strategy TripCount InstructionCount
    UnrollFactor]. fold pre. intros Hs.
  unfold calculateUnrollFactor. cbn [Strategy TripCount InstructionCount].
  rewrite Hs. cbn [PartialUnrollFactor defaultConfig MaxUnrolledSize].
  change (N.to_nat 4) with 4%nat.
  split; [|apply default_factor_vs_spec].
  pose proof (adjustToDivisor_4 (computeTripCount l)) as HD.
  set (D := adjustToDivisor (computeTripCount l) 4) in *.
  assert (HD1 : (1 <= D)%nat) by (destruct HD as [[? _] _]; lia).
  destruct (adjustToSize_spec defaultConfig (countInstructions l) D HD1)
    as (Hr & Hsz & _).
  pose proof (adjustToSize_skipped defaultConfig (countInstructions l) D)
    as Hskip.
  set (r := adjustToSize defaultConfig (countInstructions l) D) in *.
  exists (N.of_nat D). split; [exact HD|]. split; [lia|]. split.
  { destruct Hsz as [->|Hsz]; [now left | right; exact Hsz]. }
  intros G HG. rewrite <- (N2Nat.id G). apply Hskip. lia.
Qed.

(** The loop of 110 instructions with trip count 16: the first step keeps
    4, the second lowers it to 3, which does not divide 16, although 2
    divides 16 and fits the size limit. *)
Lemma partial_factor_ignores_divisibility_witness :
  let c := analyzeLoop defaultConfig (Examples.addLoop 110 16) in
  (TripCount c = 16 /\ InstructionCount c = 110 /\ UnrollFactor c = 3
   /\ specPartialFactor defaultConfig 16 110 = 2
   /\ qualifies defaultConfig 16 110 2)
  /\ Strategy c = PartialUnroll
  /\ (exists D,
        largestDivisor 4 (TripCount c) D
        /\ 1 <= UnrollFactor c <= D
        /\ (UnrollFactor c = 1
            \/ wrap32 (InstructionCount c * UnrollFactor c) <= 400)
        /\ forall G, UnrollFactor c < G <= D ->
             400 < wrap32 (InstructionCount c * G))
  /\ (InstructionCount c < 2 ^ 30 ->
      UnrollFactor c
        = specPartialFactor defaultConfig (TripCount c) (InstructionCount c)
      <-> TripCount c mod UnrollFactor c = 0).
Proof.
  split.
  - vm_compute. repeat split; discriminate.
  - apply (partial_factor_ignores_divisibility [Examples.addLoop 110 16]).
    + vm_compute. left. reflexivity.
    + vm_compute. reflexivity.
    + vm_compute. discriminate.
Defined.

(** The same loop, evaluated: the analyzer returns it as a candidate with
    factor 3, which is not among the factors that qualify. *)
Example calculateUnrollFactor_16_110 :
  let c := analyzeLoop defaultConfig (Examples.addLoop 110 16) in
  In c (getCandidates defaultConfig [Examples.addLoop 110 16])
  /\ Strategy c = PartialUnroll
  /\ UnrollFactor c = 3
  /\ 16 mod 3 <> 0
  /\ ~ qualifies defaultConfig (TripCount c) (InstructionCount c)
        (UnrollFactor c).
Proof.
  vm_compute. repeat split; try discriminate; try reflexivity.
  - left. reflexivity.
  - intros (_ & H & _). discriminate H.
Qed.

(** The strategy is not revisited once the factor is known: a loop whose
    trip count 17 has no divisor up to 4 keeps strategy PartialUnroll with
    factor 1 and is returned as a candidate. *)
Lemma partial_unroll_factor_one_is_candidate :
  let c := analyzeLoop defaultConfig (Examples.addLoop 20 17) in
  In c (getCandidates defaultConfig [Examples.addLoop 20 17])
  /\ Strategy c = PartialUnroll /\ UnrollFactor c = 1.
Proof. vm_compute. repeat split. left. reflexivity. Qed.

End LoopAnalyzer.

Section PureCalls.
Import IR LoopUnrolling.

Lemma hasSideEffects_false l :
  (forall BB Inst, In BB (loopBlocks l) -> In Inst (instrs BB) ->
     (opcode Inst = Call -> calledFunction (callInfo Inst) = Some true)
     /\ isVolatile Inst = false /\ isAtomic Inst = false) ->
  hasSideEffects l = false.
Proof.
  intros H. unfold hasSideEffects.
  apply not_true_is_false. intros E.
  apply existsb_exists in E. destruct E as (BB & HBB & E).
  apply existsb_exists in E. destruct E as (Inst & HI & E).
  destruct (H BB Inst HBB HI) as (Hcall & Hvol & Hat).
  unfold instrHasSideEffects in E. rewrite Hvol, Hat in E.
  rewrite !orb_false_r in E. case_bool_decide as Hop; [|discriminate].
  rewrite (Hcall Hop) in E. discriminate.
Qed.

(** C7 (as amended): a loop whose calls are all direct calls to functions
    known not to access memory, and which has no volatile or atomic
    instruction, has no side effects for the analyzer; [allow_calls] then
    plays no role and the strategy follows the trip-count rules.  It is
    NoUnroll exactly when the trip count is unknown and runtime unrolling
    is disabled or the loop is not in simple form. *)
Theorem pure_call_loop_strategy (cfg : LoopUnrollConfig) (l : Loop) :
  (forall BB Inst, In BB (loopBlocks l) -> In Inst (instrs BB) ->
     (opcode Inst = Call -> calledFunction (callInfo Inst) = Some true)
     /\ isVolatile Inst = false /\ isAtomic Inst = false) ->
  let c := analyzeLoop cfg l in
  HasSideEffects c = false
  /\ Strategy c =
       (if (0 <? TripCount c) && (TripCount c <=? FullUnrollMaxCount cfg)
           && (wrap32 (InstructionCount c * TripCount c)
               <=? FullUnrollMaxInstructions cfg)
        then FullUnroll
        else if 0 <? TripCount c then PartialUnroll
        else if AllowRuntimeUnroll cfg && IsSimple c then RuntimeUnroll
        else NoUnroll)
  /\ (Strategy c = NoUnroll <->
      TripCount c = 0 /\ AllowRuntimeUnroll cfg && IsSimple c = false).
Proof.
  intros H c. pose proof (hasSideEffects_false l H) as Hse.
  assert (Hc : HasSideEffects c = false) by exact Hse.
  assert (Hs : Strategy c =
       (if (0 <? TripCount c) && (TripCount c <=? FullUnrollMaxCount cfg)
           && (wrap32 (InstructionCount c * TripCount c)
               <=? FullUnrollMaxInstructions cfg)
        then FullUnroll
        else if 0 <? TripCount c then PartialUnroll
        else if AllowRuntimeUnroll cfg && IsSimple c then RuntimeUnroll
        else NoUnroll)).
  { unfold c, analyzeLoop, determineStrategy.
    cbn [Strategy TripCount InstructionCount HasSideEffects IsSimple].
    now rewrite Hse. }
  split; [exact Hc|]. split; [exact Hs|]. rewrite Hs.
  destruct (0 <? TripCount c) eqn:E0.
  - apply N.ltb_lt in E0. cbn [andb].
    destruct (_ && _); (split; [discriminate | intros [? _]; lia]).
  - apply N.ltb_ge in E0. cbn [andb].
    destruct (AllowRuntimeUnroll cfg && IsSimple c).
    + split; [discriminate | intros [_ ?]; discriminate].
    + split; [intros _; split; [lia | reflexivity] | reflexivity].
Qed.

Lemma pure_call_loop_strategy_witness :
  let c := analyzeLoop defaultConfig (Examples.pureCallLoop 4) in
  HasSideEffects c = false
  /\ Strategy c = FullUnroll
  /\ (Strategy c = NoUnroll <->
      TripCount c = 0
      /\ AllowRuntimeUnroll defaultConfig && IsSimple c = false).
Proof.
  apply (pure_call_loop_strategy defaultConfig (Examples.pureCallLoop 4)).
  intros BB Inst HBB HI. vm_compute in HBB.
  destruct HBB as [<-|[]]. vm_compute in HI.
  destruct HI as [<-|[<-|[<-|[]]]]; vm_compute; repeat split; discriminate.
Defined.

(** C7 (as stated) fails: with [allow_calls = false], the loop whose body is
    a single call to a memory-pure function and whose trip count is 4 is
    selected for FullUnroll, not NoUnroll. *)
Lemma pure_call_loop_counterexample :
  let l := Examples.pureCallLoop 4 in
  UnrollLoopsWithCalls defaultConfig = false
  /\ map (fun BB => map opcode (instrs BB)) (loopBlocks l) = [[PHI; Call; Br]]
  /\ (forall BB Inst, In BB (loopBlocks l) -> In Inst (instrs BB) ->
        opcode Inst = Call ->
        calledFunction (callInfo Inst) = Some true
        /\ isVolatile Inst = false /\ isAtomic Inst = false)
  /\ Strategy (analyzeLoop defaultConfig l) = FullUnroll
  /\ Strategy (analyzeLoop defaultConfig l) <> NoUnroll.
Proof.
  cbv zeta. split; [reflexivity|]. split; [reflexivity|]. split.
  - intros BB Inst HBB HI. vm_compute in HBB. destruct HBB as [<-|[]].
    vm_compute in HI.
    destruct HI as [<-|[<-|[<-|[]]]]; vm_compute; intros; try discriminate.
    repeat split.
  - vm_compute. split; [reflexivity | discriminate].
Qed.

End PureCalls.

(** ** Facts about the IR operations *)

Section IRFacts.
Import IR.

Lemma fold_left_invariant {A B} (P : A -> Prop) (f : A -> B -> A) l a :
  P a -> (forall a b, P a -> In b l -> P (f a b)) -> P (fold_left f l a).
Proof.
  revert a. induction l as [|b l IH]; intros a Ha Hf; simpl; [exact Ha|].
  apply IH.
  - apply Hf; [exact Ha | now left].
  - intros a' b' Ha' Hb'. apply Hf; [exact Ha' | now right].
Qed.

Lemma instructions_mapInstrs f F :
  instructions (mapInstrs f F) = map f (instructions F).
Proof.
  unfold instructions, mapInstrs. induction F as [|BB F IH]; simpl.
  - reflexivity.
  - rewrite IH, map_app. reflexivity.
Qed.

Lemma instrIds_mapInstrs f F :
  (forall Inst, iid (f Inst) = iid Inst) ->
  instrIds (mapInstrs f F) = instrIds F.
Proof.
  intros Hf. unfold instrIds. rewrite instructions_mapInstrs, map_map.
  apply map_ext. exact Hf.
Qed.

Lemma instrIds_replaceAllUsesWith F Old New :
  instrIds (replaceAllUsesWith F Old New) = instrIds F.
Proof. apply instrIds_mapInstrs. reflexivity. Qed.

Lemma instructions_replaceAllUsesWith F Old New :
  instructions (replaceAllUsesWith F Old New)
  = map (fun Inst => setOperands Inst
                       (map (replaceUse (VInstruction Old) New)
                            (operands Inst)))
        (instructions F).
Proof. apply instructions_mapInstrs. Qed.

Lemma instructions_eraseFromParent F i :
  instructions (eraseFromParent F i)
  = filter (fun Inst => iid Inst <> i) (instructions F).
Proof.
  unfold instructions, eraseFromParent. induction F as [|BB F IH]; simpl.
  - reflexivity.
  - rewrite IH, filter_app. reflexivity.
Qed.

Lemma instrIds_eraseFromParent F i :
  instrIds (eraseFromParent F i) = filter (fun j => j <> i) (instrIds F).
Proof.
  unfold instrIds. rewrite instructions_eraseFromParent.
  induction (instructions F) as [|Inst l IH]; [reflexivity|].
  rewrite filter_cons. simpl. rewrite (filter_cons (fun j => j <> i)).
  destruct (decide (iid Inst <> i)); simpl; now rewrite IH.
Qed.

(** Erasing a list of instructions removes exactly their identities. *)
Lemma instrIds_erase_all l F :
  instrIds (fold_left eraseFromParent l F)
  = filter (fun j => j ∉ l) (instrIds F).
Proof.
  revert F. induction l as [|i l IH]; intros F; simpl.
  - induction (instrIds F) as [|j js IHj]; [reflexivity|].
    rewrite filter_cons. destruct (decide (j ∉ [])) as [_|H].
    + now rewrite <- IHj.
    + exfalso. apply H. apply not_elem_of_nil.
  - rewrite IH, instrIds_eraseFromParent.
    induction (instrIds F) as [|j js IHj]; [reflexivity|].
    rewrite (filter_cons (fun j => j <> i)),
            (filter_cons (fun j => j ∉ i :: l)).
    destruct (decide (j <> i)) as [Hne|Heq].
    + rewrite filter_cons.
      destruct (decide (j ∉ l)) as [Hl|Hl];
        destruct (decide (j ∉ i :: l)) as [Hil|Hil].
      * now rewrite IHj.
      * exfalso. apply Hil. rewrite not_elem_of_cons. now split.
      * exfalso. apply Hl. rewrite not_elem_of_cons in Hil. tauto.
      * exact IHj.
    + destruct (decide (j ∉ i :: l)) as [Hil|Hil]; [|exact IHj].
      exfalso. rewrite not_elem_of_cons in Hil. tauto.
Qed.

Lemma findInstr_Some F i Inst :
  findInstr F i = Some Inst -> In Inst (instructions F) /\ iid Inst = i.
Proof.
  unfold findInstr. intros H. apply find_some in H. destruct H as [Hin Hb].
  split; [exact Hin|]. now apply bool_decide_eq_true in Hb.
Qed.

Lemma findInstr_NoDup F Inst :
  NoDup (instrIds F) -> In Inst (instructions F) ->
  findInstr F (iid Inst) = Some Inst.
Proof.
  unfold findInstr, instrIds.
  induction (instructions F) as [|J l IH]; intros Hnd Hin; [destruct Hin|].
  simpl in *. apply NoDup_cons in Hnd. destruct Hnd as [Hnotin Hnd].
  case_bool_decide as E.
  - destruct Hin as [->|Hin]; [reflexivity|].
    exfalso. apply Hnotin. rewrite E. apply list_elem_of_In.
    now apply in_map.
  - destruct Hin as [->|Hin]; [congruence|]. now apply IH.
Qed.

Lemma length_instrIds F : length (instrIds F) = length (instructions F).
Proof. unfold instrIds. apply length_map. Qed.

End IRFacts.

(** ** Constant folder *)

Section ConstantFolder.
Import IR ConstantFolding.
Variable ConstantFoldInstruction : Instruction -> option Constant.

Local Abbreviation sweepStep :=
  (ConstantFolding.sweepStep ConstantFoldInstruction).
Local Abbreviation sweep :=
  (ConstantFolding.sweep ConstantFoldInstruction).
Local Abbreviation foldLoop :=
  (ConstantFolding.foldLoop ConstantFoldInstruction).
Local Abbreviation run :=
  (ConstantFolding.run ConstantFoldInstruction).
Local Abbreviation collectCandidates :=
  (ConstantFolding.collectCandidates ConstantFoldInstruction).

Lemma sweepStep_inv F st i : sweepInv F st -> sweepInv F (sweepStep st i).
Proof.
  intros (Hids & Hdel & Hch). unfold ConstantFolding.sweepStep.
  destruct (findInstr (body st) i) as [Inst|] eqn:Ef; [|now repeat split].
  destruct (tryFold ConstantFoldInstruction Inst); [|now repeat split].
  apply findInstr_Some in Ef. destruct Ef as [Hin <-].
  unfold sweepInv, replaceAndScheduleRemoval. cbn [body ToDelete Changed].
  repeat split.
  - now rewrite instrIds_replaceAllUsesWith.
  - intros j Hj. apply in_app_or in Hj. destruct Hj as [Hj|[<-|[]]].
    + now apply Hdel.
    + rewrite <- Hids. unfold instrIds. now apply in_map.
  - intros _ E. now apply app_eq_nil in E as [_ E].
Qed.

Lemma sweep_fold_inv F l Total :
  sweepInv F (fold_left sweepStep l (sweepStart F Total)).
Proof.
  apply fold_left_invariant.
  - repeat split; cbn; [tauto | discriminate].
  - intros st i Hst _. now apply sweepStep_inv.
Qed.

Lemma sweepStep_Changed_mono st i :
  Changed st = true -> Changed (sweepStep st i) = true.
Proof.
  intros H. unfold ConstantFolding.sweepStep.
  destruct (findInstr (body st) i); [|exact H].
  destruct (tryFold _ _); [reflexivity | exact H].
Qed.

Lemma sweep_fold_Changed_mono l st :
  Changed st = true -> Changed (fold_left sweepStep l st) = true.
Proof.
  intros H. apply (fold_left_invariant (fun st => Changed st = true));
    [exact H|]. intros a b Ha _. now apply sweepStep_Changed_mono.
Qed.

(** A sweep that reports no change has evaluated every instruction it
    visited, in the function as it stands, without success. *)
Lemma sweep_fold_unchanged l st :
  Changed (fold_left sweepStep l st) = false ->
  fold_left sweepStep l st = st
  /\ forall i Inst, In i l -> findInstr (body st) i = Some Inst ->
       ConstantFoldInstruction Inst = None.
Proof.
  revert st. induction l as [|i l IH]; intros st H; simpl in *.
  - split; [reflexivity | intros ? ? []].
  - assert (Hstep : sweepStep st i = st
                    /\ forall Inst, findInstr (body st) i = Some Inst ->
                         ConstantFoldInstruction Inst = None).
    { unfold ConstantFolding.sweepStep in *.
      destruct (findInstr (body st) i) as [Inst|]; [|split; congruence].
      unfold tryFold in *.
      destruct (ConstantFoldInstruction Inst) eqn:E.
      - rewrite sweep_fold_Changed_mono in H by reflexivity. discriminate.
      - split; [reflexivity|]. intros ? [= <-]. exact E. }
    destruct Hstep as [Hs Hnone]. rewrite Hs in *.
    destruct (IH st H) as [IH1 IH2]. split; [exact IH1|].
    intros j Inst [<-|Hj] Hf; [now apply Hnone | now apply (IH2 j)].
Qed.

Lemma sweep_unchanged F Total :
  NoDup (instrIds F) ->
  Changed (sweep F Total) = false ->
  body (sweep F Total) = F
  /\ forall Inst, In Inst (instructions F) ->
       ConstantFoldInstruction Inst = None.
Proof.
  intros Hnd H. unfold ConstantFolding.sweep in *. cbn [Changed body] in *.
  fold (sweepStart F Total) in *.
  destruct (sweep_fold_unchanged _ _ H) as [Heq Hnone].
  rewrite Heq. cbn. split; [reflexivity|].
  intros Inst Hin. apply (Hnone (iid Inst) Inst).
  - unfold instrIds. now apply in_map.
  - cbn. now apply findInstr_NoDup.
Qed.

Lemma sweep_ids F Total :
  instrIds (body (sweep F Total))
  = filter (fun j => j ∉ ToDelete (sweep F Total)) (instrIds F).
Proof.
  unfold ConstantFolding.sweep. cbn [body ToDelete].
  fold (sweepStart F Total).
  destruct (sweep_fold_inv F (instrIds F) Total) as (Hids & _ & _).
  now rewrite instrIds_erase_all, Hids.
Qed.

(** Every changing sweep erases at least one instruction. *)
Lemma sweep_decreases F Total :
  Changed (sweep F Total) = true ->
  (length (instructions (body (sweep F Total))) < length (instructions F))%nat.
Proof.
  intros H. rewrite <- !length_instrIds, sweep_ids.
  unfold ConstantFolding.sweep in *. cbn [Changed ToDelete] in *.
  fold (sweepStart F Total) in *.
  destruct (sweep_fold_inv F (instrIds F) Total) as (_ & Hdel & Hch).
  specialize (Hch H).
  destruct (ToDelete (fold_left sweepStep (instrIds F) (sweepStart F Total)))
    as [|j dl] eqn:E; [congruence|].
  apply (length_filter_lt _ _ j).
  - apply list_elem_of_In, Hdel. now left.
  - intros Hj. apply Hj. now left.
Qed.

Lemma sweep_NoDup F Total :
  NoDup (instrIds F) -> NoDup (instrIds (body (sweep F Total))).
Proof. intros H. rewrite sweep_ids. now apply NoDup_filter. Qed.

Lemma foldLoop_S fuel F Total :
  foldLoop (S fuel) F Total
  = if Changed (sweep F Total)
    then foldLoop fuel (body (sweep F Total)) (TotalFolded (sweep F Total))
    else Some (body (sweep F Total), TotalFolded (sweep F Total)).
Proof. reflexivity. Qed.

Lemma foldLoop_total fuel F Total :
  (length (instructions F) < fuel)%nat ->
  exists r, foldLoop fuel F Total = Some r.
Proof.
  revert F Total. induction fuel as [|fuel IH]; intros F Total Hlt; [lia|].
  rewrite foldLoop_S.
  destruct (Changed (sweep F Total)) eqn:E; [|eauto].
  apply IH. pose proof (sweep_decreases F Total E). lia.
Qed.

(** The pass always returns. *)
Theorem run_total F : exists r, run F = Some r.
Proof.
  unfold ConstantFolding.run.
  destruct (FoldingCandidates (collectCandidates F)); [eauto|].
  destruct (foldLoop_total (S (length (instructions F))) F 0) as [[F' T] E];
    [lia|]. rewrite E. eauto.
Qed.

Lemma foldLoop_fixed_point fuel F Total F' Total' :
  NoDup (instrIds F) ->
  foldLoop fuel F Total = Some (F', Total') ->
  forall Inst, In Inst (instructions F') ->
    ConstantFoldInstruction Inst = None.
Proof.
  revert F Total. induction fuel as [|fuel IH]; intros F Total Hnd H;
    [discriminate|].
  rewrite foldLoop_S in H.
  destruct (Changed (sweep F Total)) eqn:E.
  - apply (IH _ _ (sweep_NoDup F Total Hnd) H).
  - assert (HF : body (sweep F Total) = F') by congruence.
    destruct (sweep_unchanged F Total Hnd E) as [Hb Hnone].
    intros Inst Hin. apply Hnone. rewrite <- Hb, HF. exact Hin.
Qed.

(** Once the initial visitor sweep has found a candidate, the pass runs
    the fold loop to its fixed point: no remaining instruction has a
    defined constant evaluation. *)
Theorem run_fixed_point_after_loop F F' PA :
  NoDup (instrIds F) ->
  FoldingCandidates (collectCandidates F) <> [] ->
  run F = Some (F', PA) ->
  forall Inst, In Inst (instructions F') ->
    ConstantFoldInstruction Inst = None.
Proof.
  intros Hnd Hcand. unfold ConstantFolding.run.
  destruct (FoldingCandidates (collectCandidates F)); [congruence|].
  destruct (foldLoop _ F 0) as [[F1 T]|] eqn:E; [|discriminate].
  intros [= <- _]. exact (foldLoop_fixed_point _ _ _ _ _ Hnd E).
Qed.

(** An instruction outside the five visited families is never a
    candidate. *)
Lemma visit_unhandled V Inst :
  isBinaryOp (opcode Inst) = false -> isCastOp (opcode Inst) = false ->
  isCmpOp (opcode Inst) = false -> opcode Inst <> Select ->
  opcode Inst <> GetElementPtr ->
  visit ConstantFoldInstruction V Inst = (V, false).
Proof.
  intros Hb Hc Hm Hs Hg. unfold visit. rewrite Hb, Hc, Hm.
  destruct (opcode Inst); try reflexivity; congruence.
Qed.

(** When the visitor sweep collects nothing the pass returns at once and
    leaves the function as it is. *)
Lemma run_no_candidates F :
  FoldingCandidates (collectCandidates F) = [] ->
  run F = Some (F, PreservedAll).
Proof. intros H. unfold ConstantFolding.run. now rewrite H. Qed.

End ConstantFolder.

(** C1: the fixed point I5 is not reached on the path where the visitor
    sweep collects no candidates.  On [%0 = fneg double 1; ret %0] the
    visitor has no handler for the unary operator, the candidate list is
    empty and [run] returns the function untouched, although [%0] has only
    constant operands and a defined constant evaluation. *)
Theorem run_misses_fixed_point_without_candidates :
  ConstantFolding.run Examples.evalConstant Examples.negateOnly
    = Some (Examples.negateOnly, PreservedAll)
  /\ exists Inst,
       In Inst (IR.instructions Examples.negateOnly)
       /\ ConstantFolding.allOperandsConstant Inst = true
       /\ Examples.evalConstant Inst = Some (-1)%Z.
Proof.
  split; [reflexivity|].
  exists (Examples.instr 0 IR.FNeg Examples.double [IR.VConstant 1%Z]).
  split; [now left | split; reflexivity].
Qed.

(** The same negation is folded as soon as an unrelated foldable addition
    makes the candidate list non-empty: the fold loop evaluates every
    instruction, not only the candidates. *)
Example run_folds_negation_next_to_candidate :
  ConstantFolding.run Examples.evalConstant Examples.negateAndAdd
  = Some ([ {| IR.bid := 0%nat;
               IR.instrs := [ Examples.instr 1 IR.Ret Examples.void
                                [IR.VConstant (-1)%Z] ] |} ],
          PreservedNone).
Proof. reflexivity. Qed.

(** Scenario "constant chain": all three computations fold and the
    function returns the constant 20. *)
Example run_constant_chain :
  ConstantFolding.run Examples.evalConstant Examples.constantChain
  = Some ([ {| IR.bid := 0%nat;
               IR.instrs := [ Examples.instr 3 IR.Ret Examples.void
                                [IR.VConstant 20%Z] ] |} ],
          PreservedNone).
Proof. reflexivity. Qed.

(** ** Value numbering *)

Section ExpressionKeys.
Import IR RedundancyAnalysis.

Lemma getValueNumber_assigned VNT V VN :
  ValueNumbers VNT !! V = Some VN -> getValueNumber VNT V = (VN, VNT).
Proof. intros H. unfold getValueNumber. now rewrite H. Qed.

Lemma getValueNumber_table VNT V :
  ExpressionTable (snd (getValueNumber VNT V)) = ExpressionTable VNT.
Proof. unfold getValueNumber. now destruct (ValueNumbers VNT !! V). Qed.

Lemma getValueNumber_mono VNT V W :
  is_Some (ValueNumbers VNT !! W) ->
  is_Some (ValueNumbers (snd (getValueNumber VNT V)) !! W).
Proof.
  intros H. unfold getValueNumber.
  destruct (ValueNumbers VNT !! V) eqn:E; [exact H|]. cbn.
  destruct (decide (V = W)) as [->|Hne].
  - rewrite lookup_insert_eq. eauto.
  - now rewrite lookup_insert_ne.
Qed.

Lemma getValueNumber_numbered VNT V :
  is_Some (ValueNumbers (snd (getValueNumber VNT V)) !! V).
Proof.
  unfold getValueNumber. destruct (ValueNumbers VNT !! V) eqn:E; cbn.
  - rewrite E. eauto.
  - rewrite lookup_insert_eq. eauto.
Qed.

(** A second request for the number of a value returns the first answer
    and leaves the table alone. *)
Lemma getValueNumber_idempotent VNT V :
  getValueNumber (snd (getValueNumber VNT V)) V
  = (fst (getValueNumber VNT V), snd (getValueNumber VNT V)).
Proof.
  unfold getValueNumber at 2 3 4.
  destruct (ValueNumbers VNT !! V) eqn:E; cbn.
  - now apply getValueNumber_assigned.
  - apply getValueNumber_assigned. cbn. apply lookup_insert_eq.
Qed.

Lemma numberOperands_table VNT Ops :
  ExpressionTable (snd (numberOperands VNT Ops)) = ExpressionTable VNT.
Proof.
  revert VNT. induction Ops as [|Op Ops IH]; intros VNT; [reflexivity|].
  cbn [numberOperands].
  destruct (getValueNumber VNT Op) as [VN VNT1] eqn:E1.
  specialize (IH VNT1).
  destruct (numberOperands VNT1 Ops) as [VNs VNT2]. cbn in *.
  rewrite IH. change VNT1 with (snd (VN, VNT1)). rewrite <- E1.
  apply getValueNumber_table.
Qed.

Lemma numberOperands_mono VNT Ops W :
  is_Some (ValueNumbers VNT !! W) ->
  is_Some (ValueNumbers (snd (numberOperands VNT Ops)) !! W).
Proof.
  revert VNT. induction Ops as [|Op Ops IH]; intros VNT H; [exact H|].
  cbn [numberOperands].
  destruct (getValueNumber VNT Op) as [VN VNT1] eqn:E1.
  specialize (IH VNT1).
  destruct (numberOperands VNT1 Ops) as [VNs VNT2]. cbn in *.
  apply IH. change VNT1 with (snd (VN, VNT1)). rewrite <- E1.
  now apply getValueNumber_mono.
Qed.

Lemma createExpressionKey_table VNT Inst :
  ExpressionTable (snd (createExpressionKey VNT Inst)) = ExpressionTable VNT.
Proof.
  unfold createExpressionKey.
  pose proof (numberOperands_table VNT (operands Inst)) as H.
  now destruct (numberOperands VNT (operands Inst)).
Qed.

Lemma createExpressionKey_mono VNT Inst W :
  is_Some (ValueNumbers VNT !! W) ->
  is_Some (ValueNumbers (snd (createExpressionKey VNT Inst)) !! W).
Proof.
  intros HW. unfold createExpressionKey.
  pose proof (numberOperands_mono VNT (operands Inst) W HW) as H.
  now destruct (numberOperands VNT (operands Inst)).
Qed.

Lemma canonicalizeOperands_comm op x y :
  isCommutative op = true ->
  canonicalizeOperands [x; y] op = canonicalizeOperands [y; x] op.
Proof.
  intros H. unfold canonicalizeOperands. rewrite H.
  destruct (y <? x) eqn:E1; destruct (x <? y) eqn:E2; try reflexivity.
  - apply N.ltb_lt in E1, E2. lia.
  - apply N.ltb_ge in E1, E2. assert (x = y) by lia. now subst.
Qed.

Lemma canonicalizeOperands_sorted op x y :
  isCommutative op = true ->
  exists lo hi, canonicalizeOperands [x; y] op = [lo; hi] /\ lo <= hi.
Proof.
  intros H. unfold canonicalizeOperands. rewrite H.
  destruct (y <? x) eqn:E.
  - apply N.ltb_lt in E. exists y, x. split; [reflexivity | lia].
  - apply N.ltb_ge in E. exists x, y. split; [reflexivity | exact E].
Qed.

(** [operator==] holds exactly when the five fields agree, that is, when
    the keys are the same key. *)
Lemma ExpressionKey_eqb_fields k1 k2 :
  ExpressionKey_eqb k1 k2 = true <->
  Opcode k1 = Opcode k2
  /\ ResultType k1 = ResultType k2
  /\ OperandValueNumbers k1 = OperandValueNumbers k2
  /\ Predicate k1 = Predicate k2
  /\ InBounds k1 = InBounds k2.
Proof.
  unfold ExpressionKey_eqb. rewrite !andb_true_iff, !bool_decide_eq_true.
  tauto.
Qed.

Lemma ExpressionKey_eqb_eq k1 k2 :
  ExpressionKey_eqb k1 k2 = true <-> k1 = k2.
Proof.
  rewrite ExpressionKey_eqb_fields. split.
  - destruct k1, k2. cbn. intros (-> & -> & -> & -> & ->). reflexivity.
  - intros ->. tauto.
Qed.

Lemma canonicalizeOperands_min_max op x y :
  isCommutative op = true ->
  canonicalizeOperands [x; y] op = [N.min x y; N.max x y].
Proof.
  intros H. unfold canonicalizeOperands. rewrite H.
  destruct (y <? x) eqn:E.
  - apply N.ltb_lt in E. rewrite N.min_r, N.max_l by lia. reflexivity.
  - apply N.ltb_ge in E. rewrite N.min_l, N.max_r by lia. reflexivity.
Qed.

Lemma isCommutative_opcodes op :
  isCommutative op = true <-> In op [Add; FAdd; Mul; FMul; And; Or; Xor].
Proof.
  split.
  - destruct op; try discriminate; intros _; cbn; tauto.
  - cbn. intros H. repeat (destruct H as [<-|H]; [reflexivity|]).
    destruct H.
Qed.

(** C5: for each of the seven commutative opcodes and operands [a], [b]
    that already have the value numbers [va], [vb], the key built for
    [a op b] equals (under [operator==]) the key built for [b op a], and
    building the keys does not change the table.  The operand numbers of
    both keys are the two value numbers in ascending order, smaller first;
    the other fields are the opcode, the result type, predicate 0 and
    in-bounds false.  [operator==] holds iff opcode, result type, operand
    numbers, predicate and in-bounds flag are all equal. *)
Theorem commutative_keys_equal (VNT : ValueNumberTable)
  (I1 I2 : Instruction) (a b : Value) (va vb : N) :
  In (opcode I1) [Add; FAdd; Mul; FMul; And; Or; Xor] ->
  opcode I2 = opcode I1 -> ty I2 = ty I1 ->
  operands I1 = [a; b] -> operands I2 = [b; a] ->
  ValueNumbers VNT !! a = Some va -> ValueNumbers VNT !! b = Some vb ->
  let K1 := fst (createExpressionKey VNT I1) in
  let K2 := fst (createExpressionKey VNT I2) in
  ExpressionKey_eqb K1 K2 = true
  /\ snd (createExpressionKey VNT I1) = VNT
  /\ snd (createExpressionKey VNT I2) = VNT
  /\ OperandValueNumbers K1 = [N.min va vb; N.max va vb]
  /\ OperandValueNumbers K2 = [N.min va vb; N.max va vb]
  /\ Opcode K1 = opcode I1 /\ ResultType K1 = ty I1
  /\ Predicate K1 = 0 /\ InBounds K1 = false
  /\ (forall k1 k2,
        ExpressionKey_eqb k1 k2 = true <->
        Opcode k1 = Opcode k2 /\ ResultType k1 = ResultType k2
        /\ OperandValueNumbers k1 = OperandValueNumbers k2
        /\ Predicate k1 = Predicate k2 /\ InBounds k1 = InBounds k2).
Proof.
  intros Hc Hop Hty Ho1 Ho2 Ha Hb K1 K2.
  apply isCommutative_opcodes in Hc.
  assert (E1 : createExpressionKey VNT I1
               = ({| Opcode := opcode I1;
                     OperandValueNumbers :=
                       canonicalizeOperands [va; vb] (opcode I1);
                     ResultType := ty I1;
                     Predicate := if isCmpOp (opcode I1)
                                  then predicate I1 else 0;
                     InBounds := if bool_decide (opcode I1 = GetElementPtr)
                                 then inBounds I1 else false |}, VNT)).
  { unfold createExpressionKey. rewrite Ho1. cbn [numberOperands].
    rewrite (getValueNumber_assigned _ _ _ Ha).
    now rewrite (getValueNumber_assigned _ _ _ Hb). }
  assert (E2 : createExpressionKey VNT I2
               = ({| Opcode := opcode I1;
                     OperandValueNumbers :=
                       canonicalizeOperands [vb; va] (opcode I1);
                     ResultType := ty I1;
                     Predicate := if isCmpOp (opcode I1)
                                  then predicate I2 else 0;
                     InBounds := if bool_decide (opcode I1 = GetElementPtr)
                                 then inBounds I2 else false |}, VNT)).
  { unfold createExpressionKey. rewrite Ho2, Hop, Hty. cbn [numberOperands].
    rewrite (getValueNumber_assigned _ _ _ Hb).
    now rewrite (getValueNumber_assigned _ _ _ Ha). }
  assert (Hcmp : isCmpOp (opcode I1) = false)
    by (destruct (opcode I1); try reflexivity; discriminate Hc).
  assert (Hgep : bool_decide (opcode I1 = GetElementPtr) = false)
    by (apply bool_decide_eq_false; intros E; rewrite E in Hc;
        discriminate Hc).
  subst K1 K2. rewrite E1, E2, Hcmp, Hgep. cbn [fst snd].
  cbn [Opcode OperandValueNumbers ResultType Predicate InBounds].
  rewrite (canonicalizeOperands_min_max _ va vb Hc).
  rewrite (canonicalizeOperands_min_max _ vb va Hc).
  rewrite (N.min_comm vb va), (N.max_comm vb va).
  split; [now apply ExpressionKey_eqb_eq|].
  repeat (split; [reflexivity|]).
  exact ExpressionKey_eqb_fields.
Qed.

(** [arg1 + arg0] and [arg0 + arg1], the arguments being numbered 1 and 2:
    both keys carry the operand numbers 1, 2. *)
Lemma commutative_keys_equal_witness :
  let VNT := numberArguments [0; 1]%nat in
  let I1 := Examples.instr 2 Add Examples.i32 [VArgument 1; VArgument 0] in
  let I2 := Examples.instr 3 Add Examples.i32 [VArgument 0; VArgument 1] in
  ExpressionKey_eqb (fst (createExpressionKey VNT I1))
                    (fst (createExpressionKey VNT I2)) = true
  /\ OperandValueNumbers (fst (createExpressionKey VNT I1)) = [1; 2]
  /\ OperandValueNumbers (fst (createExpressionKey VNT I2)) = [1; 2].
Proof.
  cbv zeta.
  destruct (commutative_keys_equal (numberArguments [0; 1]%nat)
              (Examples.instr 2 Add Examples.i32 [VArgument 1; VArgument 0])
              (Examples.instr 3 Add Examples.i32 [VArgument 0; VArgument 1])
              (VArgument 1) (VArgument 0) 2 1)
    as (H1 & _ & _ & H2 & H3 & _);
    try reflexivity; [now left|].
  split; [exact H1 | split; [exact H2 | exact H3]].
Defined.

End ExpressionKeys.

Section AnalysisInvariant.
Import IR RedundancyAnalysis.
Variable DT : DominatorTree.

Local Abbreviation processInstruction :=
  (RedundancyAnalysis.processInstruction DT).

Lemma findAvailableValue_Some VNT Key Q P :
  findAvailableValue VNT Key Q DT = Some P ->
  (exists bucket, ExpressionTable VNT !! Key = Some bucket /\ In P bucket)
  /\ P <> Q /\ dominates DT P Q = true.
Proof.
  unfold findAvailableValue.
  destruct (ExpressionTable VNT !! Key) as [bucket|] eqn:E; [|discriminate].
  intros H. apply find_some in H. destruct H as [Hin Hb].
  apply andb_true_iff in Hb. destruct Hb as [Hne Hdom].
  apply negb_true_iff, bool_decide_eq_false in Hne.
  split; [exists bucket; now split | now split].
Qed.

Lemma findAvailableValue_None VNT Key Q bucket c :
  findAvailableValue VNT Key Q DT = None ->
  ExpressionTable VNT !! Key = Some bucket -> In c bucket -> c <> Q ->
  dominates DT c Q = false.
Proof.
  unfold findAvailableValue. intros H E Hin Hne. rewrite E in H.
  pose proof (find_none _ _ H c Hin) as Hf. cbn in Hf.
  apply andb_false_iff in Hf. destruct Hf as [Hf|Hf]; [|exact Hf].
  apply negb_false_iff, bool_decide_eq_true in Hf. contradiction.
Qed.

Lemma inTable_addExpression VNT Key i j :
  inTable (addExpression VNT Key i) j <-> j = i \/ inTable VNT j.
Proof.
  unfold inTable, addExpression. cbn. split.
  - intros (K & bucket & E & Hin).
    destruct (decide (Key = K)) as [->|Hne].
    + rewrite lookup_insert_eq in E. injection E as <-.
      apply in_app_or in Hin. destruct Hin as [Hin|[<-|[]]]; [|now left].
      right. destruct (ExpressionTable VNT !! K) as [b|] eqn:EK;
        [|destruct Hin]. now exists K, b.
    + rewrite lookup_insert_ne in E by exact Hne. right. now exists K, bucket.
  - intros [->|(K & bucket & E & Hin)].
    + exists Key, (default [] (ExpressionTable VNT !! Key) ++ [i]).
      rewrite lookup_insert_eq. split; [reflexivity|].
      apply in_or_app. right. now left.
    + destruct (decide (Key = K)) as [->|Hne].
      * exists K, (default [] (ExpressionTable VNT !! K) ++ [i]).
        rewrite lookup_insert_eq. split; [reflexivity|].
        rewrite E. apply in_or_app. now left.
      * exists K, bucket. now rewrite lookup_insert_ne.
Qed.

Lemma inTable_same VNT VNT' i :
  ExpressionTable VNT' = ExpressionTable VNT ->
  inTable VNT' i <-> inTable VNT i.
Proof. intros E. unfold inTable. now rewrite E. Qed.

Lemma analyzableIn_app pre Inst i :
  analyzableIn pre i -> analyzableIn (pre ++ [Inst]) i.
Proof.
  intros (J & Hin & Hid & Ha). exists J. split; [|now split].
  apply in_or_app. now left.
Qed.

Lemma analyzableIn_ids pre i : analyzableIn pre i -> In i (map iid pre).
Proof. intros (J & Hin & <- & _). now apply in_map. Qed.

(** Processing one more instruction, whose identity is new, keeps the
    invariant. *)
Lemma processInstruction_inv pre st Inst :
  ~ In (iid Inst) (map iid pre) ->
  analysisInv DT pre st ->
  analysisInv DT (pre ++ [Inst]) (processInstruction st Inst).
Proof.
  intros Hnew (Ha & Hb & Hc). destruct st as [VNT RI].
  unfold RedundancyAnalysis.processInstruction. cbn [fst snd] in *.
  assert (Hnum : forall VNT',
            (forall W, is_Some (ValueNumbers VNT !! W) ->
                       is_Some (ValueNumbers VNT' !! W)) ->
            forall J, In J (pre ++ [Inst]) ->
              is_Some (ValueNumbers
                         (snd (getValueNumber VNT' (VInstruction (iid Inst))))
                       !! VInstruction (iid J))).
  { intros VNT' Hm J HJ. apply in_app_or in HJ.
    destruct HJ as [HJ|[<-|[]]].
    - apply getValueNumber_mono, Hm. now apply Hc.
    - apply getValueNumber_numbered. }
  destruct (isAnalyzable Inst) eqn:Ean; cbn [negb].
  2:{ (* not analyzable: only a value number is assigned *)
    pose proof (getValueNumber_table VNT (VInstruction (iid Inst))) as Et.
    unfold analysisInv. cbn [fst snd RedundantInstructions].
    split; [|split].
    - intros i Hi. apply (inTable_same _ _ _ Et) in Hi.
      destruct (Ha i Hi) as [A1 A2]. split; [|exact A2].
      now apply analyzableIn_app.
    - intros R P HR. destruct (Hb R P HR) as (B1 & B2 & B3 & B4).
      split; [now apply analyzableIn_app|]. split; [exact B2|].
      split; [exact B3|]. now apply (inTable_same _ _ _ Et).
    - apply Hnum. tauto. }
  pose proof (createExpressionKey_table VNT Inst) as Et.
  pose proof (createExpressionKey_mono VNT Inst) as Hm.
  destruct (createExpressionKey VNT Inst) as [Key VNT1]. cbn [snd] in Et, Hm.
  assert (Hold : forall j, inTable VNT1 j <-> inTable VNT j)
    by (intros j; now apply inTable_same).
  assert (Hself : analyzableIn (pre ++ [Inst]) (iid Inst)).
  { exists Inst. split; [|now split]. apply in_or_app. right. now left. }
  assert (Hfresh : RedundantInstructions RI !! iid Inst = None).
  { destruct (RedundantInstructions RI !! iid Inst) as [P|] eqn:E;
      [|reflexivity].
    exfalso. apply Hnew. apply analyzableIn_ids. now apply (Hb _ P). }
  destruct (findAvailableValue VNT1 Key (iid Inst) DT) as [P|] eqn:Ef.
  - (* redundant: recorded in the map, not in the table *)
    apply findAvailableValue_Some in Ef.
    destruct Ef as ((bucket & Eb & Hin) & Hne & Hdom).
    pose proof (getValueNumber_table VNT1 (VInstruction (iid Inst))) as Et1.
    assert (HP : inTable VNT1 P) by (now exists Key, bucket).
    unfold analysisInv. cbn [fst snd RedundantInstructions].
    split; [|split].
    + intros i Hi. apply (inTable_same _ _ _ Et1), Hold in Hi.
      destruct (Ha i Hi) as [A1 A2]. split; [now apply analyzableIn_app|].
      rewrite lookup_insert_ne; [exact A2|].
      intros <-. now apply Hnew, analyzableIn_ids.
    + intros R P0 HR. destruct (decide (iid Inst = R)) as [<-|Hn].
      * rewrite lookup_insert_eq in HR. injection HR as <-.
        split; [exact Hself|]. split; [exact Hne|]. split; [exact Hdom|].
        now apply (inTable_same _ _ _ Et1).
      * rewrite lookup_insert_ne in HR by exact Hn.
        destruct (Hb R P0 HR) as (B1 & B2 & B3 & B4).
        split; [now apply analyzableIn_app|]. split; [exact B2|].
        split; [exact B3|]. now apply (inTable_same _ _ _ Et1), Hold.
    + now apply Hnum.
  - (* a new expression: recorded in the table, not in the map *)
    pose proof (getValueNumber_table (addExpression VNT1 Key (iid Inst))
                  (VInstruction (iid Inst))) as Et1.
    unfold analysisInv. cbn [fst snd RedundantInstructions].
    split; [|split].
    + intros i Hi.
      apply (inTable_same _ _ _ Et1), inTable_addExpression in Hi.
      destruct Hi as [->|Hi]; [now split|].
      apply Hold in Hi. destruct (Ha i Hi) as [A1 A2].
      split; [now apply analyzableIn_app | exact A2].
    + intros R P HR. destruct (Hb R P HR) as (B1 & B2 & B3 & B4).
      split; [now apply analyzableIn_app|]. split; [exact B2|].
      split; [exact B3|].
      apply (inTable_same _ _ _ Et1), inTable_addExpression. right.
      now apply Hold.
    + now apply Hnum.
Qed.

Lemma processInstructions_inv l pre st :
  NoDup (map iid (pre ++ l)) ->
  analysisInv DT pre st ->
  analysisInv DT (pre ++ l) (fold_left processInstruction l st).
Proof.
  revert pre st. induction l as [|Inst l IH]; intros pre st Hnd Hinv.
  - now rewrite app_nil_r.
  - cbn [fold_left].
    replace (pre ++ Inst :: l) with ((pre ++ [Inst]) ++ l) in *
      by (now rewrite <- app_assoc).
    apply IH; [exact Hnd|]. apply processInstruction_inv; [|exact Hinv].
    rewrite !map_app in Hnd. cbn in Hnd. rewrite <- app_assoc in Hnd.
    apply NoDup_app in Hnd. destruct Hnd as (_ & Hdis & _).
    intros Hin. apply (Hdis (iid Inst)); [now apply list_elem_of_In|].
    now left.
Qed.

Lemma processBlocks_flat bs st :
  fold_left (processBlock DT) bs st
  = fold_left processInstruction (instructions bs) st.
Proof.
  revert st. unfold instructions.
  induction bs as [|BB bs IH]; intros st; cbn; [reflexivity|].
  now rewrite fold_left_app, IH.
Qed.

Lemma numberArguments_table Args :
  ExpressionTable (numberArguments Args) = ∅.
Proof.
  unfold numberArguments.
  apply (fold_left_invariant (fun VNT => ExpressionTable VNT = ∅));
    [reflexivity|].
  intros VNT a H _. now rewrite getValueNumber_table.
Qed.

(** The invariant holds of the result of the analysis of any function
    whose instructions are distinct objects. *)
Lemma analyze_inv Args :
  NoDup (instrIds (preorder DT)) ->
  analysisInv DT (instructions (preorder DT)) (analyze DT Args).
Proof.
  intros Hnd. unfold analyze. rewrite processBlocks_flat.
  apply (processInstructions_inv _ []); [exact Hnd|].
  unfold analysisInv. cbn [fst snd]. split; [|split].
  - intros i (K & b & E & _).
    rewrite numberArguments_table, lookup_empty in E. discriminate.
  - intros R P HR. cbn in HR. rewrite lookup_empty in HR. discriminate.
  - intros ? [].
Qed.

End AnalysisInvariant.

Section AnalysisResults.
Import IR RedundancyAnalysis.

(** Every entry of the map was written with the answer of
    [findAvailableValue] for its key. *)
Lemma processInstruction_dominance DT st Inst :
  (forall R P, RedundantInstructions (snd st) !! R = Some P ->
     P <> R /\ dominates DT P R = true) ->
  forall R P,
    RedundantInstructions (snd (processInstruction DT st Inst)) !! R = Some P
    -> P <> R /\ dominates DT P R = true.
Proof.
  intros H R P. destruct st as [VNT RI].
  unfold processInstruction. cbn [snd] in *.
  destruct (isAnalyzable Inst); cbn [negb snd RedundantInstructions];
    [|apply H].
  destruct (createExpressionKey VNT Inst) as [Key VNT1].
  destruct (findAvailableValue VNT1 Key (iid Inst) DT) as [A|] eqn:Ef;
    cbn [snd RedundantInstructions]; [|apply H].
  destruct (decide (iid Inst = R)) as [<-|Hn].
  - rewrite lookup_insert_eq. intros [= <-].
    now apply findAvailableValue_Some in Ef.
  - rewrite lookup_insert_ne by exact Hn. apply H.
Qed.

(** C2: every pair (R, P) of the map produced by [RedundancyAnalysis::run]
    has P distinct from R and [dominates(P, R)]; and whatever
    [findAvailableValue(key, I, DT)] returns is distinct from [I] and
    dominates [I]. *)
Theorem replacement_strictly_dominates (DT : DominatorTree)
  (Args : list nat) (R P : InstrId) :
  RedundantInstructions (run DT Args) !! R = Some P ->
  (P <> R /\ dominates DT P R = true)
  /\ forall VNT Key Q A,
       findAvailableValue VNT Key Q DT = Some A ->
       A <> Q /\ dominates DT A Q = true.
Proof.
  intros H. split.
  - revert R P H. unfold run, analyze.
    apply (fold_left_invariant
             (fun st => forall R P,
                RedundantInstructions (snd st) !! R = Some P ->
                P <> R /\ dominates DT P R = true)).
    + intros R P H. cbn in H. rewrite lookup_empty in H. discriminate.
    + intros st BB Hst _. unfold processBlock.
      apply fold_left_invariant; [exact Hst|].
      intros st' Inst Hst' _. now apply processInstruction_dominance.
  - intros VNT Key Q A Ef. now apply findAvailableValue_Some in Ef.
Qed.

Lemma replacement_strictly_dominates_witness :
  let DT := Examples.singleBlockDT Examples.commutativePair in
  RedundantInstructions (run DT [0; 1]%nat) !! 3%nat = Some 2%nat
  /\ 2%nat <> 3%nat /\ dominates DT 2%nat 3%nat = true.
Proof.
  cbv zeta. split; [vm_compute; reflexivity|].
  apply (replacement_strictly_dominates
           (Examples.singleBlockDT Examples.commutativePair) [0; 1]%nat
           3%nat 2%nat).
  vm_compute. reflexivity.
Defined.

Lemma isAnalyzable_true Inst :
  isAnalyzable Inst = true ->
  opcode Inst <> PHI /\ isTerminator Inst = false
  /\ opcode Inst <> Load /\ opcode Inst <> Store
  /\ opcode Inst <> Alloca
  /\ opcode Inst <> Call /\ opcode Inst <> Invoke
  /\ isVolatile Inst = false /\ isAtomic Inst = false
  /\ mayHaveSideEffects Inst = false.
Proof.
  unfold isAnalyzable.
  case_bool_decide as E1; [discriminate|].
  destruct (isTerminator Inst) eqn:E2; [discriminate|].
  destruct (mayHaveSideEffects Inst) eqn:E3; [discriminate|].
  destruct (isVolatile Inst) eqn:E4; [discriminate|].
  case_bool_decide as E5; [discriminate|].
  case_bool_decide as E6; [discriminate|]. cbn [orb].
  case_bool_decide as E7; [discriminate|].
  case_bool_decide as E8; [discriminate|].
  case_bool_decide as E9; [discriminate|]. intros _.
  repeat (split; [assumption || reflexivity|]).
  split; [|reflexivity].
  unfold mayHaveSideEffects, mayWriteToMemory in E3. unfold isAtomic.
  destruct (opcode Inst); try reflexivity; try congruence;
    discriminate E3.
Qed.

Lemma NoDup_iid_inj (l : list Instruction) I1 I2 :
  NoDup (map iid l) -> In I1 l -> In I2 l -> iid I1 = iid I2 -> I1 = I2.
Proof.
  induction l as [|J l IH]; intros Hnd H1 H2 E; [destruct H1|].
  cbn in Hnd. apply NoDup_cons in Hnd. destruct Hnd as [Hnotin Hnd].
  destruct H1 as [->|H1], H2 as [->|H2].
  - reflexivity.
  - exfalso. apply Hnotin. rewrite E. apply list_elem_of_In.
    now apply in_map.
  - exfalso. apply Hnotin. rewrite <- E. apply list_elem_of_In.
    now apply in_map.
  - now apply IH.
Qed.

(** C4: in the analysis of a function whose instructions are distinct
    objects, only analyzable instructions are recorded in the expression
    table, and an analyzable instruction is not a phi, a terminator, a
    load, a store, an alloca, a call or an invoke, is not volatile, not
    atomic, and has no side effects; an instruction that is not analyzable
    is neither a key of the redundancy map nor in the table, yet it has a
    value number.  For two volatile loads of one pointer the table and the
    map stay empty, both loads are numbered, and the elimination pass
    returns the function with both loads in place. *)
Theorem table_only_analyzable (DT : DominatorTree) (Args : list nat) :
  NoDup (instrIds (preorder DT)) ->
  (forall i, inTable (fst (analyze DT Args)) i ->
     exists Inst, In Inst (instructions (preorder DT)) /\ iid Inst = i
                  /\ isAnalyzable Inst = true)
  /\ (forall Inst, isAnalyzable Inst = true ->
        opcode Inst <> PHI /\ isTerminator Inst = false
        /\ opcode Inst <> Load /\ opcode Inst <> Store
        /\ opcode Inst <> Alloca
        /\ opcode Inst <> Call /\ opcode Inst <> Invoke
        /\ isVolatile Inst = false /\ isAtomic Inst = false
        /\ mayHaveSideEffects Inst = false)
  /\ (forall Inst, In Inst (instructions (preorder DT)) ->
        isAnalyzable Inst = false ->
        RedundantInstructions (run DT Args) !! iid Inst = None
        /\ ~ inTable (fst (analyze DT Args)) (iid Inst)
        /\ is_Some (ValueNumbers (fst (analyze DT Args))
                    !! VInstruction (iid Inst)))
  /\ (let DTv := Examples.singleBlockDT Examples.volatileLoads in
      map_to_list (ExpressionTable (fst (analyze DTv [0%nat]))) = []
      /\ map_to_list (RedundantInstructions (run DTv [0%nat])) = []
      /\ lookupValueNumber (fst (analyze DTv [0%nat])) (VInstruction 1) = 2
      /\ lookupValueNumber (fst (analyze DTv [0%nat])) (VInstruction 2) = 3
      /\ forall order, RedundancyElimination.visitsOnce order ->
           RedundancyElimination.run order Examples.volatileLoads [0%nat] DTv
           = (Examples.volatileLoads, PreservedAll)).
Proof.
  intros Hnd. destruct (analyze_inv DT Args Hnd) as (Ha & Hb & Hc).
  split; [|split; [|split]].
  - intros i Hi. now apply Ha.
  - exact isAnalyzable_true.
  - intros Inst Hin Hna.
    assert (Hother : ~ analyzableIn (instructions (preorder DT)) (iid Inst)).
    { intros (J & HJ & Hid & HaJ).
      rewrite (NoDup_iid_inj _ J Inst Hnd HJ Hin Hid) in HaJ. congruence. }
    split; [|split].
    + unfold run.
      destruct (RedundantInstructions (snd (analyze DT Args)) !! iid Inst)
        as [P|] eqn:E; [|reflexivity].
      exfalso. apply Hother. now apply (Hb _ P).
    + intros Hi. apply Hother. now apply Ha.
    + now apply Hc.
  - cbv zeta.
    assert (Hmap : map_to_list
                     (RedundantInstructions
                        (run (Examples.singleBlockDT Examples.volatileLoads)
                             [0%nat])) = [])
      by (vm_compute; reflexivity).
    split; [vm_compute; reflexivity|]. split; [exact Hmap|].
    split; [vm_compute; reflexivity|]. split; [vm_compute; reflexivity|].
    intros order Ho. unfold RedundancyElimination.run.
    pose proof (Ho (RedundantInstructions
                      (run (Examples.singleBlockDT Examples.volatileLoads)
                           [0%nat]))) as Hp.
    rewrite Hmap in Hp. apply Permutation_nil_r in Hp. rewrite Hp.
    reflexivity.
Qed.

Lemma table_only_analyzable_witness :
  let DT := Examples.singleBlockDT Examples.commutativePair in
  exists Inst, In Inst (instructions (preorder DT)) /\ iid Inst = 2%nat
               /\ isAnalyzable Inst = true.
Proof.
  cbv zeta.
  apply (table_only_analyzable
           (Examples.singleBlockDT Examples.commutativePair) [0; 1]%nat).
  - vm_compute. repeat constructor; intros H;
      repeat (apply elem_of_cons in H; destruct H as [H|H];
              [discriminate H|]);
      now apply elem_of_nil in H.
  - exists {| Opcode := Add; OperandValueNumbers := [1; 2];
              ResultType := Examples.i32; Predicate := 0;
              InBounds := false |}, [2%nat].
    split; [vm_compute; reflexivity | now left].
Defined.

(** C10: in the map computed for a function whose instructions are
    distinct objects, no replacement value is itself a key, and no key is
    recorded in the expression table: replacement chains do not occur. *)
Theorem no_replacement_chains (DT : DominatorTree) (Args : list nat)
  (R P : InstrId) :
  NoDup (instrIds (preorder DT)) ->
  RedundantInstructions (run DT Args) !! R = Some P ->
  RedundantInstructions (run DT Args) !! P = None
  /\ ~ inTable (fst (analyze DT Args)) R
  /\ inTable (fst (analyze DT Args)) P.
Proof.
  intros Hnd H. destruct (analyze_inv DT Args Hnd) as (Ha & Hb & _).
  unfold run in *. destruct (Hb R P H) as (_ & _ & _ & HP).
  split; [now apply Ha|]. split; [|exact HP].
  intros HR. destruct (Ha R HR) as [_ E]. congruence.
Qed.

Lemma no_replacement_chains_witness :
  let DT := Examples.singleBlockDT Examples.commutativePair in
  RedundantInstructions (run DT [0; 1]%nat) !! 2%nat = None
  /\ ~ inTable (fst (analyze DT [0; 1]%nat)) 3%nat
  /\ inTable (fst (analyze DT [0; 1]%nat)) 2%nat.
Proof.
  cbv zeta.
  apply (no_replacement_chains
           (Examples.singleBlockDT Examples.commutativePair) [0; 1]%nat
           3%nat 2%nat).
  - vm_compute. repeat constructor; intros H;
      repeat (apply elem_of_cons in H; destruct H as [H|H];
              [discriminate H|]);
      now apply elem_of_nil in H.
  - vm_compute. reflexivity.
Defined.

End AnalysisResults.

(** ** Redundancy eliminator *)

Section Eliminator.
Import IR RedundancyElimination.

Lemma find_map_iid (f : Instruction -> Instruction) l i :
  (forall Inst, iid (f Inst) = iid Inst) ->
  find (fun Inst => bool_decide (iid Inst = i)) (map f l)
  = option_map f (find (fun Inst => bool_decide (iid Inst = i)) l).
Proof.
  intros Hf. induction l as [|J l IH]; [reflexivity|]. cbn.
  rewrite Hf. destruct (bool_decide (iid J = i)); [reflexivity | exact IH].
Qed.

Lemma getType_replaceAllUsesWith F Old New i :
  getType (replaceAllUsesWith F Old New) i = getType F i.
Proof.
  unfold getType, findInstr. rewrite instructions_replaceAllUsesWith.
  rewrite find_map_iid by reflexivity.
  now destruct (find _ (instructions F)).
Qed.

Lemma eliminateStep_getType st entry i :
  getType (body (eliminateStep st entry)) i = getType (body st) i.
Proof.
  unfold eliminateStep. destruct entry as [[r|] [p|]]; try reflexivity.
  case_bool_decide; [reflexivity|]. apply getType_replaceAllUsesWith.
Qed.

(** One step of the loop, in terms of [matchedEntry]. *)
Lemma eliminateStep_matched F st entry :
  (forall i, getType (body st) i = getType F i) ->
  eliminateStep st entry =
    match matchedEntry F entry with
    | Some (r, p) =>
        {| body := replaceAllUsesWith (body st) r (VInstruction p);
           ToDelete := ToDelete st ++ [r];
           InstructionsEliminated :=
             wrap32 (InstructionsEliminated st + 1) |}
    | None => st
    end.
Proof.
  intros Ht. unfold eliminateStep, matchedEntry.
  destruct entry as [[r|] [p|]]; try reflexivity.
  rewrite !Ht. now case_bool_decide.
Qed.

Lemma mapInstrs_compose f g F :
  mapInstrs g (mapInstrs f F) = mapInstrs (fun Inst => g (f Inst)) F.
Proof.
  unfold mapInstrs. rewrite map_map. apply map_ext. intros BB. cbn.
  now rewrite map_map.
Qed.

Lemma mapInstrs_ext f g F :
  (forall Inst, f Inst = g Inst) -> mapInstrs f F = mapInstrs g F.
Proof.
  intros H. unfold mapInstrs. apply map_ext. intros BB. f_equal.
  now apply map_ext.
Qed.

Lemma mapInstrs_id F :
  mapInstrs (redirectOperands ∅) F = F.
Proof.
  unfold mapInstrs. rewrite <- (map_id F) at 2. apply map_ext.
  intros [b is_]. cbn. f_equal. rewrite <- (map_id is_) at 2.
  apply map_ext. intros Inst. unfold redirectOperands.
  replace (map (redirect ∅) (operands Inst)) with (operands Inst);
    [now destruct Inst|].
  rewrite <- (map_id (operands Inst)) at 1. apply map_ext.
  intros [| |i|]; reflexivity || (cbn; now rewrite lookup_empty).
Qed.

(** Redirecting the uses of [r] to [p] and then those of [M] is
    redirecting those of [M] extended with [r := p], as long as [p] is not
    itself replaced by [M]. *)
Lemma redirect_insert (M : gmap InstrId InstrId) r p v :
  M !! p = None ->
  redirect M (replaceUse (VInstruction r) (VInstruction p) v)
  = redirect (<[r := p]> M) v.
Proof.
  intros Hp. unfold replaceUse. case_bool_decide as E.
  - subst v. cbn. now rewrite Hp, lookup_insert_eq.
  - destruct v as [| |i|]; try reflexivity. cbn.
    rewrite lookup_insert_ne; [reflexivity|]. intros <-. now apply E.
Qed.

(** The loop over the map, in closed form: the body has every use
    redirected at once, and the keys of the entries acted upon are
    scheduled in the order of the iteration. *)
Lemma eliminate_fold_closed_form F entries st :
  (forall i, getType (body st) i = getType F i) ->
  let ML := omap (matchedEntry F) entries in
  NoDup (ML.*1) -> chainFree ML ->
  let st' := fold_left eliminateStep entries st in
  body st' = mapInstrs (redirectOperands (list_to_map ML)) (body st)
  /\ ToDelete st' = ToDelete st ++ ML.*1
  /\ InstructionsEliminated st'
     = Nat.iter (length ML) (fun c => wrap32 (c + 1))
                (InstructionsEliminated st).
Proof.
  revert st. induction entries as [|e entries IH]; intros st Ht ML Hnd Hcf.
  - cbn. rewrite mapInstrs_id, app_nil_r. tauto.
  - cbn [fold_left]. rewrite (eliminateStep_matched F st e Ht).
    subst ML. cbn [omap list_omap] in *.
    destruct (matchedEntry F e) as [[r p]|] eqn:Em.
    2:{ now apply IH. }
    cbn [fmap list_fmap fst] in Hnd. apply NoDup_cons in Hnd.
    destruct Hnd as [Hr Hnd].
    set (ML' := omap (matchedEntry F) entries) in *.
    assert (Hcf' : chainFree ML').
    { intros r' p' Hin Hp. apply (Hcf r' p'); [now right|].
      cbn. now right. }
    assert (Hp : (list_to_map ML' : gmap InstrId InstrId) !! p = None).
    { apply not_elem_of_list_to_map_1. intros Hin.
      apply (Hcf r p); [now left|]. cbn. right.
      apply list_elem_of_In in Hin. exact Hin. }
    match goal with |- context [fold_left _ _ ?s] => set (st1 := s) end.
    destruct (IH st1) as (Hb & Hd & Hn); [|exact Hnd|exact Hcf'|].
    { intros i. subst st1. cbn [body].
      rewrite getType_replaceAllUsesWith. apply Ht. }
    fold ML' in Hb, Hd, Hn. rewrite Hb, Hd, Hn. subst st1. cbn [body
      ToDelete InstructionsEliminated]. split; [|split].
    + unfold replaceAllUsesWith. rewrite mapInstrs_compose.
      apply mapInstrs_ext. intros Inst. unfold redirectOperands, setOperands.
      cbn [operands iid opcode ty predicate inBounds volatileFlag ordering
           callInfo unwinds].
      f_equal. rewrite map_map. apply map_ext. intros v.
      rewrite list_to_map_cons. now apply redirect_insert.
    + cbn. now rewrite <- app_assoc.
    + cbn [length]. now rewrite Nat.iter_succ_r.
Qed.

(** Erasing a list of instructions, in closed form. *)
Lemma erase_all_closed_form l F :
  fold_left eraseFromParent l F
  = map (fun BB => {| bid := bid BB;
                      instrs := filter (fun Inst => iid Inst ∉ l)
                                       (instrs BB) |}) F.
Proof.
  revert F. induction l as [|i l IH]; intros F; cbn [fold_left].
  - rewrite <- (map_id F) at 1. apply map_ext. intros [b is_]. cbn.
    f_equal. induction is_ as [|J is_ IHi]; [reflexivity|].
    rewrite filter_cons. destruct (decide (iid J ∉ [])) as [_|H].
    + now rewrite <- IHi.
    + exfalso. apply H, not_elem_of_nil.
  - rewrite IH. unfold eraseFromParent. rewrite map_map. apply map_ext.
    intros [b is_]. cbn. f_equal.
    induction is_ as [|J is_ IHi]; [reflexivity|].
    rewrite (filter_cons (fun Inst => iid Inst <> i)),
            (filter_cons (fun Inst => iid Inst ∉ i :: l)).
    destruct (decide (iid J <> i)) as [Hne|Heq].
    + rewrite filter_cons.
      destruct (decide (iid J ∉ l)) as [Hl|Hl];
        destruct (decide (iid J ∉ i :: l)) as [Hil|Hil].
      * now rewrite IHi.
      * exfalso. apply Hil. rewrite not_elem_of_cons. now split.
      * exfalso. apply Hl. rewrite not_elem_of_cons in Hil. tauto.
      * exact IHi.
    + destruct (decide (iid J ∉ i :: l)) as [Hil|Hil]; [|exact IHi].
      exfalso. rewrite not_elem_of_cons in Hil. tauto.
Qed.

Lemma erase_all_Permutation l1 l2 F :
  l1 ≡ₚ l2 ->
  fold_left eraseFromParent l1 F = fold_left eraseFromParent l2 F.
Proof.
  intros Hp. rewrite !erase_all_closed_form. apply map_ext. intros BB.
  f_equal. apply list_filter_iff. intros Inst. now rewrite Hp.
Qed.

Lemma eliminateStep_ids st entry :
  instrIds (body (eliminateStep st entry)) = instrIds (body st).
Proof.
  unfold eliminateStep. destruct entry as [[r|] [p|]]; try reflexivity.
  case_bool_decide; [reflexivity|]. apply instrIds_replaceAllUsesWith.
Qed.

Lemma eliminate_fold_ids entries st :
  instrIds (body (fold_left eliminateStep entries st)) = instrIds (body st).
Proof.
  apply (fold_left_invariant
           (fun s => instrIds (body s) = instrIds (body st)));
    [reflexivity|].
  intros s e Hs _. now rewrite eliminateStep_ids.
Qed.

Lemma eliminate_fold_getType entries st i :
  getType (body (fold_left eliminateStep entries st)) i = getType (body st) i.
Proof.
  apply (fold_left_invariant
           (fun s => getType (body s) i = getType (body st) i));
    [reflexivity|].
  intros s e Hs _. now rewrite eliminateStep_getType.
Qed.

(** The instructions scheduled for erasure are the keys of the entries
    acted upon, in iteration order. *)
Lemma eliminate_fold_ToDelete F entries st :
  (forall i, getType (body st) i = getType F i) ->
  ToDelete (fold_left eliminateStep entries st)
  = ToDelete st ++ (omap (matchedEntry F) entries).*1.
Proof.
  revert st. induction entries as [|e entries IH]; intros st Ht.
  - cbn. now rewrite app_nil_r.
  - cbn [fold_left]. rewrite IH.
    + rewrite (eliminateStep_matched F st e Ht). cbn [omap list_omap].
      destruct (matchedEntry F e) as [[r p]|]; [|reflexivity].
      cbn. now rewrite <- app_assoc.
    + intros i. rewrite eliminateStep_getType. apply Ht.
Qed.

Lemma matchedEntry_Some F e r p :
  matchedEntry F e = Some (r, p) ->
  e = (Some r, Some p) /\ getType F r = getType F p.
Proof.
  unfold matchedEntry. destruct e as [[r'|] [p'|]]; try discriminate.
  case_bool_decide as E; [discriminate|]. intros [= -> ->].
  split; [reflexivity|]. destruct (decide (getType F r = getType F p));
    [assumption | contradiction].
Qed.

Lemma matchedEntry_eq F r p :
  getType F r = getType F p -> matchedEntry F (Some r, Some p) = Some (r, p).
Proof.
  intros E. unfold matchedEntry. case_bool_decide; [congruence|reflexivity].
Qed.

Lemma matchedEntry_ne F r p :
  getType F r <> getType F p -> matchedEntry F (Some r, Some p) = None.
Proof.
  intros E. unfold matchedEntry. case_bool_decide; [reflexivity|congruence].
Qed.

Lemma In_matched_keys F entries r :
  In r ((omap (matchedEntry F) entries).*1) <->
  exists p, In (Some r, Some p) entries /\ getType F r = getType F p.
Proof.
  induction entries as [|e entries IH]; cbn [omap list_omap].
  - split; [intros [] | intros (? & [] & _)].
  - destruct (matchedEntry F e) as [[r' p']|] eqn:Em.
    + apply matchedEntry_Some in Em. destruct Em as [-> Ety].
      cbn [fmap list_fmap fst]. split.
      * intros [<-|Hin]; [exists p'; split; [now left | exact Ety]|].
        apply IH in Hin. destruct Hin as (p & Hin & E).
        exists p. split; [now right | exact E].
      * intros (p & [[= <- <-]|Hin] & E); [now left|].
        right. apply IH. now exists p.
    + rewrite IH. split.
      * intros (p & Hin & E). exists p. split; [now right | exact E].
      * intros (p & [->|Hin] & E); [|now exists p].
        rewrite (matchedEntry_eq F r p E) in Em. discriminate.
Qed.

Lemma NoDup_fst_unique {K V} (l : list (K * V)) k v1 v2 :
  NoDup (l.*1) -> In (k, v1) l -> In (k, v2) l -> v1 = v2.
Proof.
  induction l as [|[k' v'] l IH]; intros Hnd H1 H2; [destruct H1|].
  cbn in Hnd. apply NoDup_cons in Hnd. destruct Hnd as [Hk Hnd].
  assert (Hfst : forall v, In (k', v) l -> False).
  { intros v Hin. apply Hk. apply list_elem_of_In.
    change k' with (fst (k', v)). now apply in_map. }
  destruct H1 as [E1|H1]; destruct H2 as [E2|H2].
  - congruence.
  - injection E1 as -> _. now destruct (Hfst v2).
  - injection E2 as -> _. now destruct (Hfst v1).
  - now apply IH.
Qed.

Lemma matched_NoDup F entries :
  NoDup (entries.*1) -> NoDup ((omap (matchedEntry F) entries).*1).
Proof.
  induction entries as [|e entries IH]; intros Hnd; [constructor|].
  cbn in Hnd. apply NoDup_cons in Hnd. destruct Hnd as [He Hnd].
  cbn [omap list_omap].
  destruct (matchedEntry F e) as [[r p]|] eqn:Em; [|now apply IH].
  apply matchedEntry_Some in Em. destruct Em as [-> _]. cbn [fst] in He.
  cbn. apply NoDup_cons. split; [|now apply IH].
  intros Hin. apply He. apply list_elem_of_In in Hin.
  apply In_matched_keys in Hin. destruct Hin as (p' & Hp' & _).
  apply list_elem_of_In. change (Some r) with (fst (Some r, Some p')).
  now apply in_map.
Qed.

Lemma instructions_erase_all l G :
  instructions (fold_left eraseFromParent l G)
  = filter (fun Inst => iid Inst ∉ l) (instructions G).
Proof.
  rewrite erase_all_closed_form. unfold instructions.
  induction G as [|BB G IH]; [reflexivity|].
  cbn. now rewrite IH, filter_app.
Qed.

Lemma eliminateRedundancies_nonempty F entries n :
  entries <> [] ->
  eliminateRedundancies F entries n
  = (fold_left eraseFromParent
       (ToDelete (fold_left eliminateStep entries (elimStart F n)))
       (body (fold_left eliminateStep entries (elimStart F n))),
     negb (bool_decide
             (ToDelete (fold_left eliminateStep entries (elimStart F n))
              = [])),
     InstructionsEliminated (fold_left eliminateStep entries (elimStart F n))).
Proof. destruct entries; [congruence | reflexivity]. Qed.

(** The function and the result flag in terms of the set of erased
    instructions. *)
Lemma eliminateRedundancies_ids F entries n :
  instrIds (fst (fst (eliminateRedundancies F entries n)))
  = filter (fun j => j ∉ (omap (matchedEntry F) entries).*1) (instrIds F)
  /\ snd (fst (eliminateRedundancies F entries n))
     = negb (bool_decide ((omap (matchedEntry F) entries).*1 = [])).
Proof.
  destruct entries as [|e entries].
  - unfold eliminateRedundancies.
    cbn [fst snd omap list_omap fmap list_fmap]. split; [|reflexivity].
    induction (instrIds F) as [|j js IHj]; [reflexivity|].
    rewrite filter_cons. destruct (decide (j ∉ [])) as [_|H].
    + now rewrite <- IHj.
    + exfalso. apply H, not_elem_of_nil.
  - rewrite eliminateRedundancies_nonempty by discriminate. cbn [fst snd].
    rewrite instrIds_erase_all, eliminate_fold_ids.
    rewrite (eliminate_fold_ToDelete F) by reflexivity. cbn [elimStart
      body ToDelete app]. tauto.
Qed.

(** C8: for every pair (R, P) of the map, visited after the entries [pre]
    and before the entries [post].  If the result types agree, visiting the
    pair redirects every use of R to P (no operand R is left when P is not
    R itself), no instruction leaves the function while the map is being
    visited, and R is gone from the result.  If the types differ, visiting
    the pair changes nothing and R is still in the result.  The flag
    returned is true iff some instruction of the function was erased.  When
    no replacement is itself replaced (as in every map the analysis
    produces), the result is the function with every operand redirected
    through the pairs acted upon and the redundant instructions removed. *)
Theorem eliminateRedundancies_pairs (F : Function)
  (pre post : list (InstPtr * InstPtr)) (R P : InstrId) (n : N) :
  let entries := pre ++ (Some R, Some P) :: post in
  NoDup (entries.*1) ->
  (forall r p, In (Some r, p) entries -> In r (instrIds F)) ->
  let before := fold_left eliminateStep pre (elimStart F n) in
  let after := eliminateStep before (Some R, Some P) in
  let visited := fold_left eliminateStep entries (elimStart F n) in
  let result := eliminateRedundancies F entries n in
  (getType F R = getType F P ->
     body after = replaceAllUsesWith (body before) R (VInstruction P)
     /\ (P <> R ->
         forall Inst, In Inst (instructions (body after)) ->
           ~ In (VInstruction R) (operands Inst))
     /\ instrIds (body visited) = instrIds F
     /\ ~ In R (instrIds (fst (fst result))))
  /\ (getType F R <> getType F P ->
      after = before /\ In R (instrIds (fst (fst result))))
  /\ (snd (fst result) = true <->
      exists i, In i (instrIds F) /\ ~ In i (instrIds (fst (fst result))))
  /\ (let acted := omap (matchedEntry F) entries in
      chainFree acted ->
      instructions (fst (fst result))
        = filter (fun Inst => iid Inst ∉ acted.*1)
                 (map (redirectOperands (list_to_map acted))
                      (instructions F))
      /\ (getType F R = getType F P ->
          redirect (list_to_map acted) (VInstruction R) = VInstruction P)).
Proof.
  intros entries Hnd Hkeys before after visited result.
  assert (Hin : In (Some R, Some P) entries)
    by (apply in_or_app; right; now left).
  assert (Htb : forall i, getType (body before) i = getType F i)
    by (intros i; apply eliminate_fold_getType).
  destruct (eliminateRedundancies_ids F entries n) as [Hids Hflag].
  fold result in Hids, Hflag.
  split; [|split; [|split]].
  4:{ intros acted Hcf. pose proof (matched_NoDup F entries Hnd) as HndM.
      fold acted in HndM. split.
      - subst result. rewrite eliminateRedundancies_nonempty
          by (unfold entries; now destruct pre).
        cbn [fst].
        destruct (eliminate_fold_closed_form F entries (elimStart F n))
          as (Hb & Hd & _); [reflexivity | exact HndM | exact Hcf |].
        rewrite Hb, Hd. cbn [elimStart body ToDelete app].
        now rewrite instructions_erase_all, instructions_mapInstrs.
      - intros Ety. cbn [redirect].
        rewrite (elem_of_list_to_map_1 acted R P HndM); [reflexivity|].
        apply list_elem_of_In. unfold acted.
        clear -Hin Ety. induction entries as [|e es IH]; [destruct Hin|].
        cbn [omap list_omap]. destruct Hin as [->|Hin].
        + rewrite (matchedEntry_eq F R P Ety). now left.
        + destruct (matchedEntry F e); [right|]; now apply IH. }
  - intros Ety.
    pose proof (matchedEntry_eq F R P Ety) as Em.
    assert (Ha : body after
                 = replaceAllUsesWith (body before) R (VInstruction P)).
    { subst after. rewrite (eliminateStep_matched F _ _ Htb), Em.
      reflexivity. }
    split; [exact Ha|]. split; [|split].
    + intros Hne Inst HI Huse. rewrite Ha in HI.
      rewrite instructions_replaceAllUsesWith in HI.
      apply in_map_iff in HI. destruct HI as (J & <- & _).
      cbn in Huse. apply in_map_iff in Huse.
      destruct Huse as (v & Hv & _). unfold replaceUse in Hv.
      case_bool_decide; congruence.
    + apply eliminate_fold_ids.
    + rewrite Hids. intros Hr. apply list_elem_of_In in Hr.
      apply list_elem_of_filter in Hr. destruct Hr as [Hr _]. apply Hr.
      apply list_elem_of_In, In_matched_keys. now exists P.
  - intros Ety. split.
    + subst after. rewrite (eliminateStep_matched F _ _ Htb).
      now rewrite (matchedEntry_ne F R P Ety).
    + rewrite Hids. apply list_elem_of_In, list_elem_of_filter. split.
      * intros Hr. apply list_elem_of_In, In_matched_keys in Hr.
        destruct Hr as (p & Hp & E).
        assert (Some p = Some P)
          by exact (NoDup_fst_unique entries (Some R) _ _ Hnd Hp Hin).
        congruence.
      * apply list_elem_of_In. now apply (Hkeys R (Some P)).
  - rewrite Hflag, negb_true_iff, bool_decide_eq_false. split.
    + destruct ((omap (matchedEntry F) entries).*1) as [|r rs] eqn:E;
        [congruence|]. intros _. exists r.
      assert (Hr : In r ((omap (matchedEntry F) entries).*1))
        by (rewrite E; now left).
      split.
      * apply In_matched_keys in Hr. destruct Hr as (p & Hp & _).
        now apply (Hkeys r (Some p)).
      * rewrite Hids. intros Hf. apply list_elem_of_In in Hf.
        apply list_elem_of_filter in Hf. destruct Hf as [Hf _]. apply Hf.
        apply list_elem_of_In. now left.
    + intros (i & Hi & Hno) E. apply Hno. rewrite Hids, E.
      apply list_elem_of_In, list_elem_of_filter. split.
      * apply not_elem_of_nil.
      * now apply list_elem_of_In.
Qed.

Lemma eliminateRedundancies_pairs_witness :
  let result :=
    eliminateRedundancies Examples.commutativePair
      [(Some 3%nat, Some 2%nat)] 0 in
  ~ In 3%nat (instrIds (fst (fst result)))
  /\ In 2%nat (instrIds (fst (fst result)))
  /\ snd (fst result) = true.
Proof.
  cbv zeta.
  destruct (eliminateRedundancies_pairs Examples.commutativePair [] []
              3%nat 2%nat 0) as (H1 & _ & H3).
  - cbn. apply NoDup_singleton.
  - intros r p [[= <- <-]|[]]. vm_compute. tauto.
  - split; [now apply H1|]. split; [vm_compute; tauto | reflexivity].
Defined.

Lemma chainFree_Permutation l1 l2 :
  l1 ≡ₚ l2 -> chainFree l1 -> chainFree l2.
Proof.
  intros Hp Hcf r p Hin Hk.
  apply (Hcf r p).
  - apply list_elem_of_In. rewrite Hp. now apply list_elem_of_In.
  - apply list_elem_of_In. rewrite Hp. now apply list_elem_of_In.
Qed.

(** The result of the eliminator does not depend on the order in which the
    map is visited, provided the entries acted upon have distinct keys and
    no replacement is itself replaced. *)
Lemma eliminateRedundancies_order_independent F l1 l2 n :
  l1 ≡ₚ l2 ->
  NoDup ((omap (matchedEntry F) l1).*1) ->
  chainFree (omap (matchedEntry F) l1) ->
  eliminateRedundancies F l1 n = eliminateRedundancies F l2 n.
Proof.
  intros Hp Hnd Hcf.
  destruct l1 as [|e1 l1].
  { apply Permutation_nil in Hp. now subst. }
  destruct l2 as [|e2 l2].
  { symmetry in Hp. apply Permutation_nil in Hp. discriminate. }
  rewrite !eliminateRedundancies_nonempty by discriminate.
  assert (HpM : omap (matchedEntry F) (e1 :: l1)
                ≡ₚ omap (matchedEntry F) (e2 :: l2))
    by (now apply omap_Permutation).
  assert (HpK : (omap (matchedEntry F) (e1 :: l1)).*1
                ≡ₚ (omap (matchedEntry F) (e2 :: l2)).*1)
    by (now apply fmap_Permutation).
  assert (Hnd2 : NoDup ((omap (matchedEntry F) (e2 :: l2)).*1))
    by (now rewrite <- HpK).
  pose proof (chainFree_Permutation _ _ HpM Hcf) as Hcf2.
  destruct (eliminate_fold_closed_form F (e1 :: l1) (elimStart F n))
    as (Hb1 & Hd1 & Hn1); [reflexivity | exact Hnd | exact Hcf |].
  destruct (eliminate_fold_closed_form F (e2 :: l2) (elimStart F n))
    as (Hb2 & Hd2 & Hn2); [reflexivity | exact Hnd2 | exact Hcf2 |].
  rewrite Hb1, Hb2, Hd1, Hd2, Hn1, Hn2. cbn [elimStart body ToDelete
    InstructionsEliminated app].
  rewrite (list_to_map_proper _ _ Hnd HpM).
  rewrite (erase_all_Permutation _ _ _ HpK).
  rewrite (Permutation_length HpM).
  f_equal. f_equal. f_equal.
  destruct ((omap (matchedEntry F) (e1 :: l1)).*1) as [|x xs],
           ((omap (matchedEntry F) (e2 :: l2)).*1) as [|y ys];
    try reflexivity.
  - apply Permutation_nil in HpK. discriminate.
  - symmetry in HpK. apply Permutation_nil in HpK. discriminate.
Qed.

Lemma matchedEntry_entriesOf F r p :
  matchedEntry F (Some r, Some p)
  = if bool_decide (getType F r <> getType F p) then None else Some (r, p).
Proof. reflexivity. Qed.

Lemma matched_entriesOf_sub F l x :
  In x (omap (matchedEntry F) (entriesOf l)) -> In x l.
Proof.
  induction l as [|[r p] l IH]; [intros []|].
  cbn [entriesOf map omap list_omap fst snd].
  rewrite matchedEntry_entriesOf. case_bool_decide.
  - intros H'. right. now apply IH.
  - intros [<-|H']; [now left | right; now apply IH].
Qed.

Lemma matched_entriesOf_NoDup F l :
  NoDup (l.*1) -> NoDup ((omap (matchedEntry F) (entriesOf l)).*1).
Proof.
  induction l as [|[r p] l IH]; intros Hnd; [constructor|].
  cbn in Hnd. apply NoDup_cons in Hnd. destruct Hnd as [Hr Hnd].
  cbn [entriesOf map omap list_omap fst snd].
  rewrite matchedEntry_entriesOf. case_bool_decide; [now apply IH|].
  cbn. apply NoDup_cons. split; [|now apply IH].
  intros Hin. apply Hr. apply list_elem_of_In in Hin.
  apply in_map_iff in Hin. destruct Hin as ([r' p'] & <- & Hin).
  apply matched_entriesOf_sub in Hin. apply list_elem_of_In.
  change r' with (fst (r', p')). now apply in_map.
Qed.

End Eliminator.

(** ** Determinism of redundancy elimination *)

Section Determinism.
Import IR RedundancyAnalysis.
Variable DT : DominatorTree.

Local Abbreviation processInstruction :=
  (RedundancyAnalysis.processInstruction DT).

Lemma analyzableIds_app l1 l2 :
  analyzableIds (l1 ++ l2) = analyzableIds l1 ++ analyzableIds l2.
Proof. unfold analyzableIds. now rewrite List.filter_app, map_app. Qed.

Lemma analyzableIds_cons Inst l :
  isAnalyzable Inst = true ->
  analyzableIds (Inst :: l) = iid Inst :: analyzableIds l.
Proof. intros H. unfold analyzableIds. cbn. now rewrite H. Qed.

Lemma analyzableIds_In l Inst :
  In Inst l -> isAnalyzable Inst = true -> In (iid Inst) (analyzableIds l).
Proof.
  intros Hin Ha. unfold analyzableIds. apply in_map.
  apply List.filter_In. now split.
Qed.

Lemma treeLike_spec ids a b c :
  treeLike DT ids = true -> In a ids -> In b ids -> In c ids ->
  dominates DT a c = true -> dominates DT b c = true ->
  a = b \/ dominates DT a b = true \/ dominates DT b a = true.
Proof.
  unfold treeLike. intros H Ha Hb Hc Hac Hbc.
  rewrite forallb_forall in H. specialize (H c Hc).
  rewrite forallb_forall in H. specialize (H a Ha).
  rewrite forallb_forall in H. specialize (H b Hb).
  rewrite Hac, Hbc in H. cbn in H.
  apply orb_true_iff in H. destruct H as [H|H]; [|tauto].
  apply orb_true_iff in H. destruct H as [H|H]; [|tauto].
  left. now apply bool_decide_eq_true in H.
Qed.

Lemma dominatorsFirst_spec l1 x l2 a :
  dominatorsFirst DT (l1 ++ x :: l2) = true -> In a (x :: l2) ->
  dominates DT a x = false.
Proof.
  induction l1 as [|y l1 IH]; intros H Ha.
  - cbn [app dominatorsFirst] in H. apply andb_true_iff in H.
    destruct H as [H _]. rewrite forallb_forall in H.
    now apply negb_true_iff, H.
  - cbn [app dominatorsFirst] in H. apply andb_true_iff in H.
    destruct H as [_ H]. now apply IH.
Qed.

Lemma bucketInv_same VNT VNT' :
  ExpressionTable VNT' = ExpressionTable VNT ->
  bucketInv DT VNT -> bucketInv DT VNT'.
Proof. intros E H. unfold bucketInv. now rewrite E. Qed.

Lemma processInstruction_bucketInv pre Inst post st :
  dominatorsFirst DT (analyzableIds (pre ++ Inst :: post)) = true ->
  analysisInv DT pre st ->
  bucketInv DT (fst st) ->
  bucketInv DT (fst (processInstruction st Inst)).
Proof.
  intros Hdf (Ha & _ & _) Hbi. destruct st as [VNT RI].
  unfold RedundancyAnalysis.processInstruction. cbn [fst snd] in *.
  destruct (isAnalyzable Inst) eqn:Ean; cbn [negb fst].
  2:{ apply (bucketInv_same VNT); [apply getValueNumber_table | exact Hbi]. }
  pose proof (createExpressionKey_table VNT Inst) as Et.
  destruct (createExpressionKey VNT Inst) as [Key VNT1]. cbn [snd] in Et.
  destruct (findAvailableValue VNT1 Key (iid Inst) DT) as [P|] eqn:Ef;
    cbn [fst].
  { apply (bucketInv_same VNT); [|exact Hbi].
    now rewrite getValueNumber_table. }
  apply (bucketInv_same (addExpression VNT1 Key (iid Inst)));
    [apply getValueNumber_table|].
  (* an earlier instruction is not dominated by the new one *)
  assert (Hlate : forall c, inTable VNT c -> dominates DT (iid Inst) c = false).
  { intros c Hc. destruct (Ha c Hc) as [(C & HC & <- & HaC) _].
    apply in_split in HC. destruct HC as (p1 & p2 & ->).
    rewrite <- app_assoc in Hdf. cbn [app] in Hdf.
    rewrite analyzableIds_app, (analyzableIds_cons C _ HaC) in Hdf.
    apply (dominatorsFirst_spec _ _ _ (iid Inst) Hdf).
    right. rewrite analyzableIds_app, (analyzableIds_cons Inst _ Ean).
    apply in_or_app. right. now left. }
  intros K bucket c1 c2 E H1 H2 Hne. unfold addExpression in E. cbn in E.
  destruct (decide (Key = K)) as [->|HK].
  2:{ rewrite lookup_insert_ne in E by exact HK. rewrite Et in E.
      now apply (Hbi K bucket). }
  rewrite lookup_insert_eq in E. injection E as <-.
  assert (Hold : forall c, In c (default [] (ExpressionTable VNT1 !! K)) ->
                   exists b, ExpressionTable VNT !! K = Some b /\ In c b).
  { intros c Hc. rewrite Et in Hc.
    destruct (ExpressionTable VNT !! K) as [b|]; [|destruct Hc].
    now exists b. }
  apply in_app_or in H1. apply in_app_or in H2.
  destruct H1 as [H1|[<-|[]]], H2 as [H2|[<-|[]]].
  - destruct (Hold _ H1) as (b & Eb & Hb1).
    destruct (Hold _ H2) as (b' & Eb' & Hb2).
    assert (b' = b) by congruence. subst b'.
    now apply (Hbi K b).
  - destruct (Hold _ H1) as (b & Eb & Hb1).
    apply (findAvailableValue_None DT VNT1 K (iid Inst) b c1 Ef);
      [now rewrite Et | exact Hb1 | exact Hne].
  - destruct (Hold _ H2) as (b & Eb & Hb2).
    apply Hlate. now exists K, b.
  - congruence.
Qed.

Lemma stateAfter_inv Args pre post :
  NoDup (map iid (pre ++ post)) ->
  dominatorsFirst DT (analyzableIds (pre ++ post)) = true ->
  analysisInv DT pre (stateAfter DT Args pre)
  /\ bucketInv DT (fst (stateAfter DT Args pre)).
Proof.
  intros Hnd Hdf.
  assert (Hnd' : NoDup (map iid pre)).
  { rewrite map_app in Hnd. now apply NoDup_app in Hnd as (? & _ & _). }
  assert (H0 : analysisInv DT [] (numberArguments Args, emptyInfo)).
  { unfold analysisInv. cbn [fst snd]. split; [|split].
    - intros i (K & b & E & _).
      rewrite numberArguments_table, lookup_empty in E. discriminate.
    - intros R P HR. cbn in HR. rewrite lookup_empty in HR. discriminate.
    - intros ? []. }
  split.
  - apply (processInstructions_inv DT pre []); assumption.
  - revert Hnd Hdf. revert post. induction pre as [|Inst pre IH] using rev_ind;
      intros post Hnd Hdf.
    + intros K b c1 c2 E. cbn in E.
      rewrite numberArguments_table, lookup_empty in E. discriminate.
    + unfold stateAfter. rewrite fold_left_app. cbn [fold_left].
      rewrite <- app_assoc in Hnd, Hdf. cbn [app] in Hnd, Hdf.
      assert (Hndp : NoDup (map iid pre)).
      { rewrite map_app in Hnd. now apply NoDup_app in Hnd as (? & _ & _). }
      apply (processInstruction_bucketInv pre Inst post); [exact Hdf| |].
      * apply (processInstructions_inv DT pre []); assumption.
      * apply (IH Hndp (Inst :: post)); assumption.
Qed.

(** At every query the analysis makes, at most one instruction of the
    bucket dominates the query point. *)
Lemma available_value_unique Args pre Inst post bucket c1 c2 :
  instructions (preorder DT) = pre ++ Inst :: post ->
  isAnalyzable Inst = true ->
  NoDup (instrIds (preorder DT)) ->
  treeLike DT (analyzableIds (instructions (preorder DT))) = true ->
  dominatorsFirst DT (analyzableIds (instructions (preorder DT))) = true ->
  ExpressionTable
    (snd (createExpressionKey (fst (stateAfter DT Args pre)) Inst))
    !! fst (createExpressionKey (fst (stateAfter DT Args pre)) Inst)
    = Some bucket ->
  In c1 bucket -> In c2 bucket ->
  dominates DT c1 (iid Inst) = true -> dominates DT c2 (iid Inst) = true ->
  c1 = c2.
Proof.
  unfold instrIds. intros Hall Han Hnd Htree Hdf E H1 H2 Hd1 Hd2.
  rewrite Hall in *.
  destruct (stateAfter_inv Args pre (Inst :: post) Hnd Hdf)
    as [(Ha & _ & _) Hbi].
  rewrite createExpressionKey_table in E.
  set (K := fst (createExpressionKey (fst (stateAfter DT Args pre)) Inst)) in *.
  assert (Hids : forall c, In c bucket ->
                   In c (analyzableIds (pre ++ Inst :: post))).
  { intros c Hc. destruct (Ha c) as [(C & HC & <- & HaC) _];
      [now exists K, bucket|].
    apply analyzableIds_In; [|exact HaC]. apply in_or_app. now left. }
  destruct (decide (c1 = c2)) as [|Hne]; [assumption|]. exfalso.
  assert (Hi : In (iid Inst) (analyzableIds (pre ++ Inst :: post))).
  { apply analyzableIds_In; [|exact Han]. apply in_or_app. right. now left. }
  destruct (treeLike_spec _ c1 c2 (iid Inst) Htree (Hids _ H1) (Hids _ H2) Hi
              Hd1 Hd2) as [?|[Hd|Hd]]; [contradiction| |].
  - rewrite (Hbi K bucket c1 c2 E H1 H2 Hne) in Hd. discriminate.
  - rewrite (Hbi K bucket c2 c1 E H2 H1) in Hd by congruence. discriminate.
Qed.

End Determinism.

Section DeterministicOutput.
Import IR RedundancyAnalysis RedundancyElimination.

Lemma analysis_entries_chainFree F DT Args l :
  NoDup (instrIds (preorder DT)) ->
  l ≡ₚ map_to_list
         (RedundantInstructions (RedundancyAnalysis.run DT Args)) ->
  NoDup ((omap (matchedEntry F) (entriesOf l)).*1)
  /\ chainFree (omap (matchedEntry F) (entriesOf l)).
Proof.
  intros Hnd Hl.
  assert (Hmem : forall r p, In (r, p) l ->
                   RedundantInstructions (RedundancyAnalysis.run DT Args)
                   !! r = Some p).
  { intros r p Hin. apply elem_of_map_to_list. rewrite <- Hl.
    now apply list_elem_of_In. }
  split.
  - apply matched_entriesOf_NoDup. rewrite Hl.
    apply NoDup_fst_map_to_list.
  - intros r p Hin Hp. apply matched_entriesOf_sub in Hin.
    apply in_map_iff in Hp. destruct Hp as ([p' q] & Hfst & Hp).
    cbn in Hfst. subst p'. apply matched_entriesOf_sub in Hp.
    destruct (analyze_inv DT Args Hnd) as (Ha & Hb & _).
    destruct (Hb r p (Hmem _ _ Hin)) as (_ & _ & _ & HP).
    destruct (Ha p HP) as [_ Hnone].
    unfold RedundancyAnalysis.run in Hmem.
    rewrite (Hmem _ _ Hp) in Hnone. discriminate.
Qed.

(** Scenario "commutative equivalence": [v = y + x] is replaced by
    [u = x + y] and erased; the function returns [u + u]. *)
Example run_commutative_pair :
  RedundancyElimination.run map_to_list Examples.commutativePair
    [0; 1]%nat (Examples.singleBlockDT Examples.commutativePair)
  = ([ {| bid := 0%nat;
          instrs :=
            [ Examples.instr 2 Add Examples.i32 [VArgument 0; VArgument 1];
              Examples.instr 4 Add Examples.i32
                [VInstruction 2; VInstruction 2];
              Examples.instr 5 Ret Examples.void [VInstruction 4] ] |} ],
     PreservedCFGAndDomTree).
Proof. vm_compute. reflexivity. Qed.

(** Scenario "volatile inhibits redundancy": both volatile loads are
    preserved. *)
Example run_volatile_loads :
  RedundancyElimination.run map_to_list Examples.volatileLoads
    [0%nat] (Examples.singleBlockDT Examples.volatileLoads)
  = (Examples.volatileLoads, PreservedAll).
Proof. vm_compute. reflexivity. Qed.

End DeterministicOutput.

(** ** Constant folder: further properties *)

Section ConstantFolderMore.
Import IR ConstantFolding.
Variable ConstantFoldInstruction : Instruction -> option Constant.

Local Abbreviation sweepStep :=
  (ConstantFolding.sweepStep ConstantFoldInstruction).
Local Abbreviation sweep :=
  (ConstantFolding.sweep ConstantFoldInstruction).
Local Abbreviation foldLoop :=
  (ConstantFolding.foldLoop ConstantFoldInstruction).
Local Abbreviation run :=
  (ConstantFolding.run ConstantFoldInstruction).
Local Abbreviation visit :=
  (ConstantFolding.visit ConstantFoldInstruction).
Local Abbreviation collectCandidates :=
  (ConstantFolding.collectCandidates ConstantFoldInstruction).

(** *** The candidates of the visitor *)

Lemma visit_cases V Inst :
  visit V Inst = (V, false)
  \/ (exists V', visit V Inst = (V', true)
        /\ FoldingCandidates V' = FoldingCandidates V ++ [iid Inst]
        /\ visitedFamily (opcode Inst) = true
        /\ ConstantFoldInstruction Inst <> None).
Proof.
  unfold ConstantFolding.visit, visitedFamily.
  assert (Hpush : forall bump,
            FoldingCandidates (pushCandidate V Inst bump)
            = FoldingCandidates V ++ [iid Inst]) by reflexivity.
  destruct (isBinaryOp (opcode Inst)) eqn:Eb.
  { unfold visitBinaryOperator. destruct (_ && _); [|now left].
    destruct (ConstantFoldInstruction Inst); [|now left].
    right. eexists. repeat split. discriminate. }
  destruct (isCastOp (opcode Inst)) eqn:Ec.
  { unfold visitCastInst. destruct (operandIsConstant Inst 0); [|now left].
    destruct (ConstantFoldInstruction Inst); [|now left].
    right. eexists. repeat split. discriminate. }
  destruct (isCmpOp (opcode Inst)) eqn:Em.
  { unfold visitCmpInst. destruct (_ && _); [|now left].
    destruct (ConstantFoldInstruction Inst); [|now left].
    right. eexists. repeat split. discriminate. }
  destruct (opcode Inst) eqn:Eo; try (now left).
  - unfold visitGetElementPtrInst.
    destruct (allOperandsConstant Inst); [|now left].
    destruct (ConstantFoldInstruction Inst); [|now left].
    right. eexists. repeat split. discriminate.
  - unfold visitSelectInst. destruct (operandIsConstant Inst 0); [|now left].
    destruct (ConstantFoldInstruction Inst); [|now left].
    right. eexists. repeat split. discriminate.
Qed.

Lemma collectCandidates_flat F :
  collectCandidates F
  = fold_left (fun V Inst => fst (visit V Inst)) (instructions F) newVisitor.
Proof.
  unfold ConstantFolding.collectCandidates, instructions.
  generalize newVisitor as V.
  induction F as [|BB F IH]; intros V; cbn; [reflexivity|].
  now rewrite fold_left_app, IH.
Qed.

(** The candidate list after visiting [l] is what it was, followed by a
    sublist of the identities of [l], each of a visited family and
    foldable. *)
Lemma visit_fold_candidates l V :
  exists added,
    FoldingCandidates
      (fold_left (fun V Inst => fst (visit V Inst)) l V)
    = FoldingCandidates V ++ added
    /\ sublist added (map iid l)
    /\ forall i, In i added ->
         exists Inst, In Inst l /\ iid Inst = i
                      /\ visitedFamily (opcode Inst) = true
                      /\ ConstantFoldInstruction Inst <> None.
Proof.
  revert V. induction l as [|Inst l IH]; intros V.
  - exists []. cbn. rewrite app_nil_r. repeat split; [constructor|].
    intros ? [].
  - cbn [fold_left map].
    destruct (visit_cases V Inst) as [E|(V' & E & Hc & Hf & Hd)]; rewrite E;
      cbn [fst].
    + destruct (IH V) as (added & Ha & Hs & Hall).
      exists added. split; [exact Ha|]. split.
      * now apply sublist_cons.
      * intros i Hi. destruct (Hall i Hi) as (J & HJ & Hrest).
        exists J. split; [now right | exact Hrest].
    + destruct (IH V') as (added & Ha & Hs & Hall).
      exists (iid Inst :: added). split; [|split].
      * rewrite Ha, Hc, <- app_assoc. reflexivity.
      * now apply sublist_skip.
      * intros i [<-|Hi].
        -- exists Inst. split; [now left|]. now repeat split.
        -- destruct (Hall i Hi) as (J & HJ & Hrest).
           exists J. split; [now right | exact Hrest].
Qed.

(** X1: the candidates the visitor collects are instructions of the
    function, listed in program order without additions: each belongs to
    one of the five visited families and has a defined constant
    evaluation. *)
Theorem candidates_sound F :
  sublist (FoldingCandidates (collectCandidates F)) (instrIds F)
  /\ forall i, In i (FoldingCandidates (collectCandidates F)) ->
       exists Inst, In Inst (instructions F) /\ iid Inst = i
                    /\ visitedFamily (opcode Inst) = true
                    /\ ConstantFoldInstruction Inst <> None.
Proof.
  rewrite collectCandidates_flat.
  destruct (visit_fold_candidates (instructions F) newVisitor)
    as (added & Ha & Hs & Hall).
  rewrite Ha. cbn [newVisitor FoldingCandidates app]. now split.
Qed.

Lemma visit_not_foldable V Inst :
  ConstantFoldInstruction Inst = None -> visit V Inst = (V, false).
Proof.
  intros H. destruct (visit_cases V Inst) as [E|(V' & _ & _ & _ & Hd)];
    [exact E | contradiction].
Qed.

Lemma collectCandidates_none F :
  (forall Inst, In Inst (instructions F) ->
     ConstantFoldInstruction Inst = None) ->
  collectCandidates F = newVisitor.
Proof.
  intros H. rewrite collectCandidates_flat.
  apply (fold_left_invariant (fun V => V = newVisitor)); [reflexivity|].
  intros V Inst -> Hin. now rewrite visit_not_foldable by auto.
Qed.

(** *** Idempotence *)

(** X2: running the folder on its own output changes nothing and reports
    every analysis preserved. *)
Theorem run_idempotent F F' PA :
  NoDup (instrIds F) ->
  run F = Some (F', PA) ->
  run F' = Some (F', PreservedAll).
Proof.
  intros Hnd Hrun.
  assert (Hnone : FoldingCandidates (collectCandidates F') = []).
  { revert Hrun. unfold ConstantFolding.run.
    destruct (FoldingCandidates (collectCandidates F)) eqn:Ec.
    - intros [= <- _]. exact Ec.
    - destruct (foldLoop _ F 0) as [[F1 T]|] eqn:E; [|discriminate].
      intros [= <- _].
      rewrite collectCandidates_none; [reflexivity|].
      exact (foldLoop_fixed_point _ _ _ _ _ _ Hnd E). }
  unfold ConstantFolding.run. now rewrite Hnone.
Qed.

(** *** How often the loop runs *)

Lemma foldLoop_more_fuel fuel F Total r :
  foldLoop fuel F Total = Some r -> foldLoop (S fuel) F Total = Some r.
Proof.
  revert F Total. induction fuel as [|fuel IH]; intros F Total H;
    [discriminate|].
  rewrite foldLoop_S in H. rewrite foldLoop_S.
  destruct (Changed (sweep F Total)); [now apply IH | exact H].
Qed.

(** X3: the fixed-point loop always terminates: it reaches a sweep without
    change within one more sweep than the function has instructions, and
    allowing more sweeps does not change the result. *)
Theorem fold_loop_terminates F Total k :
  exists r,
    foldLoop (S (length (instructions F))) F Total = Some r
    /\ foldLoop (S (length (instructions F)) + k) F Total = Some r.
Proof.
  destruct (foldLoop_total ConstantFoldInstruction
              (S (length (instructions F))) F Total) as [r Hr]; [lia|].
  exists r. split; [exact Hr|].
  induction k as [|k IH].
  - now rewrite Nat.add_0_r.
  - rewrite Nat.add_succ_r. now apply foldLoop_more_fuel.
Qed.

(** *** What folding leaves of the function *)

Lemma foldedOperand_refl v : foldedOperand v v.
Proof. now left. Qed.

Lemma foldedOperand_trans v1 v2 v3 :
  foldedOperand v1 v2 -> foldedOperand v2 v3 -> foldedOperand v1 v3.
Proof.
  intros [->|(j & c & -> & ->)] [->|(j' & c' & E & ->)].
  - now left.
  - right. now exists j', c'.
  - right. now exists j, c.
  - discriminate.
Qed.

Lemma foldedFrom_refl Inst : foldedFrom Inst Inst.
Proof.
  split; [now destruct Inst|].
  induction (operands Inst); constructor; [apply foldedOperand_refl|assumption].
Qed.

Lemma Forall2_foldedOperand_trans l1 l2 l3 :
  Forall2 foldedOperand l1 l2 -> Forall2 foldedOperand l2 l3 ->
  Forall2 foldedOperand l1 l3.
Proof.
  intros H. revert l3. induction H as [|a b l1 l2 Hab H IH]; intros l3 H3.
  - inversion H3. constructor.
  - inversion H3 as [|? c ? l3' Hbc H3']; subst. constructor.
    + now apply (foldedOperand_trans a b c).
    + now apply IH.
Qed.

Lemma foldedFrom_trans I1 I2 I3 :
  foldedFrom I1 I2 -> foldedFrom I2 I3 -> foldedFrom I1 I3.
Proof.
  intros [E1 H1] [E2 H2]. split.
  - rewrite E2, E1. reflexivity.
  - now apply (Forall2_foldedOperand_trans _ (operands I2)).
Qed.

Lemma foldedFrom_replace Inst i c :
  foldedFrom Inst
    (setOperands Inst (map (replaceUse (VInstruction i) (VConstant c))
                           (operands Inst))).
Proof.
  split; [reflexivity|]. cbn.
  induction (operands Inst) as [|v l IH]; constructor; [|exact IH].
  unfold replaceUse. case_bool_decide as E; [|now left].
  right. now exists i, c.
Qed.

Lemma Forall2_foldedFrom_refl l : Forall2 foldedFrom l l.
Proof. induction l; constructor; [apply foldedFrom_refl | assumption]. Qed.

Lemma Forall2_foldedFrom_trans l1 l2 l3 :
  Forall2 foldedFrom l1 l2 -> Forall2 foldedFrom l2 l3 ->
  Forall2 foldedFrom l1 l3.
Proof.
  intros H. revert l3. induction H as [|a b l1 l2 Hab H IH]; intros l3 H3.
  - inversion H3. constructor.
  - inversion H3 as [|? c ? l3' Hbc H3']; subst. constructor.
    + now apply (foldedFrom_trans a b c).
    + now apply IH.
Qed.

Lemma Forall2_sublist_r {A B} (R : A -> B -> Prop) l1 l2 k2 :
  Forall2 R l1 l2 -> sublist k2 l2 ->
  exists k1, sublist k1 l1 /\ Forall2 R k1 k2.
Proof.
  intros H. revert k2. induction H as [|a b l1 l2 Hab H IH]; intros k2 Hs.
  - apply sublist_nil_r in Hs. subst. exists []. split; constructor.
  - inversion Hs as [|x k2' ? Hs'|x ? ? Hs']; subst.
    + destruct (IH _ Hs') as (k1 & Hk & Hf).
      exists (a :: k1). split; [now apply sublist_skip | now constructor].
    + destruct (IH _ Hs') as (k1 & Hk & Hf).
      exists k1. split; [now apply sublist_cons | exact Hf].
Qed.

Lemma blockFoldedFrom_refl BB : blockFoldedFrom BB BB.
Proof.
  split; [reflexivity|]. exists (instrs BB).
  split; [reflexivity | apply Forall2_foldedFrom_refl].
Qed.

Lemma blockFoldedFrom_trans B1 B2 B3 :
  blockFoldedFrom B1 B2 -> blockFoldedFrom B2 B3 -> blockFoldedFrom B1 B3.
Proof.
  intros (E1 & k1 & Hs1 & Hf1) (E2 & k2 & Hs2 & Hf2). split; [congruence|].
  destruct (Forall2_sublist_r _ _ _ _ Hf1 Hs2) as (k & Hk & Hf).
  exists k. split.
  - now transitivity k1.
  - now apply (Forall2_foldedFrom_trans _ k2).
Qed.

Lemma functionFoldedFrom_refl F : functionFoldedFrom F F.
Proof.
  induction F; constructor; [apply blockFoldedFrom_refl | assumption].
Qed.

Lemma functionFoldedFrom_trans F1 F2 F3 :
  functionFoldedFrom F1 F2 -> functionFoldedFrom F2 F3 ->
  functionFoldedFrom F1 F3.
Proof.
  intros H. revert F3. induction H as [|a b l1 l2 Hab H IH]; intros l3 H3.
  - inversion H3. constructor.
  - inversion H3 as [|? c ? l3' Hbc H3']; subst. constructor.
    + now apply (blockFoldedFrom_trans a b c).
    + now apply IH.
Qed.

Lemma functionFoldedFrom_replace F i c :
  functionFoldedFrom F (replaceAllUsesWith F i (VConstant c)).
Proof.
  unfold replaceAllUsesWith, mapInstrs.
  induction F as [|BB F IH]; constructor; [|exact IH].
  split; [reflexivity|]. exists (instrs BB). split; [reflexivity|].
  cbn [instrs]. induction (instrs BB) as [|Inst l IHl]; constructor;
    [apply foldedFrom_replace | exact IHl].
Qed.

Lemma functionFoldedFrom_erase F i :
  functionFoldedFrom F (eraseFromParent F i).
Proof.
  unfold eraseFromParent.
  induction F as [|BB F IH]; constructor; [|exact IH].
  split; [reflexivity|]. cbn [instrs].
  exists (filter (fun Inst => iid Inst <> i) (instrs BB)).
  split; [apply sublist_filter | apply Forall2_foldedFrom_refl].
Qed.

Lemma functionFoldedFrom_erase_all l F :
  functionFoldedFrom F (fold_left eraseFromParent l F).
Proof.
  revert F. induction l as [|i l IH]; intros F; cbn [fold_left].
  - apply functionFoldedFrom_refl.
  - eapply functionFoldedFrom_trans; [apply (functionFoldedFrom_erase F i)|].
    apply IH.
Qed.

Lemma sweepStep_folded st i :
  functionFoldedFrom (body st) (body (sweepStep st i)).
Proof.
  unfold ConstantFolding.sweepStep.
  destruct (findInstr (body st) i); [|apply functionFoldedFrom_refl].
  destruct (tryFold _ _); [|apply functionFoldedFrom_refl].
  cbn [body replaceAndScheduleRemoval]. apply functionFoldedFrom_replace.
Qed.

Lemma sweep_folded F Total :
  functionFoldedFrom F (body (sweep F Total)).
Proof.
  unfold ConstantFolding.sweep. cbn [body].
  eapply functionFoldedFrom_trans; [|apply functionFoldedFrom_erase_all].
  apply (fold_left_invariant (fun st => functionFoldedFrom F (body st))).
  - apply functionFoldedFrom_refl.
  - intros st i Hst _.
    eapply functionFoldedFrom_trans; [exact Hst | apply sweepStep_folded].
Qed.

Lemma foldLoop_folded fuel F Total F' Total' :
  foldLoop fuel F Total = Some (F', Total') -> functionFoldedFrom F F'.
Proof.
  revert F Total. induction fuel as [|fuel IH]; intros F Total H;
    [discriminate|].
  rewrite foldLoop_S in H.
  destruct (Changed (sweep F Total)).
  - eapply functionFoldedFrom_trans; [apply (sweep_folded F Total)|].
    exact (IH _ _ H).
  - injection H as <- _. apply sweep_folded.
Qed.

(** X4: the folder only deletes instructions and replaces instruction
    operands by constants.  The result has the same blocks in the same
    order; each block keeps some of its instructions, in their order, and
    a kept instruction differs from the original at most in operands that
    were instructions and are constants now. *)
Theorem run_only_folds F F' PA :
  run F = Some (F', PA) -> functionFoldedFrom F F'.
Proof.
  unfold ConstantFolding.run.
  destruct (FoldingCandidates (collectCandidates F)).
  - intros [= <- _]. apply functionFoldedFrom_refl.
  - destruct (foldLoop _ F 0) as [[F1 T]|] eqn:E; [|discriminate].
    intros [= <- _]. exact (foldLoop_folded _ _ _ _ _ E).
Qed.

(** *** Uses of the instructions that remain *)

Lemma usedIn_replace F i c j :
  usedIn (replaceAllUsesWith F i (VConstant c)) j ->
  usedIn F j /\ j <> i.
Proof.
  intros (Inst' & Hin & Hop).
  rewrite instructions_replaceAllUsesWith in Hin.
  apply in_map_iff in Hin. destruct Hin as (Inst & <- & Hin).
  cbn [operands setOperands] in Hop.
  apply in_map_iff in Hop. destruct Hop as (v & Hv & Hvin).
  unfold replaceUse in Hv. case_bool_decide as E; [discriminate|].
  subst v. split; [now exists Inst|]. congruence.
Qed.

Lemma usedIn_erase_all l F j :
  usedIn (fold_left eraseFromParent l F) j -> usedIn F j.
Proof.
  revert F. induction l as [|i l IH]; intros F; cbn [fold_left]; [tauto|].
  intros H. apply IH in H. destruct H as (Inst & Hin & Hop).
  rewrite instructions_eraseFromParent in Hin.
  apply list_elem_of_In, list_elem_of_filter in Hin.
  destruct Hin as [_ Hin]. exists Inst.
  split; [now apply list_elem_of_In | exact Hop].
Qed.

Lemma sweepStep_uses F st i :
  (forall j, usedIn (body st) j -> usedIn F j /\ ~ In j (ToDelete st)) ->
  forall j, usedIn (body (sweepStep st i)) j ->
    usedIn F j /\ ~ In j (ToDelete (sweepStep st i)).
Proof.
  intros Hst j. unfold ConstantFolding.sweepStep.
  destruct (findInstr (body st) i); [|apply Hst].
  destruct (tryFold _ _); [|apply Hst].
  cbn [body ToDelete replaceAndScheduleRemoval]. intros H.
  apply usedIn_replace in H. destruct H as [H Hne].
  destruct (Hst j H) as [HF Hnd]. split; [exact HF|].
  intros Hin. apply in_app_or in Hin. destruct Hin as [Hin|[->|[]]];
    [now apply Hnd | now apply Hne].
Qed.

Lemma sweep_fold_uses F l Total j :
  usedIn (body (fold_left sweepStep l (sweepStart F Total))) j ->
  usedIn F j
  /\ ~ In j (ToDelete (fold_left sweepStep l (sweepStart F Total))).
Proof.
  revert j.
  apply (fold_left_invariant
           (fun st => forall j, usedIn (body st) j ->
                        usedIn F j /\ ~ In j (ToDelete st))).
  - intros j H. split; [exact H | intros []].
  - intros st i Hst _. now apply sweepStep_uses.
Qed.

Lemma sweep_uses F Total j :
  usedIn (body (sweep F Total)) j ->
  usedIn F j /\ (In j (instrIds F) -> In j (instrIds (body (sweep F Total)))).
Proof.
  intros H. rewrite sweep_ids.
  unfold ConstantFolding.sweep in *. cbn [body ToDelete] in *.
  fold (sweepStart F Total) in *.
  apply usedIn_erase_all, sweep_fold_uses in H. destruct H as [HF Hnd].
  split; [exact HF|]. intros Hin.
  apply list_elem_of_In, list_elem_of_filter.
  split; [|now apply list_elem_of_In].
  intros Hd. now apply Hnd, list_elem_of_In.
Qed.

Lemma foldLoop_uses fuel F Total F' Total' j :
  foldLoop fuel F Total = Some (F', Total') ->
  usedIn F' j ->
  usedIn F j /\ (In j (instrIds F) -> In j (instrIds F')).
Proof.
  revert F Total. induction fuel as [|fuel IH]; intros F Total H Hu;
    [discriminate|].
  rewrite foldLoop_S in H.
  destruct (Changed (sweep F Total)).
  - destruct (IH _ _ H Hu) as [H1 H2].
    destruct (sweep_uses F Total j H1) as [H3 H4]. tauto.
  - injection H as <- _. now apply sweep_uses.
Qed.

(** X5: the folder never deletes an instruction that is still in use.
    Whatever instruction the result uses as an operand was used in the
    input too, and if the input defined it the result still does. *)
Theorem run_keeps_used_instructions F F' PA j :
  run F = Some (F', PA) ->
  usedIn F' j ->
  usedIn F j /\ (In j (instrIds F) -> In j (instrIds F')).
Proof.
  unfold ConstantFolding.run.
  destruct (FoldingCandidates (collectCandidates F)).
  - intros [= <- _]. tauto.
  - destruct (foldLoop _ F 0) as [[F1 T]|] eqn:E; [|discriminate].
    intros [= <- _]. exact (foldLoop_uses _ _ _ _ _ _ E).
Qed.

(** *** What the pass reports *)

Lemma wrap32_add_l a b : wrap32 (wrap32 a + b) = wrap32 (a + b).
Proof. unfold wrap32. apply N.Div0.add_mod_idemp_l. Qed.

(** The instructions a sweep schedules are visited ones, each scheduled
    once, and the counter advances by one for each. *)
Lemma sweep_fold_scheduled l st :
  TotalFolded st < 2 ^ 32 ->
  exists added,
    ToDelete (fold_left sweepStep l st) = ToDelete st ++ added
    /\ sublist added l
    /\ TotalFolded (fold_left sweepStep l st)
       = wrap32 (TotalFolded st + N.of_nat (length added)).
Proof.
  revert st. induction l as [|i l IH]; intros st Hlt; cbn [fold_left].
  - exists []. rewrite app_nil_r. repeat split; [constructor|].
    cbn. now rewrite N.add_0_r, wrap32_small.
  - assert (Hstep :
      sweepStep st i = st
      \/ (ToDelete (sweepStep st i) = ToDelete st ++ [i]
          /\ TotalFolded (sweepStep st i) = wrap32 (TotalFolded st + 1))).
    { unfold ConstantFolding.sweepStep.
      destruct (findInstr (body st) i); [|now left].
      destruct (tryFold _ _); [|now left]. right. now split. }
    destruct Hstep as [E|[Ed Et]].
    + rewrite E. destruct (IH st Hlt) as (added & Ha & Hs & Ht).
      exists added.
      repeat split; [exact Ha | now apply sublist_cons | exact Ht].
    + destruct (IH (sweepStep st i)) as (added & Ha & Hs & Ht).
      { rewrite Et. apply wrap32_bound. }
      exists (i :: added). split; [|split].
      * rewrite Ha, Ed, <- app_assoc. reflexivity.
      * now apply sublist_skip.
      * rewrite Ht, Et, wrap32_add_l. f_equal. cbn [length]. lia.
Qed.

Lemma filter_ext_elem {A} (P Q : A -> Prop)
  `{!forall x, Decision (P x)} `{!forall x, Decision (Q x)} (l : list A) :
  (forall x, x ∈ l -> P x <-> Q x) -> filter P l = filter Q l.
Proof.
  induction l as [|x l IH]; intros Hl; [reflexivity|].
  rewrite !filter_cons.
  assert (Hx : P x <-> Q x) by (apply Hl; now left).
  rewrite IH by (intros y Hy; apply Hl; now right).
  destruct (decide (P x)), (decide (Q x)); tauto.
Qed.

Lemma length_filter_sublist (l k : list InstrId) :
  NoDup l -> sublist k l ->
  (length (filter (fun j => j ∉ k) l) + length k = length l)%nat.
Proof.
  intros Hnd Hs. induction Hs as [|x k l Hs IH|x k l Hs IH].
  - reflexivity.
  - apply NoDup_cons in Hnd. destruct Hnd as [Hx Hnd].
    rewrite filter_cons.
    destruct (decide (x ∉ x :: k)) as [Hn|_];
      [exfalso; apply Hn; now left|].
    cbn [length]. rewrite <- (IH Hnd), Nat.add_succ_r. f_equal. f_equal.
    f_equal. apply filter_ext_elem. intros y Hy.
    rewrite not_elem_of_cons. split; [tauto|]. intros Hyk. split; [|exact Hyk].
    intros ->. now apply Hx.
  - apply NoDup_cons in Hnd. destruct Hnd as [Hx Hnd].
    rewrite filter_cons.
    destruct (decide (x ∉ k)) as [_|Hn].
    + cbn [length]. now rewrite <- (IH Hnd).
    + exfalso. apply Hn. intros Hxk. apply Hx.
      now apply (elem_of_sublist _ _ _ Hxk Hs).
Qed.

Lemma sweep_count F Total :
  NoDup (instrIds F) -> Total < 2 ^ 32 ->
  exists d,
    (length (instructions (body (sweep F Total))) + d
     = length (instructions F))%nat
    /\ TotalFolded (sweep F Total) = wrap32 (Total + N.of_nat d).
Proof.
  intros Hnd Hlt. rewrite <- !length_instrIds, sweep_ids.
  unfold ConstantFolding.sweep. cbn [ToDelete TotalFolded].
  fold (sweepStart F Total).
  destruct (sweep_fold_scheduled (instrIds F) (sweepStart F Total) Hlt)
    as (added & Ha & Hs & Ht).
  cbn [sweepStart ToDelete TotalFolded app] in Ha, Ht.
  rewrite Ha, Ht. exists (length added).
  split; [now apply length_filter_sublist | reflexivity].
Qed.

Lemma foldLoop_count fuel F Total F' Total' :
  NoDup (instrIds F) -> Total < 2 ^ 32 ->
  foldLoop fuel F Total = Some (F', Total') ->
  exists d,
    (length (instructions F') + d = length (instructions F))%nat
    /\ Total' = wrap32 (Total + N.of_nat d)
    /\ (d = 0%nat -> F' = F).
Proof.
  revert F Total. induction fuel as [|fuel IH]; intros F Total Hnd Hlt H;
    [discriminate|].
  rewrite foldLoop_S in H.
  destruct (sweep_count F Total Hnd Hlt) as (d1 & Hl1 & Ht1).
  destruct (Changed (sweep F Total)) eqn:E.
  - pose proof (sweep_decreases ConstantFoldInstruction F Total E) as Hdec.
    assert (Hlt1 : TotalFolded (sweep F Total) < 2 ^ 32)
      by (rewrite Ht1; apply wrap32_bound).
    destruct (IH _ _ (sweep_NoDup ConstantFoldInstruction F Total Hnd)
                 Hlt1 H) as (d2 & Hl2 & Ht2 & _).
    exists (d1 + d2)%nat. split; [lia|]. split; [|lia].
    rewrite Ht2, Ht1, wrap32_add_l. f_equal. lia.
  - injection H as <- <-.
    destruct (sweep_unchanged ConstantFoldInstruction F Total Hnd E)
      as [Hb _].
    exists d1. split; [exact Hl1|]. split; [exact Ht1 | now intros _].
Qed.

Lemma foldedFrom_iid Inst Inst' :
  foldedFrom Inst Inst' -> iid Inst' = iid Inst.
Proof. intros [E _]. now rewrite E. Qed.

Lemma run_cases F F' PA :
  NoDup (instrIds F) ->
  N.of_nat (length (instructions F)) < 2 ^ 32 ->
  run F = Some (F', PA) ->
  (F' = F /\ PA = PreservedAll)
  \/ ((length (instructions F') < length (instructions F))%nat
      /\ PA = PreservedNone).
Proof.
  intros Hnd Hlen. unfold ConstantFolding.run.
  destruct (FoldingCandidates (collectCandidates F)).
  - intros [= <- <-]. now left.
  - destruct (foldLoop _ F 0) as [[F1 T]|] eqn:E; [|discriminate].
    intros [= <- <-].
    assert (H0 : 0 < 2 ^ 32) by reflexivity.
    destruct (foldLoop_count _ _ _ _ _ Hnd H0 E) as (d & Hl & Ht & Hd).
    rewrite N.add_0_l, wrap32_small in Ht by lia. subst T.
    destruct d as [|d].
    + left. now rewrite (Hd eq_refl).
    + right. split; [lia|].
      now replace (0 <? N.of_nat (S d)) with true
        by (symmetry; apply N.ltb_lt; lia).
Qed.

(** X6: what the pass reports is what it did.  For a function of fewer
    than 2^32 instructions, all analyses are reported preserved exactly
    when the function comes back as it was, and none exactly when it has
    lost an instruction. *)
Theorem run_reports_change F F' PA :
  NoDup (instrIds F) ->
  N.of_nat (length (instructions F)) < 2 ^ 32 ->
  run F = Some (F', PA) ->
  (PA = PreservedAll <-> F' = F)
  /\ (PA = PreservedNone
      <-> (length (instructions F') < length (instructions F))%nat).
Proof.
  intros Hnd Hlen Hrun.
  destruct (run_cases F F' PA Hnd Hlen Hrun) as [[-> ->]|[Hlt ->]].
  - split; [tauto|]. split; [discriminate | lia].
  - split; [|tauto]. split; [discriminate|]. intros ->. lia.
Qed.

Lemma functionFoldedFrom_bid F F' :
  functionFoldedFrom F F' -> map bid F' = map bid F.
Proof.
  intros H. induction H as [|BB BB' F F' [E _] H IH]; [reflexivity|].
  cbn [map]. now rewrite E, IH.
Qed.

Lemma functionFoldedFrom_ids F F' :
  functionFoldedFrom F F' -> sublist (instrIds F') (instrIds F).
Proof.
  intros H. unfold instrIds, instructions.
  induction H as [|BB BB' F F' (_ & kept & Hs & Hk) H IH]; [constructor|].
  cbn [map concat]. rewrite !map_app. apply sublist_app; [|exact IH].
  assert (E : map iid (instrs BB') = map iid kept).
  { clear -Hk. induction Hk as [|a b ka kb Hab Hk IHk]; [reflexivity|].
    cbn [map]. now rewrite IHk, (foldedFrom_iid a b Hab). }
  rewrite E. now apply (fmap_sublist iid).
Qed.

(** *** Instructions that are constant as they stand *)

Lemma functionFoldedFrom_In F F' Inst' :
  functionFoldedFrom F F' -> In Inst' (instructions F') ->
  exists Inst, In Inst (instructions F) /\ foldedFrom Inst Inst'.
Proof.
  intros H. unfold instructions.
  induction H as [|BB BB' F F' (_ & kept & Hs & Hk) H IH]; [intros []|].
  cbn [map concat]. intros Hin. apply in_app_or in Hin.
  destruct Hin as [Hin|Hin].
  - assert (Hex : exists Inst, In Inst kept /\ foldedFrom Inst Inst').
    { clear -Hk Hin. induction Hk as [|a b ka kb Hab Hk IHk];
        [destruct Hin|].
      destruct Hin as [->|Hin]; [exists a; split; [now left|exact Hab]|].
      destruct (IHk Hin) as (J & HJ & HfJ). exists J.
      split; [now right | exact HfJ]. }
    destruct Hex as (Inst & HI & Hf). exists Inst. split; [|exact Hf].
    apply in_or_app. left. apply list_elem_of_In.
    apply (elem_of_sublist kept); [now apply list_elem_of_In | exact Hs].
  - destruct (IH Hin) as (Inst & HI & Hf). exists Inst.
    split; [apply in_or_app; now right | exact Hf].
Qed.

Lemma foldedFrom_constant Inst Inst' :
  allOperandsConstant Inst = true -> foldedFrom Inst Inst' -> Inst' = Inst.
Proof.
  unfold allOperandsConstant. intros Hc [E Hops].
  assert (Heq : operands Inst' = operands Inst).
  { clear E. induction Hops as [|v v' l l' Hv Hops IH]; [reflexivity|].
    cbn [forallb] in Hc. apply andb_true_iff in Hc. destruct Hc as [Hv1 Hc].
    f_equal; [|now apply IH].
    destruct Hv as [->|(j & c & -> & _)]; [reflexivity | discriminate]. }
  rewrite E, Heq. now destruct Inst.
Qed.

(** X7: once the fold loop runs, it removes every instruction that can
    be folded as it stands: an instruction whose operands are all
    constants and which has a constant evaluation is not in the
    result. *)
Theorem constant_instruction_removed F F' PA Inst :
  NoDup (instrIds F) ->
  FoldingCandidates (collectCandidates F) <> [] ->
  run F = Some (F', PA) ->
  In Inst (instructions F) ->
  allOperandsConstant Inst = true ->
  ConstantFoldInstruction Inst <> None ->
  ~ In (iid Inst) (instrIds F').
Proof.
  intros Hnd Hcand Hrun HI Hc Hf Hin. revert Hrun.
  unfold ConstantFolding.run.
  destruct (FoldingCandidates (collectCandidates F)); [congruence|].
  destruct (foldLoop _ F 0) as [[F1 T]|] eqn:E; [|discriminate].
  intros [= <- _].
  unfold instrIds in Hin. apply in_map_iff in Hin.
  destruct Hin as (Inst' & Hid & Hin').
  destruct (functionFoldedFrom_In F F1 Inst' (foldLoop_folded _ _ _ _ _ E)
              Hin') as (Inst0 & HI0 & Hff).
  assert (Inst0 = Inst).
  { apply (NoDup_iid_inj (instructions F)); try assumption.
    rewrite <- Hid. symmetry. now apply foldedFrom_iid. }
  subst Inst0. rewrite (foldedFrom_constant Inst Inst' Hc Hff) in Hin'.
  apply Hf. exact (foldLoop_fixed_point _ _ _ _ _ _ Hnd E Inst Hin').
Qed.

(** *** The constants that replace instructions *)

Lemma evaluatedOperand_folded F v v' :
  evaluatedOperand ConstantFoldInstruction F v v' -> foldedOperand v v'.
Proof.
  intros [->|(j & c & _ & _ & -> & -> & _)]; [now left|].
  right. now exists j, c.
Qed.

Lemma evaluatedIn_refl F : evaluatedIn ConstantFoldInstruction F F.
Proof.
  intros Inst HI. exists Inst. split; [exact HI|].
  split; [now destruct Inst|].
  induction (operands Inst); constructor; [now left | assumption].
Qed.

Lemma evaluatedIn_erase_all F G l :
  evaluatedIn ConstantFoldInstruction F G ->
  evaluatedIn ConstantFoldInstruction F (fold_left eraseFromParent l G).
Proof.
  intros H Inst' HI. rewrite instructions_erase_all in HI.
  apply list_elem_of_In, list_elem_of_filter in HI. destruct HI as [_ HI].
  now apply H, list_elem_of_In.
Qed.

Lemma evaluatedIn_replace F G i It c :
  evaluatedIn ConstantFoldInstruction F G ->
  findInstr G i = Some It -> ConstantFoldInstruction It = Some c ->
  evaluatedIn ConstantFoldInstruction F
    (replaceAllUsesWith G i (VConstant c)).
Proof.
  intros H Hf Hc. apply findInstr_Some in Hf. destruct Hf as [HIt Hid].
  destruct (H It HIt) as (J & HJ & EJ & HopsJ).
  assert (HJt : foldedFrom J It).
  { split; [exact EJ|]. clear -HopsJ.
    induction HopsJ as [|a b la lb Hab H IH]; constructor;
      [now apply (evaluatedOperand_folded F) | exact IH]. }
  assert (HidJ : iid J = i) by (rewrite <- Hid, EJ; reflexivity).
  intros Inst'' HI. rewrite instructions_replaceAllUsesWith in HI.
  apply in_map_iff in HI. destruct HI as (Inst' & <- & HI').
  destruct (H Inst' HI') as (Inst & HI & E & Hops).
  exists Inst. split; [exact HI|]. cbn [operands setOperands]. split.
  - rewrite E. reflexivity.
  - clear -Hops HJ HidJ HJt Hc.
    induction Hops as [|a b la lb Hab Hops IH]; cbn [map]; constructor;
      [|exact IH].
    unfold replaceUse. case_bool_decide as Eb; [|exact Hab].
    subst b. destruct Hab as [<-|(j & c' & _ & _ & _ & [=] & _)].
    right. now exists i, c, J, It.
Qed.

Lemma sweepStep_evaluated F st i :
  evaluatedIn ConstantFoldInstruction F (body st) ->
  evaluatedIn ConstantFoldInstruction F (body (sweepStep st i)).
Proof.
  intros H. unfold ConstantFolding.sweepStep.
  destruct (findInstr (body st) i) as [It|] eqn:Ef; [|exact H].
  unfold tryFold.
  destruct (ConstantFoldInstruction It) as [c|] eqn:Ec; [|exact H].
  cbn [body replaceAndScheduleRemoval].
  now apply (evaluatedIn_replace F (body st) i It c).
Qed.

Lemma sweep_evaluated F G Total :
  evaluatedIn ConstantFoldInstruction F G ->
  evaluatedIn ConstantFoldInstruction F (body (sweep G Total)).
Proof.
  intros H. unfold ConstantFolding.sweep. cbn [body].
  apply evaluatedIn_erase_all.
  apply (fold_left_invariant
           (fun st => evaluatedIn ConstantFoldInstruction F (body st)));
    [exact H|].
  intros st i Hst _. now apply sweepStep_evaluated.
Qed.

Lemma foldLoop_evaluated F fuel G Total F' Total' :
  evaluatedIn ConstantFoldInstruction F G ->
  foldLoop fuel G Total = Some (F', Total') ->
  evaluatedIn ConstantFoldInstruction F F'.
Proof.
  revert G Total. induction fuel as [|fuel IH]; intros G Total HG H;
    [discriminate|].
  rewrite foldLoop_S in H.
  destruct (Changed (sweep G Total)).
  - apply (IH _ _ (sweep_evaluated F G Total HG) H).
  - injection H as <- _. now apply sweep_evaluated.
Qed.

(** X8: the constants the folder writes are constant evaluations.  Every
    instruction of the result is an instruction of the input in which an
    operand slot either is as it was or held an instruction of the input
    and now holds the constant to which [ConstantFoldInstruction]
    evaluated that instruction (as it stood when it was folded, that is,
    with some of its own operands already replaced by constants). *)
Theorem operands_hold_constant_evaluations F F' PA :
  run F = Some (F', PA) ->
  evaluatedIn ConstantFoldInstruction F F'.
Proof.
  unfold ConstantFolding.run.
  destruct (FoldingCandidates (collectCandidates F)).
  - intros [= <- _]. apply evaluatedIn_refl.
  - destruct (foldLoop _ F 0) as [[F1 T]|] eqn:E; [|discriminate].
    intros [= <- _].
    exact (foldLoop_evaluated F _ F 0 F1 T (evaluatedIn_refl F) E).
Qed.

End ConstantFolderMore.

Ltac distinct_ids :=
  vm_compute; repeat constructor; intros H;
  repeat (apply elem_of_cons in H; destruct H as [H|H]; [discriminate H|]);
  now apply elem_of_nil in H.

Lemma run_idempotent_witness :
  ConstantFolding.run Examples.evalConstant Examples.constantChainFolded
  = Some (Examples.constantChainFolded, PreservedAll).
Proof.
  apply (run_idempotent Examples.evalConstant Examples.constantChain
           Examples.constantChainFolded PreservedNone).
  - distinct_ids.
  - reflexivity.
Defined.

Lemma run_only_folds_witness :
  functionFoldedFrom Examples.partlyConstant Examples.partlyConstantFolded.
Proof.
  apply (run_only_folds Examples.evalConstant Examples.partlyConstant
           Examples.partlyConstantFolded PreservedNone).
  reflexivity.
Defined.

Lemma run_keeps_used_instructions_witness :
  usedIn Examples.partlyConstant 1%nat
  /\ (In 1%nat (IR.instrIds Examples.partlyConstant) ->
      In 1%nat (IR.instrIds Examples.partlyConstantFolded)).
Proof.
  apply (run_keeps_used_instructions Examples.evalConstant
           Examples.partlyConstant Examples.partlyConstantFolded
           PreservedNone).
  - reflexivity.
  - exists (Examples.instr 2 IR.Ret Examples.void [IR.VInstruction 1]).
    split; [right; now left | now left].
Defined.

Lemma constant_instruction_removed_witness :
  ~ In 0%nat (IR.instrIds Examples.partlyConstantFolded).
Proof.
  apply (constant_instruction_removed Examples.evalConstant
           Examples.partlyConstant Examples.partlyConstantFolded
           PreservedNone
           (Examples.instr 0 IR.Add Examples.i32
              [IR.VConstant 1%Z; IR.VConstant 2%Z])).
  - distinct_ids.
  - discriminate.
  - reflexivity.
  - now left.
  - reflexivity.
  - discriminate.
Defined.

Lemma operands_hold_constant_evaluations_witness :
  evaluatedIn Examples.evalConstant Examples.partlyConstant
    Examples.partlyConstantFolded.
Proof.
  apply (operands_hold_constant_evaluations Examples.evalConstant
           Examples.partlyConstant Examples.partlyConstantFolded
           PreservedNone).
  reflexivity.
Defined.

Lemma run_reports_change_witness :
  (PreservedNone = PreservedAll
   <-> Examples.constantChainFolded = Examples.constantChain)
  /\ (PreservedNone = PreservedNone
      <-> (length (IR.instructions Examples.constantChainFolded)
           < length (IR.instructions Examples.constantChain))%nat).
Proof.
  apply (run_reports_change Examples.evalConstant Examples.constantChain).
  - distinct_ids.
  - reflexivity.
  - reflexivity.
Defined.

(** ** Value numbering: further properties *)

Section Numbering.
Import IR RedundancyAnalysis.

Lemma extends_refl VNT : extends VNT VNT.
Proof. now intros V n. Qed.

Lemma extends_trans V1 V2 V3 :
  extends V1 V2 -> extends V2 V3 -> extends V1 V3.
Proof. intros H1 H2 V n H. now apply H2, H1. Qed.

Lemma getValueNumber_extends VNT V :
  extends VNT (snd (getValueNumber VNT V)).
Proof.
  intros W n H. unfold getValueNumber.
  destruct (ValueNumbers VNT !! V) eqn:E; [exact H|]. cbn.
  rewrite lookup_insert_ne; [exact H|]. intros <-. congruence.
Qed.

(** Round trip: the number [getValueNumber] returns is the number
    [lookupValueNumber] finds afterwards. *)
Lemma getValueNumber_lookup VNT V :
  ValueNumbers (snd (getValueNumber VNT V)) !! V
  = Some (fst (getValueNumber VNT V)).
Proof.
  unfold getValueNumber. destruct (ValueNumbers VNT !! V) eqn:E; cbn.
  - exact E.
  - apply lookup_insert_eq.
Qed.

Lemma lookupValueNumber_Some VNT V n :
  ValueNumbers VNT !! V = Some n -> lookupValueNumber VNT V = n.
Proof. intros H. unfold lookupValueNumber. now rewrite H. Qed.

Lemma lookupValueNumber_extends VNT VNT' V :
  extends VNT VNT' -> is_Some (ValueNumbers VNT !! V) ->
  lookupValueNumber VNT' V = lookupValueNumber VNT V.
Proof.
  intros He [n Hn]. rewrite (lookupValueNumber_Some _ _ _ Hn).
  apply lookupValueNumber_Some. now apply He.
Qed.

Lemma numberOperands_extends VNT Ops :
  extends VNT (snd (numberOperands VNT Ops)).
Proof.
  revert VNT. induction Ops as [|Op Ops IH]; intros VNT;
    [apply extends_refl|].
  cbn [numberOperands].
  pose proof (getValueNumber_extends VNT Op) as H1.
  destruct (getValueNumber VNT Op) as [VN VNT1].
  specialize (IH VNT1).
  destruct (numberOperands VNT1 Ops) as [VNs VNT2]. cbn [snd] in *.
  now apply (extends_trans _ VNT1).
Qed.

(** The numbers [numberOperands] returns are those the resulting table
    holds for the operands. *)
Lemma numberOperands_lookup VNT Ops :
  fst (numberOperands VNT Ops)
  = map (lookupValueNumber (snd (numberOperands VNT Ops))) Ops
  /\ forall v, In v Ops ->
       is_Some (ValueNumbers (snd (numberOperands VNT Ops)) !! v).
Proof.
  revert VNT. induction Ops as [|Op Ops IH]; intros VNT.
  - split; [reflexivity | intros ? []].
  - cbn [numberOperands].
    pose proof (getValueNumber_lookup VNT Op) as H1.
    destruct (getValueNumber VNT Op) as [VN VNT1]. cbn [fst snd] in H1.
    pose proof (numberOperands_extends VNT1 Ops) as He.
    destruct (IH VNT1) as [IH1 IH2].
    destruct (numberOperands VNT1 Ops) as [VNs VNT2]. cbn [fst snd] in *.
    split.
    + cbn [map]. f_equal; [|exact IH1]. symmetry.
      apply lookupValueNumber_Some.
      now apply He.
    + intros v [<-|Hv]; [|now apply IH2]. exists VN. now apply He.
Qed.

Lemma createExpressionKey_extends VNT Inst :
  extends VNT (snd (createExpressionKey VNT Inst)).
Proof.
  unfold createExpressionKey.
  pose proof (numberOperands_extends VNT (operands Inst)) as H.
  now destruct (numberOperands VNT (operands Inst)).
Qed.

(** The key [createExpressionKey] builds is the key read off the table it
    leaves behind. *)
Lemma createExpressionKey_keyOf VNT Inst :
  fst (createExpressionKey VNT Inst)
  = keyOf (snd (createExpressionKey VNT Inst)) Inst
  /\ operandsNumbered (snd (createExpressionKey VNT Inst)) Inst.
Proof.
  unfold createExpressionKey, keyOf, operandsNumbered.
  destruct (numberOperands_lookup VNT (operands Inst)) as [H1 H2].
  destruct (numberOperands VNT (operands Inst)) as [VNs VNT1].
  cbn [fst snd] in *. now rewrite H1.
Qed.

Lemma operandsNumbered_extends VNT VNT' Inst :
  extends VNT VNT' -> operandsNumbered VNT Inst ->
  operandsNumbered VNT' Inst.
Proof.
  intros He H v Hv. destruct (H v Hv) as [n Hn]. exists n. now apply He.
Qed.

Lemma keyOf_extends VNT VNT' Inst :
  extends VNT VNT' -> operandsNumbered VNT Inst ->
  keyOf VNT' Inst = keyOf VNT Inst.
Proof.
  intros He Hn. unfold keyOf. f_equal. f_equal.
  apply map_ext_in. intros v Hv. apply lookupValueNumber_extends; auto.
Qed.

(** *** Numbers are dense and distinct until the counter overflows *)

Lemma numberingInv_weaken a k VNT :
  numberingInv (a + k) VNT -> numberingInv k VNT.
Proof. intros [Hw Hs]. split; [exact Hw | lia]. Qed.

Lemma numberingInv_same k VNT VNT' :
  NextValueNumber VNT' = NextValueNumber VNT ->
  ValueNumbers VNT' = ValueNumbers VNT ->
  numberingInv k VNT -> numberingInv k VNT'.
Proof.
  intros E1 E2. unfold numberingInv, wellNumbered. now rewrite E1, E2.
Qed.

Lemma getValueNumber_numberingInv k VNT V :
  numberingInv (S k) VNT ->
  numberingInv k (snd (getValueNumber VNT V)).
Proof.
  intros Hinv. unfold getValueNumber.
  destruct (ValueNumbers VNT !! V) eqn:E; cbn [snd].
  { now apply (numberingInv_weaken 1). }
  destruct Hinv as [(Hnext & Hrange & Hinj) Hs].
  assert (Hsz : size (<[V := NextValueNumber VNT]> (ValueNumbers VNT))
                = S (size (ValueNumbers VNT)))
    by now apply map_size_insert_None.
  assert (Hw : wrap32 (NextValueNumber VNT + 1) = NextValueNumber VNT + 1)
    by (apply wrap32_small; lia).
  unfold numberingInv, wellNumbered.
  cbn [NextValueNumber ValueNumbers]. rewrite Hsz, Hw.
  split; [split; [lia|split]|lia].
  - intros W n HW. destruct (decide (V = W)) as [<-|Hne].
    + rewrite lookup_insert_eq in HW. injection HW as <-. lia.
    + rewrite lookup_insert_ne in HW by exact Hne.
      specialize (Hrange W n HW). lia.
  - intros W1 W2 n H1 H2.
    destruct (decide (V = W1)) as [<-|Hn1], (decide (V = W2)) as [<-|Hn2].
    + reflexivity.
    + rewrite lookup_insert_eq in H1. injection H1 as <-.
      rewrite lookup_insert_ne in H2 by exact Hn2.
      specialize (Hrange _ _ H2). lia.
    + rewrite lookup_insert_eq in H2. injection H2 as <-.
      rewrite lookup_insert_ne in H1 by exact Hn1.
      specialize (Hrange _ _ H1). lia.
    + rewrite lookup_insert_ne in H1 by exact Hn1.
      rewrite lookup_insert_ne in H2 by exact Hn2.
      now apply (Hinj W1 W2 n).
Qed.

Lemma numberOperands_numberingInv k VNT Ops :
  numberingInv (length Ops + k) VNT ->
  numberingInv k (snd (numberOperands VNT Ops)).
Proof.
  revert VNT. induction Ops as [|Op Ops IH]; intros VNT H; [exact H|].
  cbn [numberOperands].
  pose proof (getValueNumber_numberingInv (length Ops + k) VNT Op H) as H1.
  destruct (getValueNumber VNT Op) as [VN VNT1]. cbn [snd] in H1.
  specialize (IH VNT1 H1).
  now destruct (numberOperands VNT1 Ops) as [VNs VNT2].
Qed.

Lemma createExpressionKey_numberingInv k VNT Inst :
  numberingInv (length (operands Inst) + k) VNT ->
  numberingInv k (snd (createExpressionKey VNT Inst)).
Proof.
  intros H. unfold createExpressionKey.
  pose proof (numberOperands_numberingInv k VNT (operands Inst) H) as H1.
  now destruct (numberOperands VNT (operands Inst)).
Qed.

Lemma lookupValueNumber_zero VNT V :
  wellNumbered VNT ->
  lookupValueNumber VNT V = 0 <-> ValueNumbers VNT !! V = None.
Proof.
  intros (_ & Hrange & _). unfold lookupValueNumber.
  destruct (ValueNumbers VNT !! V) as [n|] eqn:E; [|tauto].
  specialize (Hrange V n E). split; [lia | discriminate].
Qed.

Lemma getNumValueNumbers_size k VNT :
  numberingInv k VNT ->
  getNumValueNumbers VNT = N.of_nat (size (ValueNumbers VNT)).
Proof.
  intros [(Hnext & _ & _) Hs]. unfold getNumValueNumbers, wrap32.
  rewrite Hnext.
  replace (N.of_nat (size (ValueNumbers VNT)) + 1 + (2 ^ 32 - 1))
    with (N.of_nat (size (ValueNumbers VNT)) + 1 * 2 ^ 32) by lia.
  rewrite N.Div0.mod_add. apply N.mod_small. lia.
Qed.

(** X9: the numbering table, as long as the 32-bit counter has room for
    one more value.  The number [getValueNumber] returns is the one
    [lookupValueNumber] reports afterwards, and is not 0, the answer kept
    for unknown values; values numbered before keep their numbers;
    distinct values hold distinct numbers, which are 1, 2, ... without
    gaps, so that [getNumValueNumbers] is the number of values known. *)
Theorem getValueNumber_round_trip VNT V :
  wellNumbered VNT ->
  N.of_nat (size (ValueNumbers VNT)) + 2 < 2 ^ 32 ->
  let VN := fst (getValueNumber VNT V) in
  let VNT' := snd (getValueNumber VNT V) in
  lookupValueNumber VNT' V = VN /\ VN <> 0
  /\ extends VNT VNT'
  /\ wellNumbered VNT'
  /\ (forall W, lookupValueNumber VNT' W = 0
                <-> ValueNumbers VNT' !! W = None)
  /\ getNumValueNumbers VNT' = N.of_nat (size (ValueNumbers VNT')).
Proof.
  intros Hwell Hroom VN VNT'.
  assert (Hinv : numberingInv 1 VNT) by (split; [exact Hwell | lia]).
  pose proof (getValueNumber_numberingInv 0 VNT V Hinv) as Hinv'.
  fold VNT' in Hinv'. destruct Hinv' as [Hw Hs].
  pose proof (getValueNumber_lookup VNT V) as Hl. fold VN VNT' in Hl.
  split; [now apply lookupValueNumber_Some|]. split.
  { destruct Hw as (_ & Hrange & _). specialize (Hrange V VN Hl). lia. }
  split; [apply getValueNumber_extends|]. split; [exact Hw|].
  split; [intros W; now apply lookupValueNumber_zero|].
  now apply (getNumValueNumbers_size 0).
Qed.

Lemma getValueNumber_round_trip_witness :
  lookupValueNumber (snd (getValueNumber newTable (VArgument 0)))
    (VArgument 0) = 1.
Proof.
  apply (getValueNumber_round_trip newTable (VArgument 0)).
  - split; [reflexivity|split].
    + intros V n H. cbn in H. rewrite lookup_empty in H. discriminate.
    + intros V W n H. cbn in H. rewrite lookup_empty in H. discriminate.
  - reflexivity.
Defined.

End Numbering.

Section AnalysisExpressions.
Import IR RedundancyAnalysis.
Variable DT : DominatorTree.

Local Abbreviation processInstruction :=
  (RedundancyAnalysis.processInstruction DT).

(** *** The counter during the analysis *)

Lemma processInstruction_numberingInv k st Inst :
  numberingInv (S (length (operands Inst)) + k) (fst st) ->
  numberingInv k (fst (processInstruction st Inst)).
Proof.
  destruct st as [VNT RI]. cbn [fst]. intros H.
  unfold RedundancyAnalysis.processInstruction.
  destruct (isAnalyzable Inst); cbn [negb fst].
  2:{ apply getValueNumber_numberingInv.
    apply (numberingInv_weaken (length (operands Inst))).
    now replace (length (operands Inst) + S k)%nat
      with (S (length (operands Inst)) + k)%nat by lia. }
  pose proof (createExpressionKey_numberingInv (S k) VNT Inst) as H1.
  destruct (createExpressionKey VNT Inst) as [Key VNT1]. cbn [snd] in H1.
  assert (H2 : numberingInv (S k) VNT1).
  { apply H1. now replace (length (operands Inst) + S k)%nat
      with (S (length (operands Inst)) + k)%nat by lia. }
  destruct (findAvailableValue VNT1 Key (iid Inst) DT); cbn [fst];
    apply getValueNumber_numberingInv; [exact H2|].
  now apply (numberingInv_same _ VNT1).
Qed.

Lemma processInstructions_numberingInv k l st :
  numberingInv (valueBudget l + k) (fst st) ->
  numberingInv k (fst (fold_left processInstruction l st)).
Proof.
  revert st. induction l as [|Inst l IH]; intros st H; [exact H|].
  cbn [fold_left]. apply IH. apply processInstruction_numberingInv.
  cbn [valueBudget fold_right] in H. fold (valueBudget l) in H.
  now replace (S (length (operands Inst)) + (valueBudget l + k))%nat
    with (S (length (operands Inst)) + valueBudget l + k)%nat by lia.
Qed.

Lemma numberArguments_numberingInv k Args :
  N.of_nat (length Args + k) + 1 < 2 ^ 32 ->
  numberingInv k (numberArguments Args).
Proof.
  intros H. unfold numberArguments.
  assert (H0 : numberingInv (length Args + k) newTable).
  { split; [split; [reflexivity|split]|].
    - intros V n E. cbn in E. rewrite lookup_empty in E. discriminate.
    - intros V W n E. cbn in E. rewrite lookup_empty in E. discriminate.
    - cbn [newTable ValueNumbers]. rewrite map_size_empty. exact H. }
  revert H0. generalize newTable as VNT. clear H.
  induction Args as [|a Args IH]; intros VNT H0; [exact H0|].
  cbn [fold_left]. apply IH. now apply getValueNumber_numberingInv.
Qed.

Lemma analyze_numberingInv Args :
  N.of_nat (length Args + valueBudget (instructions (preorder DT))) + 1
    < 2 ^ 32 ->
  numberingInv 0 (fst (analyze DT Args)).
Proof.
  intros H. unfold analyze. rewrite processBlocks_flat.
  apply processInstructions_numberingInv. cbn [fst].
  apply numberArguments_numberingInv.
  now rewrite Nat.add_0_r.
Qed.

(** *** Keys are kept with the instructions *)

Lemma keyInv_table pre VNT VNT' RI RI' :
  extends VNT VNT' -> ExpressionTable VNT' = ExpressionTable VNT ->
  RedundantInstructions RI' = RedundantInstructions RI ->
  keyInv pre (VNT, RI) -> keyInv pre (VNT', RI').
Proof.
  intros He Et Er (H1 & H2 & H3). unfold keyInv. cbn [fst snd] in *.
  rewrite Et, Er. split; [|split].
  - intros K bucket i E Hin.
    destruct (H1 K bucket i E Hin) as (Inst & HI & Hid & Hn & HK).
    exists Inst. split; [exact HI|]. split; [exact Hid|].
    split; [now apply (operandsNumbered_extends VNT)|].
    now rewrite (keyOf_extends VNT VNT').
  - intros R P E.
    destruct (H2 R P E) as (Inst & HI & Hid & Hn & bucket & Eb & Hin).
    exists Inst. split; [exact HI|]. split; [exact Hid|].
    split; [now apply (operandsNumbered_extends VNT)|].
    exists bucket. now rewrite (keyOf_extends VNT VNT').
  - intros Inst HI Ha. destruct (H3 Inst HI Ha) as [Ht|Hm]; [left|now right].
    now apply (inTable_same VNT).
Qed.

Lemma processInstruction_keyInv pre st Inst :
  keyInv pre st -> keyInv (pre ++ [Inst]) (processInstruction st Inst).
Proof.
  destruct st as [VNT RI]. intros Hinv.
  unfold RedundancyAnalysis.processInstruction.
  destruct (isAnalyzable Inst) eqn:Ean; cbn [negb].
  2:{ (* only a value number is assigned *)
    pose proof (keyInv_table pre VNT
                  (snd (getValueNumber VNT (VInstruction (iid Inst)))) RI
                  {| RedundantInstructions := RedundantInstructions RI;
                     Statistics := bumpTotal (Statistics RI) |}
                  (getValueNumber_extends _ _) (getValueNumber_table _ _)
                  eq_refl Hinv) as (H1 & H2 & H3).
    cbn [fst snd] in *. split; [|split].
    - intros K bucket i E Hin.
      destruct (H1 K bucket i E Hin) as (J & HJ & Hrest).
      exists J. split; [apply in_or_app; now left | exact Hrest].
    - intros R P E. destruct (H2 R P E) as (J & HJ & Hrest).
      exists J. split; [apply in_or_app; now left | exact Hrest].
    - intros J HJ Ha. apply in_app_or in HJ.
      destruct HJ as [HJ|[<-|[]]]; [now apply H3 | congruence]. }
  destruct (createExpressionKey_keyOf VNT Inst) as [HKey Hnum].
  apply (keyInv_table _ VNT (snd (createExpressionKey VNT Inst)) RI RI)
    in Hinv; [|apply createExpressionKey_extends
              |apply createExpressionKey_table|reflexivity].
  destruct (createExpressionKey VNT Inst) as [Key VNT1].
  cbn [fst snd] in HKey, Hnum, Hinv. subst Key.
  destruct Hinv as (H1 & H2 & H3). cbn [fst snd] in H1, H2, H3.
  destruct (findAvailableValue VNT1 (keyOf VNT1 Inst) (iid Inst) DT)
    as [P|] eqn:Ef.
  - (* redundant *)
    apply findAvailableValue_Some in Ef.
    destruct Ef as ((bucket & Eb & Hin) & _ & _).
    eapply (keyInv_table _ VNT1);
      [apply getValueNumber_extends|apply getValueNumber_table|reflexivity|].
    split; [|split]; cbn [fst snd RedundantInstructions].
    + intros K b i E Hi. destruct (H1 K b i E Hi) as (J & HJ & Hrest).
      exists J. split; [apply in_or_app; now left | exact Hrest].
    + intros R P0 E. destruct (decide (iid Inst = R)) as [<-|Hne].
      * rewrite lookup_insert_eq in E. injection E as <-.
        exists Inst. split; [apply in_or_app; right; now left|].
        split; [reflexivity|]. split; [exact Hnum|]. now exists bucket.
      * rewrite lookup_insert_ne in E by exact Hne.
        destruct (H2 R P0 E) as (J & HJ & Hrest).
        exists J. split; [apply in_or_app; now left | exact Hrest].
    + intros J HJ Ha. apply in_app_or in HJ.
      destruct HJ as [HJ|[<-|[]]].
      * destruct (H3 J HJ Ha) as [Ht|Hm]; [now left|right].
        destruct (decide (iid Inst = iid J)) as [E|Hne].
        -- rewrite E, lookup_insert_eq. eauto.
        -- now rewrite lookup_insert_ne.
      * right. rewrite lookup_insert_eq. eauto.
  - (* a new expression *)
    eapply (keyInv_table _ (addExpression VNT1 (keyOf VNT1 Inst) (iid Inst)));
      [apply getValueNumber_extends|apply getValueNumber_table|reflexivity|].
    assert (Hk : forall J, keyOf (addExpression VNT1 (keyOf VNT1 Inst)
                                    (iid Inst)) J = keyOf VNT1 J)
      by reflexivity.
    split; [|split]; cbn [fst snd RedundantInstructions].
    + intros K b i E Hi. unfold addExpression in E. cbn in E.
      destruct (decide (keyOf VNT1 Inst = K)) as [<-|HK].
      * rewrite lookup_insert_eq in E. injection E as <-.
        apply in_app_or in Hi. destruct Hi as [Hi|[<-|[]]].
        -- destruct (ExpressionTable VNT1 !! keyOf VNT1 Inst) as [b|] eqn:Eb;
             [|destruct Hi].
           destruct (H1 _ b i Eb Hi) as (J & HJ & Hrest).
           exists J. split; [apply in_or_app; now left | exact Hrest].
        -- exists Inst. split; [apply in_or_app; right; now left|].
           now repeat split.
      * rewrite lookup_insert_ne in E by exact HK.
        destruct (H1 K b i E Hi) as (J & HJ & Hrest).
        exists J. split; [apply in_or_app; now left | exact Hrest].
    + intros R P E.
      destruct (H2 R P E) as (J & HJ & Hid & Hn & b & Eb & Hb).
      exists J. split; [apply in_or_app; now left|].
      split; [exact Hid|]. split; [exact Hn|]. rewrite Hk.
      unfold addExpression. cbn [ExpressionTable].
      destruct (decide (keyOf VNT1 Inst = keyOf VNT1 J)) as [EK|HK].
      * rewrite <- EK, lookup_insert_eq. rewrite <- EK in Eb. rewrite Eb.
        eexists. split; [reflexivity|]. apply in_or_app. now left.
      * rewrite lookup_insert_ne by exact HK. now exists b.
    + intros J HJ Ha. apply in_app_or in HJ.
      destruct HJ as [HJ|[<-|[]]].
      * destruct (H3 J HJ Ha) as [Ht|Hm]; [left|now right].
        apply inTable_addExpression. now right.
      * left. apply inTable_addExpression. now left.
Qed.

Lemma processInstructions_keyInv l pre st :
  keyInv pre st -> keyInv (pre ++ l) (fold_left processInstruction l st).
Proof.
  revert pre st. induction l as [|Inst l IH]; intros pre st H.
  - now rewrite app_nil_r.
  - cbn [fold_left].
    replace (pre ++ Inst :: l) with ((pre ++ [Inst]) ++ l)
      by (now rewrite <- app_assoc).
    apply IH. now apply processInstruction_keyInv.
Qed.

Lemma keyInv_start Args : keyInv [] (numberArguments Args, emptyInfo).
Proof.
  split; [|split]; cbn [fst snd].
  - intros K b i E. rewrite numberArguments_table, lookup_empty in E.
    discriminate.
  - intros R P E. cbn in E. rewrite lookup_empty in E. discriminate.
  - intros ? [].
Qed.

Lemma stateAfter_keyInv Args pre : keyInv pre (stateAfter DT Args pre).
Proof. apply (processInstructions_keyInv pre []), keyInv_start. Qed.

Lemma analyze_stateAfter Args :
  analyze DT Args = stateAfter DT Args (instructions (preorder DT)).
Proof. unfold analyze, stateAfter. apply processBlocks_flat. Qed.

(** *** A replacement computes the same expression *)

Lemma lookupValueNumber_inj VNT V W :
  wellNumbered VNT ->
  is_Some (ValueNumbers VNT !! V) -> is_Some (ValueNumbers VNT !! W) ->
  lookupValueNumber VNT V = lookupValueNumber VNT W -> V = W.
Proof.
  intros (_ & _ & Hinj) [n Hn] [m Hm] E.
  rewrite (lookupValueNumber_Some _ _ _ Hn),
          (lookupValueNumber_Some _ _ _ Hm) in E.
  subst m. now apply (Hinj V W n).
Qed.

Lemma map_lookupValueNumber_inj VNT l1 l2 :
  wellNumbered VNT ->
  (forall v, In v l1 -> is_Some (ValueNumbers VNT !! v)) ->
  (forall v, In v l2 -> is_Some (ValueNumbers VNT !! v)) ->
  map (lookupValueNumber VNT) l1 = map (lookupValueNumber VNT) l2 ->
  l1 = l2.
Proof.
  intros Hw. revert l2. induction l1 as [|a l1 IH]; intros [|b l2] H1 H2 E;
    try discriminate; [reflexivity|].
  cbn [map] in E. injection E as Ea El. f_equal.
  - apply (lookupValueNumber_inj VNT); [exact Hw| | |exact Ea].
    + apply H1. now left.
    + apply H2. now left.
  - apply IH; [| |exact El]; intros v Hv; [apply H1|apply H2]; now right.
Qed.

Lemma canonicalizeOperands_cases ns op :
  canonicalizeOperands ns op = ns
  \/ (isCommutative op = true
      /\ exists x y, ns = [x; y] /\ canonicalizeOperands ns op = [y; x]).
Proof.
  unfold canonicalizeOperands.
  destruct ns as [|x [|y [|z ns]]]; try now left.
  destruct (isCommutative op); [|now left].
  destruct (y <? x); [|now left]. right. split; [reflexivity|].
  now exists x, y.
Qed.

Lemma map_eq_pair {A B} (f : A -> B) l x y :
  map f l = [x; y] -> exists a b, l = [a; b] /\ f a = x /\ f b = y.
Proof.
  destruct l as [|a [|b [|c l]]]; try discriminate.
  intros [= <- <-]. now exists a, b.
Qed.

Lemma keyOf_inj VNT I1 I2 :
  wellNumbered VNT ->
  operandsNumbered VNT I1 -> operandsNumbered VNT I2 ->
  keyOf VNT I1 = keyOf VNT I2 -> sameExpression I1 I2.
Proof.
  intros Hw Hn1 Hn2 E. unfold keyOf in E.
  injection E as Eop Eops Ety Epred Einb.
  split; [exact Eop|]. split; [exact Ety|]. split; [|split].
  - intros Hc. rewrite <- Eop, Hc in Epred. exact Epred.
  - intros Hg. rewrite <- Eop, Hg in Einb.
    now rewrite bool_decide_eq_true_2 in Einb.
  - rewrite <- Eop in Eops.
    set (n1 := map (lookupValueNumber VNT) (operands I1)) in *.
    set (n2 := map (lookupValueNumber VNT) (operands I2)) in *.
    assert (Hsame : n1 = n2 -> operands I1 = operands I2)
      by (intros Hn; now apply (map_lookupValueNumber_inj VNT)).
    assert (Hswap : forall x y, n1 = [x; y] -> n2 = [y; x] ->
              exists a b, operands I1 = [a; b] /\ operands I2 = [b; a]).
    { intros x y E1 E2. subst n1 n2.
      apply map_eq_pair in E1. destruct E1 as (a & b & Ea & Hx & Hy).
      apply map_eq_pair in E2. destruct E2 as (c & d & Ec & Hc & Hd).
      exists a, b. split; [exact Ea|]. rewrite Ec.
      assert (Hin : forall v l (I0 : Instruction),
                operands I0 = l -> In v l -> In v (operands I0))
        by (intros; congruence).
      f_equal; [|f_equal].
      - apply (lookupValueNumber_inj VNT); [exact Hw| | |congruence].
        + apply Hn2. rewrite Ec. now left.
        + apply Hn1. rewrite Ea. right. now left.
      - apply (lookupValueNumber_inj VNT); [exact Hw| | |congruence].
        + apply Hn2. rewrite Ec. right. now left.
        + apply Hn1. rewrite Ea. now left. }
    destruct (canonicalizeOperands_cases n1 (opcode I1))
      as [C1|(Hc & x1 & y1 & E1 & C1)],
       (canonicalizeOperands_cases n2 (opcode I1))
      as [C2|(Hc' & x2 & y2 & E2 & C2)];
      rewrite C1, C2 in Eops.
    + left. now apply Hsame.
    + right. split; [exact Hc'|]. apply (Hswap y2 x2); congruence.
    + right. split; [exact Hc|]. apply (Hswap x1 y1); congruence.
    + left. apply Hsame. congruence.
Qed.

Lemma sameExpression_keyOf VNT I1 I2 :
  sameExpression I1 I2 -> keyOf VNT I1 = keyOf VNT I2.
Proof.
  intros (Eop & Ety & Hp & Hg & Hops). unfold keyOf.
  rewrite <- Eop, <- Ety. f_equal.
  - destruct Hops as [->|(Hc & a & b & -> & ->)]; [reflexivity|].
    cbn [map]. now apply canonicalizeOperands_comm.
  - destruct (isCmpOp (opcode I1)); [now apply Hp | reflexivity].
  - case_bool_decide; [now apply Hg | reflexivity].
Qed.

Lemma redundant_pair (Args : list nat) (R P : InstrId) :
  N.of_nat (length Args + valueBudget (instructions (preorder DT))) + 1
    < 2 ^ 32 ->
  RedundantInstructions (run DT Args) !! R = Some P ->
  exists IR IP,
    In IR (instructions (preorder DT)) /\ iid IR = R
    /\ In IP (instructions (preorder DT)) /\ iid IP = P
    /\ sameExpression IR IP.
Proof.
  intros Hbud Hmap.
  destruct (analyze_numberingInv Args Hbud) as [Hw _].
  pose proof (stateAfter_keyInv Args (instructions (preorder DT)))
    as (H1 & H2 & _).
  rewrite <- analyze_stateAfter in H1, H2. unfold run in Hmap.
  destruct (H2 _ _ Hmap) as (IR & HR & Hid & HnR & bucket & Eb & Hin).
  destruct (H1 _ _ _ Eb Hin) as (IP & HP & Hid' & HnP & HK).
  exists IR, IP. repeat (split; [assumption|]).
  now apply (keyOf_inj (fst (analyze DT Args))).
Qed.

(** X10: an instruction is only ever recorded redundant with a replacement
    that computes the same expression, as long as the 32-bit counter of
    value numbers cannot overflow: the two have the same opcode and result
    type, the same predicate when they are comparisons, the same in-bounds
    flag when they are address computations, and the same operands, in
    order or, for a commutative opcode, swapped. *)
Theorem replacement_same_expression (Args : list nat)
  (Redundant Replacement : Instruction) :
  NoDup (instrIds (preorder DT)) ->
  N.of_nat (length Args + valueBudget (instructions (preorder DT))) + 1
    < 2 ^ 32 ->
  In Redundant (instructions (preorder DT)) ->
  In Replacement (instructions (preorder DT)) ->
  RedundantInstructions (run DT Args) !! iid Redundant
    = Some (iid Replacement) ->
  sameExpression Redundant Replacement.
Proof.
  intros Hnd Hbud HR HP Hmap.
  destruct (redundant_pair Args _ _ Hbud Hmap)
    as (IR & IP & HIR & HidR & HIP & HidP & Hsame).
  assert (IR = Redundant)
    by (now apply (NoDup_iid_inj (instructions (preorder DT)))).
  assert (IP = Replacement)
    by (now apply (NoDup_iid_inj (instructions (preorder DT)))).
  now subst.
Qed.

(** *** A repeated expression is found *)

Lemma findAvailableValue_complete VNT Key Q bucket c :
  ExpressionTable VNT !! Key = Some bucket -> In c bucket -> c <> Q ->
  dominates DT c Q = true ->
  is_Some (findAvailableValue VNT Key Q DT).
Proof.
  intros E Hin Hne Hdom.
  destruct (findAvailableValue VNT Key Q DT) eqn:Ef; [eauto|].
  rewrite (findAvailableValue_None DT VNT Key Q bucket c Ef E Hin Hne)
    in Hdom.
  discriminate.
Qed.

Lemma processInstruction_map_other st Inst r :
  iid Inst <> r ->
  RedundantInstructions (snd (processInstruction st Inst)) !! r
  = RedundantInstructions (snd st) !! r.
Proof.
  intros Hne. destruct st as [VNT RI].
  unfold RedundancyAnalysis.processInstruction.
  destruct (isAnalyzable Inst); cbn [negb snd]; [|reflexivity].
  destruct (createExpressionKey VNT Inst) as [Key VNT1].
  destruct (findAvailableValue VNT1 Key (iid Inst) DT);
    cbn [snd RedundantInstructions]; [|reflexivity].
  now rewrite lookup_insert_ne.
Qed.

Lemma processInstructions_map_other l st r :
  ~ In r (map iid l) ->
  RedundantInstructions (snd (fold_left processInstruction l st)) !! r
  = RedundantInstructions (snd st) !! r.
Proof.
  revert st. induction l as [|Inst l IH]; intros st Hr; [reflexivity|].
  cbn [fold_left]. rewrite IH by (intros H; apply Hr; now right).
  apply processInstruction_map_other. intros E. apply Hr. now left.
Qed.

Lemma stateAfter_analysisInv Args pre :
  NoDup (map iid pre) -> analysisInv DT pre (stateAfter DT Args pre).
Proof.
  intros Hnd. apply (processInstructions_inv DT pre []); [exact Hnd|].
  unfold analysisInv. cbn [fst snd]. split; [|split].
  - intros i (K & b & E & _).
    rewrite numberArguments_table, lookup_empty in E. discriminate.
  - intros R P HR. cbn in HR. rewrite lookup_empty in HR. discriminate.
  - intros ? [].
Qed.

Lemma stateAfter_snoc Args pre Inst :
  stateAfter DT Args (pre ++ [Inst])
  = processInstruction (stateAfter DT Args pre) Inst.
Proof. unfold stateAfter. now rewrite fold_left_app. Qed.

Lemma stateAfter_app Args pre post :
  stateAfter DT Args (pre ++ post)
  = fold_left processInstruction post (stateAfter DT Args pre).
Proof. unfold stateAfter. now rewrite fold_left_app. Qed.

(** When the instruction [Inst] is processed after [pre], and an earlier
    analyzable instruction [I1] computes the same expression and
    dominates it, a replacement is found. *)
Lemma processInstruction_finds Args pre I1 Inst :
  NoDup (map iid (pre ++ [Inst])) ->
  (forall a b c, dominates DT a b = true -> dominates DT b c = true ->
                 dominates DT a c = true) ->
  In I1 pre -> isAnalyzable I1 = true -> isAnalyzable Inst = true ->
  sameExpression I1 Inst ->
  dominates DT (iid I1) (iid Inst) = true ->
  is_Some (RedundantInstructions
             (snd (processInstruction (stateAfter DT Args pre) Inst))
           !! iid Inst).
Proof.
  intros Hnd Htrans HI1 Ha1 Ha Hsame Hdom.
  assert (Hndp : NoDup (map iid pre)).
  { rewrite map_app in Hnd. now apply NoDup_app in Hnd as (? & _ & _). }
  assert (Hfresh : forall c, In c (map iid pre) -> c <> iid Inst).
  { intros c Hc ->. rewrite map_app in Hnd.
    apply NoDup_app in Hnd as (_ & Hdis & _).
    apply (Hdis (iid Inst)); [now apply list_elem_of_In | now left]. }
  pose proof (stateAfter_keyInv Args pre) as (K1 & K2 & K3).
  pose proof (stateAfter_analysisInv Args pre Hndp) as (A1 & A2 & _).
  destruct (stateAfter DT Args pre) as [VNT RI]. cbn [fst snd] in *.
  unfold RedundancyAnalysis.processInstruction. rewrite Ha. cbn [negb].
  destruct (createExpressionKey_keyOf VNT Inst) as [HKey _].
  pose proof (createExpressionKey_table VNT Inst) as Et.
  pose proof (createExpressionKey_extends VNT Inst) as He.
  destruct (createExpressionKey VNT Inst) as [Key VNT1].
  cbn [fst snd] in HKey, Et, He.
  (* the bucket of the key holds an instruction that dominates [Inst] *)
  assert (Hfound : exists bucket c,
            ExpressionTable VNT1 !! Key = Some bucket /\ In c bucket
            /\ c <> iid Inst /\ dominates DT c (iid Inst) = true).
  { assert (HK : forall J, In J pre -> iid J = iid I1 ->
                   operandsNumbered VNT J -> keyOf VNT J = Key).
    { intros J HJ Hid HnJ.
      assert (J = I1) by (now apply (NoDup_iid_inj pre)). subst J.
      rewrite HKey, <- (sameExpression_keyOf VNT1 I1 Inst Hsame).
      symmetry. now apply keyOf_extends. }
    destruct (K3 I1 HI1 Ha1) as [(K & bucket & Eb & Hin)|[P HP]].
    - destruct (K1 K bucket _ Eb Hin) as (J & HJ & Hid & HnJ & ->).
      exists bucket, (iid I1). rewrite Et, <- (HK J HJ Hid HnJ).
      split; [exact Eb|]. split; [exact Hin|].
      split; [|exact Hdom]. apply Hfresh. now apply in_map.
    - destruct (K2 _ _ HP) as (J & HJ & Hid & HnJ & bucket & Eb & Hin).
      destruct (A2 _ _ HP) as (_ & _ & HdomP & HPt).
      exists bucket, P. rewrite Et, <- (HK J HJ Hid HnJ).
      split; [exact Eb|]. split; [exact Hin|]. split.
      + apply Hfresh. destruct (A1 P HPt) as [HPa _].
        now apply analyzableIn_ids.
      + now apply (Htrans P (iid I1)). }
  destruct Hfound as (bucket & c & Eb & Hin & Hne & Hd).
  destruct (findAvailableValue_complete VNT1 Key (iid Inst) bucket c
              Eb Hin Hne Hd) as [P ->].
  cbn [snd RedundantInstructions]. rewrite lookup_insert_eq. eauto.
Qed.

(** X11: the analysis misses no repetition it is meant to find.  Of two
    analyzable instructions that compute the same expression, the later
    one in processing order is recorded as redundant whenever the earlier
    one dominates it (dominance being transitive). *)
Theorem repeated_expression_is_redundant (Args : list nat)
  (pre : list Instruction) (I1 : Instruction) (mid : list Instruction)
  (I2 : Instruction) (post : list Instruction) :
  instructions (preorder DT) = pre ++ I1 :: mid ++ I2 :: post ->
  NoDup (instrIds (preorder DT)) ->
  (forall a b c, dominates DT a b = true -> dominates DT b c = true ->
                 dominates DT a c = true) ->
  isAnalyzable I1 = true -> isAnalyzable I2 = true ->
  sameExpression I1 I2 ->
  dominates DT (iid I1) (iid I2) = true ->
  isRedundant (run DT Args) (iid I2) = true.
Proof.
  intros Hall Hnd Htrans Ha1 Ha2 Hsame Hdom.
  unfold isRedundant, run. apply bool_decide_eq_true.
  rewrite analyze_stateAfter. unfold instrIds in Hnd. rewrite Hall in *.
  replace (pre ++ I1 :: mid ++ I2 :: post)
    with (((pre ++ I1 :: mid) ++ [I2]) ++ post) in *
    by (rewrite <- !app_assoc; reflexivity).
  rewrite stateAfter_app, stateAfter_snoc.
  rewrite map_app in Hnd. apply NoDup_app in Hnd as (Hnd1 & Hdis & _).
  rewrite processInstructions_map_other.
  - apply (processInstruction_finds Args (pre ++ I1 :: mid) I1 I2);
      try assumption.
    apply in_or_app. right. now left.
  - intros Hin. apply (Hdis (iid I2)); [|now apply list_elem_of_In].
    apply list_elem_of_In. rewrite map_app. apply in_or_app. right.
    now left.
Qed.

(** *** Every analyzable instruction is accounted for *)

(** X12: the analysis classifies every analyzable instruction, and no
    other: an instruction of the function is recorded in the expression
    table or as redundant exactly when it is analyzable, and never
    both. *)
Theorem analyzable_iff_recorded (Args : list nat) (Inst : Instruction) :
  NoDup (instrIds (preorder DT)) ->
  In Inst (instructions (preorder DT)) ->
  (isAnalyzable Inst = true
   <-> inTable (fst (analyze DT Args)) (iid Inst)
       \/ isRedundant (run DT Args) (iid Inst) = true)
  /\ ~ (inTable (fst (analyze DT Args)) (iid Inst)
        /\ isRedundant (run DT Args) (iid Inst) = true).
Proof.
  intros Hnd HI. unfold isRedundant, run.
  pose proof (stateAfter_keyInv Args (instructions (preorder DT)))
    as (_ & _ & K3).
  pose proof (stateAfter_analysisInv Args _ Hnd) as (A1 & A2 & _).
  rewrite <- analyze_stateAfter in K3, A1, A2.
  assert (Han : analyzableIn (instructions (preorder DT)) (iid Inst) ->
                isAnalyzable Inst = true).
  { intros (J & HJ & Hid & Ha).
    now rewrite <- (NoDup_iid_inj _ J Inst Hnd HJ HI Hid). }
  split; [split|].
  - intros Ha. destruct (K3 Inst HI Ha) as [Ht|Hm]; [now left|right].
    now apply bool_decide_eq_true.
  - intros [Ht|Hm].
    + now apply Han, A1.
    + apply bool_decide_eq_true in Hm. destruct Hm as [P HP].
      now apply Han, (A2 _ P).
  - intros [Ht Hm]. apply bool_decide_eq_true in Hm.
    destruct Hm as [P HP]. destruct (A1 _ Ht) as [_ Hnone]. congruence.
Qed.

(** *** The statistics *)

Lemma processInstruction_stats st Inst :
  let st' := processInstruction st Inst in
  TotalInstructions (Statistics (snd st'))
    = wrap32 (TotalInstructions (Statistics (snd st)) + 1)
  /\ (isAnalyzable Inst = false ->
      RedundantInstructions (snd st') = RedundantInstructions (snd st)
      /\ RedundantCount (Statistics (snd st'))
         = RedundantCount (Statistics (snd st))
      /\ UniqueExpressions (Statistics (snd st'))
         = UniqueExpressions (Statistics (snd st)))
  /\ (isAnalyzable Inst = true ->
      (exists P,
         RedundantInstructions (snd st')
           = <[iid Inst := P]> (RedundantInstructions (snd st))
         /\ RedundantCount (Statistics (snd st'))
            = wrap32 (RedundantCount (Statistics (snd st)) + 1)
         /\ UniqueExpressions (Statistics (snd st'))
            = UniqueExpressions (Statistics (snd st)))
      \/ (RedundantInstructions (snd st') = RedundantInstructions (snd st)
          /\ RedundantCount (Statistics (snd st'))
             = RedundantCount (Statistics (snd st))
          /\ UniqueExpressions (Statistics (snd st'))
             = wrap32 (UniqueExpressions (Statistics (snd st)) + 1))).
Proof.
  destruct st as [VNT RI]. cbv zeta.
  unfold RedundancyAnalysis.processInstruction.
  destruct (isAnalyzable Inst); cbn [negb].
  2:{ cbn. split; [reflexivity|]. split; [tauto | discriminate]. }
  destruct (createExpressionKey VNT Inst) as [Key VNT1].
  destruct (findAvailableValue VNT1 Key (iid Inst) DT) as [P|]; cbn.
  - split; [reflexivity|]. split; [discriminate|]. intros _. left.
    now exists P.
  - split; [reflexivity|]. split; [discriminate|]. intros _. now right.
Qed.

Lemma stateAfter_stats Args pre :
  NoDup (map iid pre) ->
  let RI := snd (stateAfter DT Args pre) in
  TotalInstructions (Statistics RI) = wrap32 (N.of_nat (length pre))
  /\ RedundantCount (Statistics RI)
     = wrap32 (N.of_nat (size (RedundantInstructions RI)))
  /\ exists u,
       UniqueExpressions (Statistics RI) = wrap32 (N.of_nat u)
       /\ (size (RedundantInstructions RI) + u
           = length (analyzableIds pre))%nat.
Proof.
  cbv zeta. induction pre as [|Inst pre IH] using rev_ind; intros Hnd.
  - cbn. split; [reflexivity|]. split; [reflexivity|]. now exists 0%nat.
  - assert (Hndp : NoDup (map iid pre)).
    { rewrite map_app in Hnd. now apply NoDup_app in Hnd as (? & _ & _). }
    assert (Hfresh : ~ In (iid Inst) (map iid pre)).
    { intros Hin. rewrite map_app in Hnd.
      apply NoDup_app in Hnd as (_ & Hdis & _).
      apply (Hdis (iid Inst)); [now apply list_elem_of_In | now left]. }
    destruct (IH Hndp) as (Ht & Hr & u & Hu & Hsum).
    pose proof (stateAfter_analysisInv Args pre Hndp) as (_ & A2 & _).
    rewrite stateAfter_snoc.
    destruct (processInstruction_stats (stateAfter DT Args pre) Inst)
      as (St & Sn & Sa).
    rewrite St, Ht, wrap32_add_l, length_app, analyzableIds_app.
    cbn [length]. split; [f_equal; lia|].
    assert (Hone : analyzableIds [Inst]
                   = if isAnalyzable Inst then [iid Inst] else []).
    { unfold analyzableIds. cbn. now destruct (isAnalyzable Inst). }
    rewrite !Hone.
    destruct (isAnalyzable Inst) eqn:Ean.
    + cbn [map length]. rewrite length_app. cbn [length].
      destruct (Sa eq_refl) as [(P & Em & Ec & Eu)|(Em & Ec & Eu)].
      * assert (Hnone : RedundantInstructions (snd (stateAfter DT Args pre))
                        !! iid Inst = None).
        { destruct (RedundantInstructions (snd (stateAfter DT Args pre))
                    !! iid Inst) as [Q|] eqn:E; [|reflexivity].
          exfalso. apply Hfresh. apply analyzableIn_ids.
          now apply (A2 _ Q). }
        rewrite Em, Ec, Eu, Hr, wrap32_add_l,
                (map_size_insert_None _ _ _ Hnone).
        split; [f_equal; lia|]. exists u. split; [exact Hu | lia].
      * rewrite Em, Ec, Eu, Hu, wrap32_add_l. split; [exact Hr|].
        exists (S u). split; [f_equal; lia | lia].
    + cbn [map length]. rewrite app_nil_r.
      destruct (Sn eq_refl) as (Em & Ec & Eu). rewrite Em, Ec, Eu.
      split; [exact Hr|]. now exists u.
Qed.

(** X13: the statistics agree with the result.  For a function whose
    instructions are distinct objects, and up to the 32-bit wrap-around
    of the counters: the total is the number of instructions, the
    redundant count is the size of the map, and the unique-expression
    count is the number of analyzable instructions that are not
    redundant. *)
Theorem analysis_statistics (Args : list nat) :
  NoDup (instrIds (preorder DT)) ->
  let RI := run DT Args in
  let analyzable := length (analyzableIds (instructions (preorder DT))) in
  TotalInstructions (Statistics RI)
    = wrap32 (N.of_nat (length (instructions (preorder DT))))
  /\ RedundantCount (Statistics RI)
     = wrap32 (N.of_nat (size (RedundantInstructions RI)))
  /\ UniqueExpressions (Statistics RI)
     = wrap32 (N.of_nat (analyzable - size (RedundantInstructions RI)))
  /\ (size (RedundantInstructions RI) <= analyzable)%nat.
Proof.
  intros Hnd. cbv zeta. unfold run. rewrite analyze_stateAfter.
  destruct (stateAfter_stats Args _ Hnd) as (Ht & Hr & u & Hu & Hsum).
  split; [exact Ht|]. split; [exact Hr|]. rewrite <- Hsum.
  split; [|lia]. rewrite Hu. f_equal. lia.
Qed.

(** *** The buckets of the expression table *)

Lemma stateAfter_buckets Args pre :
  NoDup (map iid pre) ->
  forall K bucket,
    ExpressionTable (fst (stateAfter DT Args pre)) !! K = Some bucket ->
    bucket <> [] /\ NoDup bucket.
Proof.
  induction pre as [|Inst pre IH] using rev_ind; intros Hnd K bucket E.
  - unfold stateAfter in E. cbn in E.
    rewrite numberArguments_table, lookup_empty in E. discriminate.
  - assert (Hndp : NoDup (map iid pre)).
    { rewrite map_app in Hnd. now apply NoDup_app in Hnd as (? & _ & _). }
    assert (Hfresh : ~ In (iid Inst) (map iid pre)).
    { intros Hin. rewrite map_app in Hnd.
      apply NoDup_app in Hnd as (_ & Hdis & _).
      apply (Hdis (iid Inst)); [now apply list_elem_of_In | now left]. }
    specialize (IH Hndp).
    pose proof (stateAfter_analysisInv Args pre Hndp) as (A1 & _ & _).
    rewrite stateAfter_snoc in E.
    destruct (stateAfter DT Args pre) as [VNT RI]. cbn [fst snd] in *.
    unfold RedundancyAnalysis.processInstruction in E.
    destruct (isAnalyzable Inst); cbn [negb fst] in E.
    2:{ rewrite getValueNumber_table in E. now apply (IH K). }
    pose proof (createExpressionKey_table VNT Inst) as Et.
    destruct (createExpressionKey VNT Inst) as [Key VNT1]. cbn [snd] in Et.
    destruct (findAvailableValue VNT1 Key (iid Inst) DT); cbn [fst] in E;
      rewrite getValueNumber_table in E.
    { rewrite Et in E. now apply (IH K). }
    unfold addExpression in E. cbn [ExpressionTable] in E.
    destruct (decide (Key = K)) as [->|HK].
    + rewrite lookup_insert_eq in E. injection E as <-. rewrite Et.
      split; [now destruct (default [] (ExpressionTable VNT !! K))|].
      apply NoDup_app. split; [|split].
      * destruct (ExpressionTable VNT !! K) as [b|] eqn:Eb;
          [now apply (IH K) | constructor].
      * intros i Hi Hi'. apply list_elem_of_In in Hi, Hi'.
        destruct Hi' as [<-|[]]. apply Hfresh.
        destruct (ExpressionTable VNT !! K) as [b|] eqn:Eb; [|destruct Hi].
        apply analyzableIn_ids. apply A1. now exists K, b.
      * apply NoDup_singleton.
    + rewrite lookup_insert_ne, Et in E by exact HK. now apply (IH K).
Qed.

(** X14: the expression table sorts the instructions it holds by
    expression.  For a function whose instructions are distinct objects,
    every bucket is non-empty and lists each instruction once; an
    instruction sits in the bucket of its own key and in no other; and
    the instructions of the table are analyzable and not redundant. *)
Theorem expression_table_partition (Args : list nat)
  (K : ExpressionKey) (bucket : list InstrId) :
  NoDup (instrIds (preorder DT)) ->
  ExpressionTable (fst (analyze DT Args)) !! K = Some bucket ->
  bucket <> [] /\ NoDup bucket
  /\ (forall i, In i bucket ->
        exists Inst, In Inst (instructions (preorder DT)) /\ iid Inst = i
                     /\ isAnalyzable Inst = true
                     /\ keyOf (fst (analyze DT Args)) Inst = K
                     /\ isRedundant (run DT Args) i = false)
  /\ (forall K' bucket' i,
        ExpressionTable (fst (analyze DT Args)) !! K' = Some bucket' ->
        In i bucket -> In i bucket' -> K' = K).
Proof.
  intros Hnd E.
  pose proof (stateAfter_buckets Args _ Hnd K bucket) as Hb.
  pose proof (stateAfter_keyInv Args (instructions (preorder DT)))
    as (K1 & _ & _).
  pose proof (stateAfter_analysisInv Args _ Hnd) as (A1 & _ & _).
  rewrite <- analyze_stateAfter in Hb, K1, A1.
  destruct (Hb E) as [Hne Hndb]. split; [exact Hne|]. split; [exact Hndb|].
  split.
  - intros i Hi. destruct (K1 K bucket i E Hi) as (J & HJ & Hid & _ & HK).
    exists J. split; [exact HJ|]. split; [exact Hid|].
    destruct (A1 i) as [(J' & HJ' & Hid' & Ha) Hnone]; [now exists K, bucket|].
    assert (J' = J)
      by (apply (NoDup_iid_inj _ J' J Hnd HJ' HJ); congruence).
    subst J'. split; [exact Ha|]. split; [now symmetry|].
    unfold isRedundant, run. apply bool_decide_eq_false. rewrite Hnone.
    now intros [? ?].
  - intros K' bucket' i E' Hi Hi'.
    destruct (K1 K bucket i E Hi) as (J & HJ & Hid & _ & ->).
    destruct (K1 K' bucket' i E' Hi') as (J' & HJ' & Hid' & _ & ->).
    assert (J' = J)
      by (apply (NoDup_iid_inj _ J' J Hnd HJ' HJ); congruence).
    now subst J'.
Qed.

(** *** Every value of the function is numbered *)

Lemma processInstruction_extends st Inst :
  extends (fst st) (fst (processInstruction st Inst)).
Proof.
  destruct st as [VNT RI]. cbn [fst].
  unfold RedundancyAnalysis.processInstruction.
  destruct (isAnalyzable Inst); cbn [negb fst];
    [|apply getValueNumber_extends].
  pose proof (createExpressionKey_extends VNT Inst) as He.
  destruct (createExpressionKey VNT Inst) as [Key VNT1]. cbn [snd] in He.
  destruct (findAvailableValue VNT1 Key (iid Inst) DT); cbn [fst].
  - eapply extends_trans; [exact He | apply getValueNumber_extends].
  - eapply extends_trans; [exact He|].
    apply (extends_trans _ (addExpression VNT1 Key (iid Inst)));
      [now intros V n | apply getValueNumber_extends].
Qed.

Lemma processInstructions_extends l st :
  extends (fst st) (fst (fold_left processInstruction l st)).
Proof.
  revert st. induction l as [|Inst l IH]; intros st; [apply extends_refl|].
  cbn [fold_left].
  eapply extends_trans; [apply processInstruction_extends | apply IH].
Qed.

Lemma numberArguments_snoc Args a :
  numberArguments (Args ++ [a])
  = snd (getValueNumber (numberArguments Args) (VArgument a)).
Proof. unfold numberArguments. now rewrite fold_left_app. Qed.

(** The arguments are numbered 1, 2, ... in their order. *)
Lemma numberArguments_spec Args :
  NoDup Args -> N.of_nat (length Args) + 1 < 2 ^ 32 ->
  NextValueNumber (numberArguments Args) = N.of_nat (length Args) + 1
  /\ (forall V, is_Some (ValueNumbers (numberArguments Args) !! V) ->
        exists a, In a Args /\ V = VArgument a)
  /\ (forall i a, Args !! i = Some a ->
        ValueNumbers (numberArguments Args) !! VArgument a
        = Some (N.of_nat (S i))).
Proof.
  induction Args as [|a Args IH] using rev_ind; intros Hnd Hlen.
  - split; [reflexivity|]. split.
    + intros V [n Hn]. cbn in Hn. rewrite lookup_empty in Hn.
      discriminate.
    + intros i a Hi. discriminate.
  - rewrite length_app in Hlen. cbn [length] in Hlen.
    apply NoDup_app in Hnd as (Hnd & Hdis & _).
    destruct (IH Hnd ltac:(lia)) as (Hnext & Hdom & Hnum).
    assert (Hnew : ValueNumbers (numberArguments Args) !! VArgument a
                   = None).
    { destruct (ValueNumbers (numberArguments Args) !! VArgument a)
        as [n|] eqn:E; [|reflexivity].
      exfalso. destruct (Hdom (VArgument a)) as (b & Hb & [= <-]);
        [eauto|].
      apply (Hdis a); [now apply list_elem_of_In | now left]. }
    rewrite numberArguments_snoc. unfold getValueNumber. rewrite Hnew.
    cbn [snd NextValueNumber ValueNumbers]. rewrite Hnext, length_app.
    cbn [length]. split; [|split].
    + rewrite wrap32_small by lia. lia.
    + intros V HV. destruct (decide (VArgument a = V)) as [<-|Hne].
      * exists a. split; [apply in_or_app; right; now left | reflexivity].
      * rewrite lookup_insert_ne in HV by exact Hne.
        destruct (Hdom V HV) as (b & Hb & ->).
        exists b. split; [apply in_or_app; now left | reflexivity].
    + intros i b Hi. apply lookup_app_Some in Hi.
      destruct Hi as [Hi|[Hge Hi]].
      * rewrite lookup_insert_ne; [now apply Hnum|].
        intros [= <-]. apply (Hdis a); [|now left].
        now apply (list_elem_of_lookup_2 _ i).
      * destruct (i - length Args)%nat as [|j] eqn:Ej; [|discriminate].
        injection Hi as <-. rewrite lookup_insert_eq. f_equal. lia.
Qed.

(** X15: the analysis numbers every value it meets, provided the 32-bit
    counter cannot overflow.  The arguments hold the numbers 1, 2, ... in
    their order; every instruction and every operand of an analyzable
    instruction has a number other than 0; and two values with the same
    non-zero number are the same value. *)
Theorem analysis_numbers_every_value (Args : list nat) :
  NoDup Args ->
  NoDup (instrIds (preorder DT)) ->
  N.of_nat (length Args + valueBudget (instructions (preorder DT))) + 1
    < 2 ^ 32 ->
  let VNT := fst (analyze DT Args) in
  (forall i a, Args !! i = Some a ->
     lookupValueNumber VNT (VArgument a) = N.of_nat (S i))
  /\ (forall Inst, In Inst (instructions (preorder DT)) ->
        lookupValueNumber VNT (VInstruction (iid Inst)) <> 0)
  /\ (forall Inst v, In Inst (instructions (preorder DT)) ->
        isAnalyzable Inst = true -> In v (operands Inst) ->
        lookupValueNumber VNT v <> 0)
  /\ (forall V W, lookupValueNumber VNT V = lookupValueNumber VNT W ->
        lookupValueNumber VNT V <> 0 -> V = W).
Proof.
  intros HndA Hnd Hbud VNT.
  destruct (analyze_numberingInv Args Hbud) as [Hw _]. fold VNT in Hw.
  assert (Hnz : forall V, is_Some (ValueNumbers VNT !! V) ->
                  lookupValueNumber VNT V <> 0).
  { intros V [n Hn] Hz. apply (lookupValueNumber_zero VNT V Hw) in Hz.
    congruence. }
  pose proof (stateAfter_keyInv Args (instructions (preorder DT)))
    as (K1 & K2 & K3).
  pose proof (stateAfter_analysisInv Args _ Hnd) as (_ & _ & A3).
  rewrite <- analyze_stateAfter in K1, K2, K3, A3. fold VNT in K1, K2, K3, A3.
  split; [|split; [|split]].
  - intros i a Hi. apply lookupValueNumber_Some.
    destruct (numberArguments_spec Args HndA ltac:(lia)) as (_ & _ & Hnum).
    unfold VNT, analyze. rewrite processBlocks_flat.
    apply (processInstructions_extends _ (numberArguments Args, emptyInfo)).
    now apply Hnum.
  - intros Inst HI. now apply Hnz, A3.
  - intros Inst v HI Ha Hv. apply Hnz.
    assert (Hn : operandsNumbered VNT Inst).
    { destruct (K3 Inst HI Ha) as [(K & b & Eb & Hin)|[P HP]].
      - destruct (K1 K b _ Eb Hin) as (J & HJ & Hid & HnJ & _).
        now rewrite <- (NoDup_iid_inj _ J Inst Hnd HJ HI Hid).
      - destruct (K2 _ _ HP) as (J & HJ & Hid & HnJ & _).
        now rewrite <- (NoDup_iid_inj _ J Inst Hnd HJ HI Hid). }
    now apply Hn.
  - intros V W E HV.
    assert (HsV : is_Some (ValueNumbers VNT !! V)).
    { destruct (ValueNumbers VNT !! V) eqn:EV; [eauto|].
      exfalso. apply HV. now apply lookupValueNumber_zero. }
    assert (HsW : is_Some (ValueNumbers VNT !! W)).
    { destruct (ValueNumbers VNT !! W) eqn:EW; [eauto|].
      exfalso. apply HV. rewrite E. now apply lookupValueNumber_zero. }
    now apply (lookupValueNumber_inj VNT).
Qed.

End AnalysisExpressions.

Section AnalysisWitnesses.
Import IR RedundancyAnalysis.

Lemma replacement_same_expression_witness :
  sameExpression
    (Examples.instr 3 Add Examples.i32 [VArgument 1; VArgument 0])
    (Examples.instr 2 Add Examples.i32 [VArgument 0; VArgument 1]).
Proof.
  apply (replacement_same_expression
           (Examples.singleBlockDT Examples.commutativePair) [0; 1]%nat).
  - distinct_ids.
  - vm_compute. reflexivity.
  - right. now left.
  - now left.
  - vm_compute. reflexivity.
Defined.

Lemma repeated_expression_is_redundant_witness :
  isRedundant
    (run (Examples.singleBlockDT Examples.commutativePair) [0; 1]%nat)
    3%nat = true.
Proof.
  apply (repeated_expression_is_redundant
           (Examples.singleBlockDT Examples.commutativePair) [0; 1]%nat
           []
           (Examples.instr 2 Add Examples.i32 [VArgument 0; VArgument 1])
           []
           (Examples.instr 3 Add Examples.i32 [VArgument 1; VArgument 0])
           [ Examples.instr 4 Add Examples.i32
               [VInstruction 2; VInstruction 3];
             Examples.instr 5 Ret Examples.void [VInstruction 4] ]).
  - reflexivity.
  - distinct_ids.
  - intros a b c H1 H2. cbn in *.
    apply Nat.ltb_lt in H1, H2. apply Nat.ltb_lt. lia.
  - reflexivity.
  - reflexivity.
  - split; [reflexivity|]. split; [reflexivity|].
    split; [discriminate|]. split; [discriminate|].
    right. split; [reflexivity|].
    now exists (VArgument 0), (VArgument 1).
  - reflexivity.
Defined.

Lemma analyzable_iff_recorded_witness :
  let DT := Examples.singleBlockDT Examples.commutativePair in
  let Inst := Examples.instr 5 Ret Examples.void [VInstruction 4] in
  (isAnalyzable Inst = true
   <-> inTable (fst (analyze DT [0; 1]%nat)) (iid Inst)
       \/ isRedundant (run DT [0; 1]%nat) (iid Inst) = true)
  /\ ~ (inTable (fst (analyze DT [0; 1]%nat)) (iid Inst)
        /\ isRedundant (run DT [0; 1]%nat) (iid Inst) = true).
Proof.
  cbv zeta.
  apply (analyzable_iff_recorded
           (Examples.singleBlockDT Examples.commutativePair) [0; 1]%nat).
  - distinct_ids.
  - right. right. right. now left.
Defined.

Lemma analysis_statistics_witness :
  let RI := run (Examples.singleBlockDT Examples.commutativePair)
                [0; 1]%nat in
  TotalInstructions (Statistics RI) = wrap32 4
  /\ RedundantCount (Statistics RI)
     = wrap32 (N.of_nat (size (RedundantInstructions RI))).
Proof.
  cbv zeta.
  destruct (analysis_statistics
              (Examples.singleBlockDT Examples.commutativePair) [0; 1]%nat)
    as (Ht & Hr & _).
  - distinct_ids.
  - split; [exact Ht | exact Hr].
Defined.

Lemma analysis_numbers_every_value_witness :
  lookupValueNumber
    (fst (analyze (Examples.singleBlockDT Examples.commutativePair)
            [0; 1]%nat))
    (VArgument 1) = 2.
Proof.
  destruct (analysis_numbers_every_value
              (Examples.singleBlockDT Examples.commutativePair) [0; 1]%nat)
    as (Ha & _).
  - distinct_ids.
  - distinct_ids.
  - vm_compute. reflexivity.
  - now apply (Ha 1%nat 1%nat).
Defined.

Lemma expression_table_partition_witness :
  let DT := Examples.singleBlockDT Examples.commutativePair in
  let VNT := fst (analyze DT [0; 1]%nat) in
  let K := {| Opcode := Add; OperandValueNumbers := [1; 2];
              ResultType := Examples.i32; Predicate := 0;
              InBounds := false |} in
  let bucket := [2%nat] in
  bucket <> [] /\ NoDup bucket
  /\ (forall i, In i bucket ->
        exists Inst, In Inst (instructions (preorder DT)) /\ iid Inst = i
                     /\ isAnalyzable Inst = true
                     /\ keyOf VNT Inst = K
                     /\ isRedundant (run DT [0; 1]%nat) i = false)
  /\ (forall K' bucket' i,
        ExpressionTable VNT !! K' = Some bucket' ->
        In i bucket -> In i bucket' -> K' = K).
Proof.
  cbv zeta.
  apply (expression_table_partition
           (Examples.singleBlockDT Examples.commutativePair) [0; 1]%nat).
  - distinct_ids.
  - vm_compute. reflexivity.
Defined.

End AnalysisWitnesses.

(** ** Redundancy eliminator on the results of the analysis *)

Section EliminationOfAnalysis.
Import IR RedundancyElimination.

Local Abbreviation RedundantInstructions :=
  RedundancyAnalysis.RedundantInstructions.
Local Abbreviation preorder := RedundancyAnalysis.preorder.
Local Abbreviation isRedundant := RedundancyAnalysis.isRedundant.

Lemma getType_In F Inst :
  NoDup (instrIds F) -> In Inst (instructions F) ->
  getType F (iid Inst) = Some (ty Inst).
Proof.
  intros Hnd Hin. unfold getType. now rewrite findInstr_NoDup.
Qed.

(** The analysis only pairs instructions of one result type, so the type
    check of the eliminator never fails on its results. *)
Lemma replacement_types_agree F DT Args R P :
  NoDup (instrIds F) -> treeOf F DT ->
  RedundantInstructions (RedundancyAnalysis.run DT Args) !! R = Some P ->
  getType F R = getType F P /\ In R (instrIds F).
Proof.
  intros Hnd Htree Hmap.
  pose proof (stateAfter_keyInv DT Args (instructions (preorder DT)))
    as (K1 & K2 & _).
  rewrite <- analyze_stateAfter in K1, K2.
  destruct (K2 _ _ Hmap) as (IR & HR & <- & _ & bucket & Eb & Hin).
  destruct (K1 _ _ _ Eb Hin) as (IP & HP & <- & _ & HK).
  rewrite (getType_In F IR Hnd (Htree _ HR)),
          (getType_In F IP Hnd (Htree _ HP)).
  split; [|unfold instrIds; apply in_map; now apply Htree].
  f_equal. exact (f_equal RedundancyAnalysis.ResultType HK).
Qed.

Lemma matched_all F l :
  (forall r p, In (r, p) l -> getType F r = getType F p) ->
  omap (matchedEntry F) (entriesOf l) = l.
Proof.
  induction l as [|[r p] l IH]; intros H; [reflexivity|].
  cbn [entriesOf map omap list_omap fst snd].
  rewrite (matchedEntry_eq F r p) by (apply H; now left).
  f_equal. apply IH. intros r' p' Hin. apply H. now right.
Qed.

(** The eliminator in closed form, when every entry is acted upon. *)
Lemma eliminateRedundancies_all F l n :
  (forall r p, In (r, p) l -> getType F r = getType F p) ->
  NoDup (l.*1) -> chainFree l ->
  eliminateRedundancies F (entriesOf l) n
  = (fold_left eraseFromParent (l.*1)
       (mapInstrs (redirectOperands (list_to_map l)) F),
     negb (bool_decide (l = [])),
     Nat.iter (length l) (fun c => wrap32 (c + 1)) n).
Proof.
  intros Hty Hnd Hcf. pose proof (matched_all F l Hty) as Hm.
  destruct l as [|e l].
  - cbn. now rewrite mapInstrs_id.
  - rewrite eliminateRedundancies_nonempty by discriminate.
    destruct (eliminate_fold_closed_form F (entriesOf (e :: l))
                (elimStart F n)) as (Hb & Hd & Hn);
      [reflexivity | now rewrite Hm | now rewrite Hm |].
    rewrite Hm in Hb, Hd, Hn. rewrite Hb, Hd, Hn.
    cbn [elimStart body ToDelete InstructionsEliminated app].
    reflexivity.
Qed.

Lemma map_bid_mapInstrs f F : map bid (mapInstrs f F) = map bid F.
Proof. unfold mapInstrs. rewrite map_map. now apply map_ext. Qed.

Lemma map_bid_erase_all l F :
  map bid (fold_left eraseFromParent l F) = map bid F.
Proof.
  rewrite erase_all_closed_form, map_map. now apply map_ext.
Qed.

Section Results.
Variable F : Function.
Variable DT : RedundancyAnalysis.DominatorTree.
Variable Args : list nat.
Variable order : gmap InstrId InstrId -> list (InstrId * InstrId).
Hypothesis F_distinct : NoDup (instrIds F).
Hypothesis DT_distinct : NoDup (instrIds (preorder DT)).
Hypothesis DT_of_F : treeOf F DT.
Hypothesis order_once : visitsOnce order.

Local Abbreviation RI := (RedundancyAnalysis.run DT Args).
Local Abbreviation M := (RedundantInstructions RI).

Lemma order_lookup r p : In (r, p) (order M) <-> M !! r = Some p.
Proof.
  rewrite <- elem_of_map_to_list, <- (order_once M).
  symmetry. apply list_elem_of_In.
Qed.

Lemma order_keys r : r ∈ (order M).*1 <-> isRedundant RI r = true.
Proof.
  unfold RedundancyAnalysis.isRedundant. rewrite bool_decide_eq_true.
  split.
  - intros H. apply list_elem_of_fmap in H. destruct H as ([r' p] & -> & H).
    exists p. apply order_lookup. now apply list_elem_of_In.
  - intros [p Hp]. apply list_elem_of_fmap. exists (r, p).
    split; [reflexivity|]. apply list_elem_of_In. now apply order_lookup.
Qed.

Lemma order_NoDup : NoDup ((order M).*1).
Proof. rewrite (order_once M). apply NoDup_fst_map_to_list. Qed.

Lemma order_map : list_to_map (order M) = M.
Proof.
  rewrite (list_to_map_proper _ _ order_NoDup (order_once M)).
  apply list_to_map_to_list.
Qed.

Lemma order_chainFree : chainFree (order M).
Proof.
  intros r p Hin Hp. apply order_lookup in Hin.
  apply in_map_iff in Hp. destruct Hp as ([p' q] & Hfst & Hp).
  cbn in Hfst. subst p'. apply order_lookup in Hp.
  destruct (analyze_inv DT Args DT_distinct) as (Ha & Hb & _).
  destruct (Hb r p Hin) as (_ & _ & _ & HP).
  destruct (Ha p HP) as [_ Hnone].
  unfold RedundancyAnalysis.run in Hp. congruence.
Qed.

Lemma order_empty : order M = [] <-> M = ∅.
Proof.
  split.
  - intros E. rewrite <- order_map, E. reflexivity.
  - intros E. apply Permutation_nil_r. rewrite (order_once M), E.
    now rewrite map_to_list_empty.
Qed.

Lemma run_closed_form :
  RedundancyElimination.run order F Args DT
  = (fold_left eraseFromParent ((order M).*1)
       (mapInstrs (redirectOperands M) F),
     if bool_decide (M = ∅) then PreservedAll else PreservedCFGAndDomTree).
Proof.
  unfold RedundancyElimination.run.
  rewrite (eliminateRedundancies_all F (order M) 0).
  - rewrite order_map, negb_involutive.
    destruct (decide (M = ∅)) as [E|E].
    + rewrite (bool_decide_eq_true_2 _ E).
      now rewrite (bool_decide_eq_true_2 _ (proj2 order_empty E)).
    + rewrite (bool_decide_eq_false_2 _ E).
      rewrite bool_decide_eq_false_2; [reflexivity|].
      intros E'. now apply E, order_empty.
  - intros r p Hin. apply order_lookup in Hin.
    now apply (replacement_types_agree F DT Args r p).
  - exact order_NoDup.
  - exact order_chainFree.
Qed.

Lemma run_instrIds :
  instrIds (fst (RedundancyElimination.run order F Args DT))
  = filter (fun j => isRedundant RI j = false) (instrIds F).
Proof.
  rewrite run_closed_form. cbn [fst].
  rewrite instrIds_erase_all, instrIds_mapInstrs by reflexivity.
  apply list_filter_iff. intros j. rewrite order_keys.
  now destruct (isRedundant RI j).
Qed.

Lemma run_cases_eliminator :
  (RedundantInstructions RI = ∅
   /\ RedundancyElimination.run order F Args DT = (F, PreservedAll))
  \/ (snd (RedundancyElimination.run order F Args DT)
        = PreservedCFGAndDomTree
      /\ RedundantInstructions RI <> ∅
      /\ exists r, In r (instrIds F)
           /\ ~ In r (instrIds
                        (fst (RedundancyElimination.run order F Args DT)))).
Proof.
  pose proof run_instrIds as Hids. revert Hids.
  rewrite run_closed_form. cbn [fst snd]. intros Hids.
  destruct (decide (M = ∅)) as [E|E].
  - left. split; [exact E|]. rewrite (bool_decide_eq_true_2 _ E).
    rewrite (proj2 order_empty E), E. cbn. now rewrite mapInstrs_id.
  - right. rewrite (bool_decide_eq_false_2 _ E).
    split; [reflexivity|]. split; [exact E|].
    destruct (map_choose _ E) as (r & p & Hrp).
    destruct (replacement_types_agree F DT Args r p F_distinct DT_of_F Hrp)
      as [_ Hin].
    exists r. split; [exact Hin|]. rewrite Hids. intros Hr.
    apply list_elem_of_In, list_elem_of_filter in Hr. destruct Hr as [Hr _].
    unfold RedundancyAnalysis.isRedundant in Hr.
    apply bool_decide_eq_false in Hr. apply Hr. eauto.
Qed.

Lemma run_uses j :
  usedIn (fst (RedundancyElimination.run order F Args DT)) j ->
  RedundantInstructions RI !! j = None
  /\ (usedIn F j
      \/ exists Inst, In Inst (instructions (preorder DT)) /\ iid Inst = j).
Proof.
  pose proof run_closed_form as Hrun.
  assert (Hins : instructions
                   (fst (RedundancyElimination.run order F Args DT))
                 = filter (fun Inst => iid Inst ∉ (order M).*1)
                     (map (redirectOperands M) (instructions F))).
  { rewrite Hrun. cbn [fst].
    now rewrite instructions_erase_all, instructions_mapInstrs. }
  destruct (analyze_inv DT Args DT_distinct) as (Ha & Hb & _).
  intros (Inst' & Hin & Hop). rewrite Hins in Hin.
  apply list_elem_of_In, list_elem_of_filter in Hin.
  destruct Hin as [_ Hin]. apply list_elem_of_In, in_map_iff in Hin.
  destruct Hin as (Inst & <- & Hin). cbn [redirectOperands operands
    setOperands] in Hop.
  apply in_map_iff in Hop. destruct Hop as (v & Hv & Hvin).
  destruct v as [a|c|i|b]; try discriminate. cbn [redirect] in Hv.
  destruct (M !! i) as [p|] eqn:Ei.
  - injection Hv as <-. destruct (Hb i p Ei) as (_ & _ & _ & HP).
    destruct (Ha p HP) as [(J & HJ & Hid & _) Hnone].
    split; [exact Hnone|]. right. now exists J.
  - injection Hv as <-. split; [exact Ei|]. left. now exists Inst.
Qed.

Lemma run_closedUses :
  closedUses F ->
  closedUses (fst (RedundancyElimination.run order F Args DT)).
Proof.
  intros Hclosed j Hj. destruct (run_uses j Hj) as [Hnone Hsrc].
  rewrite run_instrIds. apply list_elem_of_In, list_elem_of_filter. split.
  - unfold RedundancyAnalysis.isRedundant. apply bool_decide_eq_false.
    rewrite Hnone. now intros [? ?].
  - apply list_elem_of_In.
    destruct Hsrc as [HF|(J & HJ & <-)]; [now apply Hclosed|].
    unfold instrIds. apply in_map. now apply DT_of_F.
Qed.

End Results.

(** X16: on the results of the analysis the eliminator acts on every
    entry of the map, whatever the order it visits them in: the type check
    never fails.  The function that comes back has the same blocks; its
    instructions are those of the input that the analysis did not record
    as redundant, in their order, with every operand that was a redundant
    instruction replaced by the replacement of that instruction. *)
Theorem run_removes_every_redundant_instruction (F : Function)
  (DT : RedundancyAnalysis.DominatorTree) (Args : list nat)
  (order : gmap InstrId InstrId -> list (InstrId * InstrId)) :
  NoDup (instrIds F) ->
  NoDup (instrIds (preorder DT)) ->
  treeOf F DT ->
  visitsOnce order ->
  let RI := RedundancyAnalysis.run DT Args in
  let F' := fst (RedundancyElimination.run order F Args DT) in
  instructions F'
  = filter (fun Inst => isRedundant RI (iid Inst) = false)
           (map (redirectOperands (RedundantInstructions RI))
                (instructions F))
  /\ map bid F' = map bid F.
Proof.
  intros HF HDT Htree Hord. cbv zeta.
  rewrite (run_closed_form F DT Args order HF HDT Htree Hord). cbn [fst].
  split.
  - rewrite instructions_erase_all, instructions_mapInstrs.
    apply list_filter_iff. intros Inst.
    rewrite (order_keys DT Args order Hord).
    now destruct (isRedundant (RedundancyAnalysis.run DT Args) (iid Inst)).
  - now rewrite map_bid_erase_all, map_bid_mapInstrs.
Qed.

(** X17: the eliminator reports every analysis preserved exactly when the
    analysis found no redundancy, which is exactly when the function comes
    back as it was; otherwise it reports the control-flow graph and the
    dominator tree preserved. *)
Theorem run_preserves_all_iff_unchanged (F : Function)
  (DT : RedundancyAnalysis.DominatorTree) (Args : list nat)
  (order : gmap InstrId InstrId -> list (InstrId * InstrId)) :
  NoDup (instrIds F) ->
  NoDup (instrIds (preorder DT)) ->
  treeOf F DT ->
  visitsOnce order ->
  let RI := RedundancyAnalysis.run DT Args in
  let F' := fst (RedundancyElimination.run order F Args DT) in
  let PA := snd (RedundancyElimination.run order F Args DT) in
  (PA = PreservedAll <-> RedundancyAnalysis.hasRedundancies RI = false)
  /\ (PA = PreservedAll <-> F' = F)
  /\ (PA = PreservedAll \/ PA = PreservedCFGAndDomTree).
Proof.
  intros HF HDT Htree Hord. cbv zeta.
  unfold RedundancyAnalysis.hasRedundancies.
  destruct (run_cases_eliminator F DT Args order HF HDT Htree Hord)
    as [[E ->]|(-> & E & r & Hr & Hnr)]; cbn [fst snd].
  - rewrite (bool_decide_eq_true_2 _ E). cbn. tauto.
  - rewrite (bool_decide_eq_false_2 _ E). cbn.
    split; [split; discriminate|]. split; [|now right].
    split; [discriminate|]. intros HF'. rewrite HF' in Hnr. contradiction.
Qed.

(** X18: the eliminator leaves no use of an instruction it removes: no
    operand of the result is an instruction recorded as redundant.  If
    every instruction operand of the input was defined in the input, the
    same holds of the result. *)
Theorem run_leaves_no_use_of_removed (F : Function)
  (DT : RedundancyAnalysis.DominatorTree) (Args : list nat)
  (order : gmap InstrId InstrId -> list (InstrId * InstrId)) :
  NoDup (instrIds F) ->
  NoDup (instrIds (preorder DT)) ->
  treeOf F DT ->
  visitsOnce order ->
  let RI := RedundancyAnalysis.run DT Args in
  let F' := fst (RedundancyElimination.run order F Args DT) in
  (forall j, usedIn F' j -> isRedundant RI j = false)
  /\ (closedUses F -> closedUses F').
Proof.
  intros HF HDT Htree Hord. cbv zeta.
  split; [|exact (run_closedUses F DT Args order HF HDT Htree Hord)].
  intros j Hj.
  destruct (run_uses F DT Args order HF HDT Htree Hord j Hj) as [Hnone _].
  unfold RedundancyAnalysis.isRedundant. apply bool_decide_eq_false.
  rewrite Hnone. now intros [? ?].
Qed.

(** X19: what the eliminator writes is equivalent to what it removes.
    Provided the counter of value numbers cannot overflow, every
    instruction of the result is an instruction of the input in which an
    operand slot either is as it was or held a redundant instruction and
    now holds another instruction that dominates it and computes the same
    expression. *)
Theorem replaced_operands_are_equivalent (F : Function)
  (DT : RedundancyAnalysis.DominatorTree) (Args : list nat)
  (order : gmap InstrId InstrId -> list (InstrId * InstrId))
  (Inst' : Instruction) :
  NoDup (instrIds F) ->
  NoDup (instrIds (preorder DT)) ->
  treeOf F DT ->
  visitsOnce order ->
  N.of_nat (length Args + valueBudget (instructions (preorder DT))) + 1
    < 2 ^ 32 ->
  In Inst' (instructions (fst (RedundancyElimination.run order F Args DT)))
  ->
  exists Inst,
    In Inst (instructions F)
    /\ Inst' = setOperands Inst (operands Inst')
    /\ Forall2 (redirectedOperand DT) (operands Inst) (operands Inst').
Proof.
  intros HF HDT Htree Hord Hbud Hin.
  rewrite (run_closed_form F DT Args order HF HDT Htree Hord) in Hin.
  cbn [fst] in Hin.
  rewrite instructions_erase_all, instructions_mapInstrs in Hin.
  apply list_elem_of_In, list_elem_of_filter in Hin.
  destruct Hin as [_ Hin]. apply list_elem_of_In, in_map_iff in Hin.
  destruct Hin as (Inst & <- & Hin).
  exists Inst. split; [exact Hin|]. split; [reflexivity|].
  cbn [redirectOperands operands setOperands].
  destruct (analyze_inv DT Args HDT) as (_ & Hb & _).
  induction (operands Inst) as [|v ops IH]; cbn [map]; constructor;
    [|exact IH].
  destruct v as [a|c|i|b]; try (now left). cbn [redirect].
  destruct (RedundantInstructions (RedundancyAnalysis.run DT Args) !! i)
    as [p|] eqn:Ei; [|now left].
  right.
  destruct (redundant_pair DT Args i p Hbud Ei)
    as (IR & IP & HIR & <- & HIP & <- & Hsame).
  destruct (Hb _ _ Ei) as (_ & Hne & Hdom & _).
  exists IR, IP. split; [reflexivity|]. split; [reflexivity|].
  split; [exact HIR|]. split; [exact HIP|]. split; [exact Hsame|].
  split; [exact Hne | exact Hdom].
Qed.

Lemma run_removes_every_redundant_instruction_witness :
  let F := Examples.commutativePair in
  let DT := Examples.singleBlockDT F in
  let RI := RedundancyAnalysis.run DT [0; 1]%nat in
  let F' := fst (RedundancyElimination.run map_to_list F [0; 1]%nat DT) in
  instructions F'
  = filter (fun Inst => isRedundant RI (iid Inst) = false)
           (map (redirectOperands (RedundantInstructions RI))
                (instructions F))
  /\ map bid F' = map bid F.
Proof.
  cbv zeta.
  apply (run_removes_every_redundant_instruction Examples.commutativePair
           (Examples.singleBlockDT Examples.commutativePair) [0; 1]%nat
           map_to_list).
  - distinct_ids.
  - distinct_ids.
  - intros Inst H. exact H.
  - intros m. reflexivity.
Defined.

Lemma run_preserves_all_iff_unchanged_witness :
  let F := Examples.commutativePair in
  let DT := Examples.singleBlockDT F in
  let RI := RedundancyAnalysis.run DT [0; 1]%nat in
  let F' := fst (RedundancyElimination.run map_to_list F [0; 1]%nat DT) in
  let PA := snd (RedundancyElimination.run map_to_list F [0; 1]%nat DT) in
  (PA = PreservedAll <-> RedundancyAnalysis.hasRedundancies RI = false)
  /\ (PA = PreservedAll <-> F' = F)
  /\ (PA = PreservedAll \/ PA = PreservedCFGAndDomTree).
Proof.
  cbv zeta.
  apply (run_preserves_all_iff_unchanged Examples.commutativePair
           (Examples.singleBlockDT Examples.commutativePair) [0; 1]%nat
           map_to_list).
  - distinct_ids.
  - distinct_ids.
  - intros Inst H. exact H.
  - intros m. reflexivity.
Defined.

Lemma replaced_operands_are_equivalent_witness :
  let F := Examples.commutativePair in
  let DT := Examples.singleBlockDT F in
  let Inst' := Examples.instr 4 Add Examples.i32
                 [VInstruction 2; VInstruction 2] in
  exists Inst,
    In Inst (instructions F)
    /\ Inst' = setOperands Inst (operands Inst')
    /\ Forall2 (redirectedOperand DT) (operands Inst) (operands Inst').
Proof.
  cbv zeta.
  apply (replaced_operands_are_equivalent Examples.commutativePair
           (Examples.singleBlockDT Examples.commutativePair) [0; 1]%nat
           map_to_list).
  - distinct_ids.
  - distinct_ids.
  - intros Inst H. exact H.
  - intros m. reflexivity.
  - vm_compute. reflexivity.
  - vm_compute. right. now left.
Defined.

Lemma run_leaves_no_use_of_removed_witness :
  let F := Examples.commutativePair in
  let DT := Examples.singleBlockDT F in
  let RI := RedundancyAnalysis.run DT [0; 1]%nat in
  let F' := fst (RedundancyElimination.run map_to_list F [0; 1]%nat DT) in
  (forall j, usedIn F' j -> isRedundant RI j = false)
  /\ (closedUses F -> closedUses F').
Proof.
  cbv zeta.
  apply (run_leaves_no_use_of_removed Examples.commutativePair
           (Examples.singleBlockDT Examples.commutativePair) [0; 1]%nat
           map_to_list).
  - distinct_ids.
  - distinct_ids.
  - intros Inst H. exact H.
  - intros m. reflexivity.
Defined.

End EliminationOfAnalysis.

(** ** Loop analyzer: further properties *)

Section LoopAnalyzerMore.
Import IR LoopUnrolling.

Lemma analyzeLoop_Strategy cfg l :
  Strategy (analyzeLoop cfg l)
  = if hasSideEffects l && negb (UnrollLoopsWithCalls cfg) then NoUnroll
    else if (0 <? computeTripCount l)
            && (computeTripCount l <=? FullUnrollMaxCount cfg)
            && (wrap32 (countInstructions l * computeTripCount l)
                <=? FullUnrollMaxInstructions cfg)
    then FullUnroll
    else if 0 <? computeTripCount l then PartialUnroll
    else if AllowRuntimeUnroll cfg && isSimpleLoop l then RuntimeUnroll
    else NoUnroll.
Proof. reflexivity. Qed.

Lemma analyzeLoop_UnrollFactor cfg l :
  UnrollFactor (analyzeLoop cfg l)
  = match Strategy (analyzeLoop cfg l) with
    | FullUnroll => computeTripCount l
    | PartialUnroll =>
        N.of_nat
          (adjustToSize cfg (countInstructions l)
             (adjustToDivisor (computeTripCount l)
                (N.to_nat (PartialUnrollFactor cfg))))
    | RuntimeUnroll => PartialUnrollFactor cfg
    | NoUnroll => 1
    end.
Proof. reflexivity. Qed.

Lemma adjustToDivisor_S TC (F : nat) :
  adjustToDivisor TC (S (S F))
  = if negb (TC mod N.of_nat (S (S F)) =? 0)
    then adjustToDivisor TC (S F) else S (S F).
Proof. reflexivity. Qed.

(** The first loop of [calculateUnrollFactor] stops at the largest divisor
    of the trip count that does not exceed the starting factor. *)
Lemma adjustToDivisor_spec TC (P : nat) :
  (1 <= P)%nat ->
  (1 <= adjustToDivisor TC P <= P)%nat
  /\ TC mod N.of_nat (adjustToDivisor TC P) = 0
  /\ forall F, (adjustToDivisor TC P < F <= P)%nat ->
       TC mod N.of_nat F <> 0.
Proof.
  induction P as [|P IH]; [lia|]. intros _. destruct P as [|P].
  { cbn. split; [lia|]. split; [apply N.mod_1_r | intros; lia]. }
  rewrite adjustToDivisor_S.
  destruct (TC mod N.of_nat (S (S P)) =? 0) eqn:E; cbn [negb].
  - apply N.eqb_eq in E. split; [lia|]. split; [exact E | intros; lia].
  - apply N.eqb_neq in E. destruct IH as (Hr & Hd & Hmax); [lia|].
    split; [lia|]. split; [exact Hd|]. intros F HF.
    destruct (decide (F = S (S P))) as [->|Hne]; [exact E|].
    apply Hmax. lia.
Qed.

Lemma adjustToDivisor_0 TC : adjustToDivisor TC 0 = 0%nat.
Proof. reflexivity. Qed.

Lemma adjustToSize_ext cfg cfg' IC D :
  MaxUnrolledSize cfg = MaxUnrolledSize cfg' ->
  adjustToSize cfg IC D = adjustToSize cfg' IC D.
Proof.
  intros E. induction D as [|D IH]; [reflexivity|]. destruct D as [|D];
    [reflexivity|].
  rewrite !adjustToSize_S, E, IH. reflexivity.
Qed.

Lemma strategy_sideEffects cfg l :
  Strategy (analyzeLoop cfg l) <> NoUnroll ->
  hasSideEffects l = true -> UnrollLoopsWithCalls cfg = true.
Proof.
  rewrite analyzeLoop_Strategy. intros Hs Hse. rewrite Hse in Hs.
  destruct (UnrollLoopsWithCalls cfg); [reflexivity|]. now cbn in Hs.
Qed.

Lemma strategy_Full cfg l :
  Strategy (analyzeLoop cfg l) = FullUnroll ->
  0 < computeTripCount l <= FullUnrollMaxCount cfg
  /\ wrap32 (countInstructions l * computeTripCount l)
     <= FullUnrollMaxInstructions cfg.
Proof.
  rewrite analyzeLoop_Strategy.
  destruct (hasSideEffects l && negb (UnrollLoopsWithCalls cfg));
    [discriminate|].
  destruct (0 <? computeTripCount l) eqn:E0; cbn [andb].
  - destruct (computeTripCount l <=? FullUnrollMaxCount cfg) eqn:E1;
      cbn [andb]; [|discriminate].
    destruct (wrap32 (countInstructions l * computeTripCount l)
              <=? FullUnrollMaxInstructions cfg) eqn:E2; [|discriminate].
    intros _. apply N.ltb_lt in E0. apply N.leb_le in E1, E2. lia.
  - destruct (AllowRuntimeUnroll cfg && isSimpleLoop l); discriminate.
Qed.

Lemma strategy_Partial cfg l :
  Strategy (analyzeLoop cfg l) = PartialUnroll -> 0 < computeTripCount l.
Proof.
  rewrite analyzeLoop_Strategy.
  destruct (hasSideEffects l && negb (UnrollLoopsWithCalls cfg));
    [discriminate|].
  destruct (0 <? computeTripCount l) eqn:E0; cbn [andb].
  - intros _. now apply N.ltb_lt in E0.
  - destruct (AllowRuntimeUnroll cfg && isSimpleLoop l); discriminate.
Qed.

Lemma strategy_Runtime cfg l :
  Strategy (analyzeLoop cfg l) = RuntimeUnroll ->
  computeTripCount l = 0 /\ AllowRuntimeUnroll cfg = true
  /\ isSimpleLoop l = true.
Proof.
  rewrite analyzeLoop_Strategy.
  destruct (hasSideEffects l && negb (UnrollLoopsWithCalls cfg));
    [discriminate|].
  destruct (0 <? computeTripCount l) eqn:E0; cbn [andb].
  - destruct (_ && _); discriminate.
  - apply N.ltb_ge in E0.
    destruct (AllowRuntimeUnroll cfg), (isSimpleLoop l); cbn [andb];
      try discriminate.
    intros _. split; [lia | tauto].
Qed.

Lemma isSimpleLoop_true l :
  isSimpleLoop l = true <-> loopPreheader l <> None /\ loopLatch l <> None.
Proof.
  unfold isSimpleLoop.
  destruct (loopPreheader l), (loopLatch l); split; try discriminate;
    try (intros [? ?]; congruence); intros _; split; discriminate.
Qed.

Lemma partial_factor_range cfg IC TC :
  let P := N.to_nat (PartialUnrollFactor cfg) in
  let r := adjustToSize cfg IC (adjustToDivisor TC P) in
  (r <= P)%nat /\ (1 <= P -> 1 <= r)%nat.
Proof.
  cbv zeta. set (P := N.to_nat (PartialUnrollFactor cfg)).
  destruct P as [|P]; [cbn; lia|].
  destruct (adjustToDivisor_spec TC (S P)) as (HD & _ & _); [lia|].
  destruct (adjustToSize_spec cfg IC (adjustToDivisor TC (S P)))
    as (Hr & _ & _); [lia|]. lia.
Qed.

(** X20: what every candidate looks like, for any configuration.  A loop
    with side effects is a candidate only when the configuration allows
    calls.  A fully unrolled candidate has a known trip count within the
    limit, a size (in 32-bit arithmetic) within the limit, and the trip
    count as its factor.  A partially unrolled one has a known trip
    count and a factor no larger than the configured one.  A candidate
    for runtime unrolling has an unknown trip count, a preheader and a
    latch, runtime unrolling is allowed, and its factor is the configured
    one. *)
Theorem candidate_shape (cfg : LoopUnrollConfig) (LI : list Loop)
  (c : LoopUnrollCandidate) :
  In c (getCandidates cfg LI) ->
  c = analyzeLoop cfg (L c)
  /\ Strategy c <> NoUnroll
  /\ (HasSideEffects c = true -> UnrollLoopsWithCalls cfg = true)
  /\ (Strategy c = FullUnroll ->
      0 < TripCount c <= FullUnrollMaxCount cfg
      /\ wrap32 (InstructionCount c * TripCount c)
         <= FullUnrollMaxInstructions cfg
      /\ UnrollFactor c = TripCount c)
  /\ (Strategy c = PartialUnroll ->
      0 < TripCount c /\ UnrollFactor c <= PartialUnrollFactor cfg
      /\ (1 <= PartialUnrollFactor cfg -> 1 <= UnrollFactor c))
  /\ (Strategy c = RuntimeUnroll ->
      TripCount c = 0 /\ AllowRuntimeUnroll cfg = true
      /\ loopPreheader (L c) <> None /\ loopLatch (L c) <> None
      /\ UnrollFactor c = PartialUnrollFactor cfg).
Proof.
  intros Hin. destruct (In_getCandidates _ _ _ Hin) as [[l ->] Hno].
  split; [reflexivity|]. split; [exact Hno|].
  split; [intros Hse; exact (strategy_sideEffects cfg l Hno Hse)|].
  rewrite analyzeLoop_UnrollFactor.
  change (TripCount (analyzeLoop cfg l)) with (computeTripCount l).
  change (InstructionCount (analyzeLoop cfg l)) with (countInstructions l).
  change (L (analyzeLoop cfg l)) with l.
  split; [|split].
  - intros Hs. rewrite Hs. destruct (strategy_Full cfg l Hs) as [H1 H2].
    now repeat split.
  - intros Hs. rewrite Hs. split; [exact (strategy_Partial cfg l Hs)|].
    destruct (partial_factor_range cfg (countInstructions l)
                (computeTripCount l)) as [Hle Hge].
    split; [lia|]. intros HP. lia.
  - intros Hs. rewrite Hs.
    destruct (strategy_Runtime cfg l Hs) as (H0 & Hr & Hsimple).
    apply isSimpleLoop_true in Hsimple. tauto.
Qed.

Lemma candidate_shape_witness :
  let cfg := defaultConfig in
  let c := analyzeLoop cfg (Examples.addLoop 20 16) in
  c = analyzeLoop cfg (L c)
  /\ Strategy c <> NoUnroll
  /\ (HasSideEffects c = true -> UnrollLoopsWithCalls cfg = true)
  /\ (Strategy c = FullUnroll ->
      0 < TripCount c <= FullUnrollMaxCount cfg
      /\ wrap32 (InstructionCount c * TripCount c)
         <= FullUnrollMaxInstructions cfg
      /\ UnrollFactor c = TripCount c)
  /\ (Strategy c = PartialUnroll ->
      0 < TripCount c /\ UnrollFactor c <= PartialUnrollFactor cfg
      /\ (1 <= PartialUnrollFactor cfg -> 1 <= UnrollFactor c))
  /\ (Strategy c = RuntimeUnroll ->
      TripCount c = 0 /\ AllowRuntimeUnroll cfg = true
      /\ loopPreheader (L c) <> None /\ loopLatch (L c) <> None
      /\ UnrollFactor c = PartialUnrollFactor cfg).
Proof.
  cbv zeta.
  apply (candidate_shape defaultConfig [Examples.addLoop 20 16]).
  vm_compute. left. reflexivity.
Defined.

(** X21: a loop with side effects is rejected unless the configuration
    allows calls.  A loop has side effects for the analyzer exactly when
    one of its instructions is a call whose callee is unknown or may
    access memory, or is volatile, or is atomic.  Such a loop, when calls
    are not allowed, gets strategy NoUnroll and factor 1 and is left out
    of the candidates, whatever its trip count; when calls are allowed,
    the side effects play no role in the choice of the strategy. *)
Theorem side_effects_rejected (cfg : LoopUnrollConfig) (l : Loop)
  (LI : list Loop) :
  let c := analyzeLoop cfg l in
  (HasSideEffects c = true <->
   exists BB Inst, In BB (loopBlocks l) /\ In Inst (instrs BB)
     /\ ((opcode Inst = Call
          /\ calledFunction (callInfo Inst) <> Some true)
         \/ isVolatile Inst = true \/ isAtomic Inst = true))
  /\ (HasSideEffects c = true -> UnrollLoopsWithCalls cfg = false ->
      Strategy c = NoUnroll /\ UnrollFactor c = 1
      /\ ~ In c (getCandidates cfg LI))
  /\ (UnrollLoopsWithCalls cfg = true ->
      Strategy c
      = if (0 <? TripCount c) && (TripCount c <=? FullUnrollMaxCount cfg)
           && (wrap32 (InstructionCount c * TripCount c)
               <=? FullUnrollMaxInstructions cfg)
        then FullUnroll
        else if 0 <? TripCount c then PartialUnroll
        else if AllowRuntimeUnroll cfg && IsSimple c then RuntimeUnroll
        else NoUnroll).
Proof.
  cbv zeta. split; [|split].
  - change (HasSideEffects (analyzeLoop cfg l)) with (hasSideEffects l).
    unfold hasSideEffects. rewrite existsb_exists. split.
    + intros (BB & HBB & E). apply existsb_exists in E.
      destruct E as (Inst & HI & E). exists BB, Inst.
      split; [exact HBB|]. split; [exact HI|].
      unfold instrHasSideEffects in E.
      apply orb_true_iff in E. destruct E as [E|E]; [|tauto].
      apply orb_true_iff in E. destruct E as [E|E]; [|tauto].
      left. case_bool_decide as Hop; [|discriminate]. split; [exact Hop|].
      intros Hc. rewrite Hc in E. discriminate.
    + intros (BB & Inst & HBB & HI & H). exists BB. split; [exact HBB|].
      apply existsb_exists. exists Inst. split; [exact HI|].
      unfold instrHasSideEffects.
      destruct H as [[Hop Hc]|[H|H]]; rewrite ?H, ?orb_true_r;
        try reflexivity.
      rewrite (bool_decide_eq_true_2 _ Hop).
      destruct (calledFunction (callInfo Inst)) as [[|]|];
        [congruence | reflexivity | reflexivity].
  - intros Hse Hno.
    change (HasSideEffects (analyzeLoop cfg l)) with (hasSideEffects l)
      in Hse.
    assert (Hs : Strategy (analyzeLoop cfg l) = NoUnroll)
      by (rewrite analyzeLoop_Strategy, Hse, Hno; reflexivity).
    split; [exact Hs|]. split.
    + now rewrite analyzeLoop_UnrollFactor, Hs.
    + intros Hin. now destruct (In_getCandidates _ _ _ Hin) as [_ Hne].
  - intros Hyes. rewrite analyzeLoop_Strategy, Hyes, andb_false_r.
    reflexivity.
Qed.

Lemma side_effects_rejected_witness :
  let l := {| loopHeader := 0%nat;
              loopBlocks :=
                [ {| bid := 0%nat;
                     instrs :=
                       [ Examples.volatileLoad 1%nat Examples.i32
                           (VArgument 0);
                         Examples.instr 2 Br Examples.void
                           [VBasicBlock 0; VBasicBlock 1] ] |} ];
              loopPreheader := Some 2%nat; loopLatch := Some 0%nat;
              loopExitBlocks := [1%nat]; subLoops := [];
              smallConstantTripCount := 4;
              smallConstantTripMultiple := 1 |} in
  let c := analyzeLoop defaultConfig l in
  Strategy c = NoUnroll /\ UnrollFactor c = 1
  /\ ~ In c (getCandidates defaultConfig [l]).
Proof.
  cbv zeta.
  match goal with
  | |- context [analyzeLoop defaultConfig ?l] =>
      apply (side_effects_rejected defaultConfig l [l])
  end; reflexivity.
Defined.

(** X22: the factor of a partially unrolled loop, for any configuration
    whose partial factor is at least 1.  With [D] the largest divisor of
    the trip count up to the configured factor, the factor chosen is the
    largest one from [D] downwards whose unrolled size (in 32-bit
    arithmetic) is within the limit, and 1 if there is none: every factor
    passed over on the way down from [D] exceeds the limit. *)
Theorem partial_factor_any_configuration (cfg : LoopUnrollConfig)
  (l : Loop) :
  let c := analyzeLoop cfg l in
  Strategy c = PartialUnroll ->
  1 <= PartialUnrollFactor cfg ->
  exists D,
    largestDivisor (PartialUnrollFactor cfg) (TripCount c) D
    /\ 1 <= UnrollFactor c <= D
    /\ (UnrollFactor c = 1
        \/ wrap32 (InstructionCount c * UnrollFactor c)
           <= MaxUnrolledSize cfg)
    /\ (forall G, UnrollFactor c < G <= D ->
          MaxUnrolledSize cfg < wrap32 (InstructionCount c * G)).
Proof.
  cbv zeta. intros Hs HP. rewrite analyzeLoop_UnrollFactor, Hs.
  change (TripCount (analyzeLoop cfg l)) with (computeTripCount l).
  change (InstructionCount (analyzeLoop cfg l)) with (countInstructions l).
  set (P := N.to_nat (PartialUnrollFactor cfg)).
  assert (HPn : N.of_nat P = PartialUnrollFactor cfg) by apply N2Nat.id.
  destruct (adjustToDivisor_spec (computeTripCount l) P) as (HD & Hdiv & Hmax);
    [lia|].
  set (D := adjustToDivisor (computeTripCount l) P) in *.
  destruct (adjustToSize_spec cfg (countInstructions l) D)
    as (Hr & Hsz & _); [lia|].
  pose proof (adjustToSize_skipped cfg (countInstructions l) D) as Hskip.
  set (r := adjustToSize cfg (countInstructions l) D) in *.
  exists (N.of_nat D). split; [|split; [lia|split]].
  - unfold largestDivisor. split; [lia|]. split; [exact Hdiv|].
    intros F HF. rewrite <- (N2Nat.id F). apply Hmax. lia.
  - destruct Hsz as [->|Hsz]; [now left | now right].
  - intros G HG. rewrite <- (N2Nat.id G). apply Hskip. lia.
Qed.

Lemma partial_factor_any_configuration_witness :
  let c := analyzeLoop defaultConfig (Examples.addLoop 110 16) in
  exists D,
    largestDivisor 4 (TripCount c) D
    /\ 1 <= UnrollFactor c <= D
    /\ (UnrollFactor c = 1 \/ wrap32 (InstructionCount c * UnrollFactor c)
                              <= 400)
    /\ (forall G, UnrollFactor c < G <= D ->
          400 < wrap32 (InstructionCount c * G)).
Proof.
  cbv zeta.
  apply (partial_factor_any_configuration defaultConfig
           (Examples.addLoop 110 16)).
  - vm_compute. reflexivity.
  - vm_compute. discriminate.
Defined.

Lemma depth_first_eq l :
  depth_first l = l :: flat_map depth_first (subLoops l).
Proof. now destruct l. Qed.

Lemma getCandidates_app cfg LI1 LI2 :
  getCandidates cfg (LI1 ++ LI2)
  = getCandidates cfg LI1 ++ getCandidates cfg LI2.
Proof. unfold getCandidates. apply flat_map_app. Qed.

Lemma getCandidates_flat cfg LI :
  getCandidates cfg LI
  = filter (fun c => Strategy c <> NoUnroll)
           (map (analyzeLoop cfg) (flat_map depth_first LI)).
Proof.
  unfold getCandidates. induction LI as [|l LI IH]; [reflexivity|].
  cbn [flat_map]. now rewrite IH, map_app, filter_app.
Qed.

(** X23: two fields of the configuration are never read.  Two
    configurations that agree on everything but the maximum partial
    unroll factor and the minimum trip count for runtime unrolling give
    every loop the same strategy and factor, and every function the same
    candidates. *)
Theorem unused_configuration_fields (cfg cfg' : LoopUnrollConfig)
  (LI : list Loop) :
  FullUnrollMaxCount cfg' = FullUnrollMaxCount cfg ->
  FullUnrollMaxInstructions cfg' = FullUnrollMaxInstructions cfg ->
  PartialUnrollFactor cfg' = PartialUnrollFactor cfg ->
  AllowRuntimeUnroll cfg' = AllowRuntimeUnroll cfg ->
  UnrollLoopsWithCalls cfg' = UnrollLoopsWithCalls cfg ->
  MaxUnrolledSize cfg' = MaxUnrolledSize cfg ->
  (forall l, analyzeLoop cfg' l = analyzeLoop cfg l)
  /\ getCandidates cfg' LI = getCandidates cfg LI.
Proof.
  intros H1 H2 H3 H4 H5 H6.
  assert (Hl : forall l, analyzeLoop cfg' l = analyzeLoop cfg l).
  { intros l. unfold analyzeLoop, calculateUnrollFactor, determineStrategy.
    cbn [L TripCount TripMultiple InstructionCount IsSimple HasSideEffects
         Strategy UnrollFactor].
    rewrite H1, H2, H3, H4, H5.
    now rewrite (adjustToSize_ext cfg' cfg _ _ H6). }
  split; [exact Hl|]. rewrite !getCandidates_flat. f_equal.
  apply map_ext. exact Hl.
Qed.

Lemma unused_configuration_fields_witness :
  getCandidates
    {| FullUnrollMaxCount := 8; FullUnrollMaxInstructions := 100;
       PartialUnrollFactor := 4; MaxPartialUnrollFactor := 2;
       AllowRuntimeUnroll := true; RuntimeUnrollMinTripCount := 1000;
       UnrollLoopsWithCalls := false; MaxUnrolledSize := 400 |}
    [Examples.addLoop 20 16]
  = getCandidates defaultConfig [Examples.addLoop 20 16].
Proof.
  apply (unused_configuration_fields defaultConfig
           {| FullUnrollMaxCount := 8; FullUnrollMaxInstructions := 100;
              PartialUnrollFactor := 4; MaxPartialUnrollFactor := 2;
              AllowRuntimeUnroll := true; RuntimeUnrollMinTripCount := 1000;
              UnrollLoopsWithCalls := false; MaxUnrolledSize := 400 |});
    reflexivity.
Defined.

(** *** What the analyzer measures *)

Lemma count_block l c :
  fold_left
    (fun Count Inst =>
       if negb (bool_decide (opcode Inst = PHI)) && negb (isTerminator Inst)
       then wrap32 (Count + 1) else Count)
    l (wrap32 c)
  = wrap32
      (c + N.of_nat
             (length
                (List.filter
                   (fun Inst => negb (bool_decide (opcode Inst = PHI))
                                && negb (isTerminator Inst)) l))).
Proof.
  revert c. induction l as [|Inst l IH]; intros c.
  - cbn. now rewrite N.add_0_r.
  - cbn [fold_left List.filter].
    destruct (negb (bool_decide (opcode Inst = PHI))
              && negb (isTerminator Inst)).
    + rewrite wrap32_add_l, IH. f_equal. cbn [length]. lia.
    + apply IH.
Qed.

Lemma count_blocks bs c :
  fold_left
    (fun Count BB =>
       fold_left
         (fun Count Inst =>
            if negb (bool_decide (opcode Inst = PHI))
               && negb (isTerminator Inst)
            then wrap32 (Count + 1) else Count)
         (instrs BB) Count)
    bs (wrap32 c)
  = wrap32
      (c + N.of_nat
             (length
                (List.filter
                   (fun Inst => negb (bool_decide (opcode Inst = PHI))
                                && negb (isTerminator Inst))
                   (instructions bs)))).
Proof.
  revert c. unfold instructions.
  induction bs as [|BB bs IH]; intros c.
  - cbn. now rewrite N.add_0_r.
  - cbn [fold_left map concat].
    rewrite count_block, IH, List.filter_app, length_app. f_equal. lia.
Qed.

(** X24: what the analyzer measures of a loop.  The trip count is the
    constant trip count the host reports (0 when it has none), whatever
    the trip multiple; the instruction count is the number of
    instructions of the loop's blocks that are neither PHI nodes nor
    terminators, in 32-bit arithmetic; and the loop counts as simple
    exactly when it has a preheader and a latch, whatever its exit blocks
    and sub-loops. *)
Theorem analyzeLoop_measurements (cfg : LoopUnrollConfig) (l : Loop) :
  let c := analyzeLoop cfg l in
  L c = l
  /\ TripCount c = smallConstantTripCount l
  /\ TripMultiple c = smallConstantTripMultiple l
  /\ InstructionCount c
     = wrap32
         (N.of_nat
            (length
               (List.filter
                  (fun Inst => negb (bool_decide (opcode Inst = PHI))
                               && negb (isTerminator Inst))
                  (instructions (loopBlocks l)))))
  /\ (IsSimple c = true
      <-> loopPreheader l <> None /\ loopLatch l <> None).
Proof.
  cbv zeta. split; [reflexivity|]. split; [apply computeTripCount_eq|].
  split; [reflexivity|]. split; [|apply isSimpleLoop_true].
  change (InstructionCount (analyzeLoop cfg l)) with (countInstructions l).
  unfold countInstructions.
  change 0 with (wrap32 0) at 1. now rewrite count_blocks.
Qed.

(** *** The order of the candidates *)

(** X25: the candidates are listed outermost first.  The candidates of a
    loop nest are the loop itself, if it is one, followed by the
    candidates of its sub-loops in their order; the candidates of a list
    of top-level loops are those of each in turn. *)
Theorem candidates_outermost_first (cfg : LoopUnrollConfig) (l : Loop)
  (LI : list Loop) :
  getCandidates cfg (l :: LI)
  = (if decide (Strategy (analyzeLoop cfg l) <> NoUnroll)
     then [analyzeLoop cfg l] else [])
    ++ getCandidates cfg (subLoops l) ++ getCandidates cfg LI.
Proof.
  change (l :: LI) with ([l] ++ LI).
  rewrite getCandidates_app, app_assoc. f_equal.
  rewrite !getCandidates_flat. cbn [flat_map]. rewrite app_nil_r.
  rewrite depth_first_eq. cbn [map]. rewrite filter_cons.
  now destruct (decide (Strategy (analyzeLoop cfg l) <> NoUnroll)).
Qed.

End LoopAnalyzerMore.

(** ** The two passes in sequence *)

Section PipelineProperties.
Import IR.
Variable ConstantFoldInstruction : Instruction -> option Constant.
Variable order : gmap InstrId InstrId -> list (InstrId * InstrId).
Variable DominatorTreeAnalysis :
  Function -> RedundancyAnalysis.DominatorTree.

Lemma folder_run_inv F F' PA :
  ConstantFolding.run ConstantFoldInstruction F = Some (F', PA) ->
  F' = F
  \/ exists T,
       ConstantFolding.foldLoop ConstantFoldInstruction
         (S (length (instructions F))) F 0 = Some (F', T).
Proof.
  unfold ConstantFolding.run.
  destruct (ConstantFolding.FoldingCandidates _); [intros [= <- _]; now left|].
  destruct (ConstantFolding.foldLoop _ _ F 0) as [[F1 T]|]; [|discriminate].
  intros [= <- _]. right. now exists T.
Qed.

(** X26: the two passes compose.  On a function whose instructions are
    distinct objects, with a dominator tree that lists instructions of
    the function it is computed for, the folder leaves a function that
    meets what the eliminator needs, and the pipeline as a whole keeps
    the blocks of the function, deletes instructions without adding or
    reordering any,
    leaves every instruction operand defined if it was so at the start,
    and returns the function unchanged exactly when both passes report
    every analysis preserved. *)
Theorem optimizerLast_composes (F : Function) (Args : list nat) :
  RedundancyElimination.visitsOnce order ->
  (forall G, NoDup (instrIds G) ->
     treeOf G (DominatorTreeAnalysis G)
     /\ NoDup (instrIds
                 (RedundancyAnalysis.preorder (DominatorTreeAnalysis G)))) ->
  NoDup (instrIds F) ->
  N.of_nat (length (instructions F)) < 2 ^ 32 ->
  exists F2 PA1 PA2,
    PassRegistration.optimizerLast ConstantFoldInstruction order
      DominatorTreeAnalysis F Args = Some (F2, PA1, PA2)
    /\ map bid F2 = map bid F
    /\ sublist (instrIds F2) (instrIds F)
    /\ (closedUses F -> closedUses F2)
    /\ (F2 = F <-> PA1 = PreservedAll /\ PA2 = PreservedAll).
Proof.
  intros order_once tree_of_function Hnd Hlen.
  unfold PassRegistration.optimizerLast.
  destruct (run_total ConstantFoldInstruction F) as [[F1 PA1] Hrun].
  rewrite Hrun.
  assert (Hfold : functionFoldedFrom F F1).
  { destruct (folder_run_inv _ _ _ Hrun) as [->|[T E]];
      [apply functionFoldedFrom_refl|].
    exact (foldLoop_folded _ _ _ _ _ _ E). }
  assert (Huses : forall j, usedIn F1 j ->
            usedIn F j /\ (In j (instrIds F) -> In j (instrIds F1))).
  { destruct (folder_run_inv _ _ _ Hrun) as [->|[T E]]; [tauto|].
    intros j. exact (foldLoop_uses _ _ _ _ _ _ _ E). }
  pose proof (functionFoldedFrom_ids _ _ Hfold) as Hsub1.
  pose proof (sublist_NoDup _ _ Hnd Hsub1) as Hnd1.
  destruct (tree_of_function F1 Hnd1) as [Htree HndDT].
  pose proof (run_instrIds F1 (DominatorTreeAnalysis F1) Args order
                Hnd1 HndDT Htree order_once) as Hids2.
  pose proof (run_closed_form F1 (DominatorTreeAnalysis F1) Args order
                Hnd1 HndDT Htree order_once) as Hform.
  pose proof (run_closedUses F1 (DominatorTreeAnalysis F1) Args order
                Hnd1 HndDT Htree order_once) as Hclosed2.
  pose proof (run_cases_eliminator F1 (DominatorTreeAnalysis F1) Args order
                Hnd1 HndDT Htree order_once) as Hcases2.
  destruct (RedundancyElimination.run order F1 Args
              (DominatorTreeAnalysis F1)) as [F2 PA2] eqn:Erun.
  cbn [fst snd] in *.
  assert (Hsub2 : sublist (instrIds F2) (instrIds F1))
    by (rewrite Hids2; apply sublist_filter).
  exists F2, PA1, PA2. split; [reflexivity|]. split; [|split; [|split]].
  - injection Hform as -> _.
    rewrite map_bid_erase_all, map_bid_mapInstrs.
    now apply functionFoldedFrom_bid.
  - now transitivity (instrIds F1).
  - intros Hc. apply Hclosed2. intros j Hj.
    destruct (Huses j Hj) as [HF Hin]. now apply Hin, Hc.
  - pose proof (run_cases ConstantFoldInstruction F F1 PA1 Hnd Hlen Hrun)
      as Hcases1.
    split.
    + intros ->.
      assert (Hl1 : (length (instrIds F) <= length (instrIds F1))%nat)
        by now apply sublist_length.
      rewrite !length_instrIds in Hl1.
      destruct Hcases1 as [[-> ->]|[Hlt _]]; [|lia].
      split; [reflexivity|].
      destruct Hcases2 as [[_ [= ->]]|(_ & _ & r & Hr & Hnr)];
        [reflexivity | contradiction].
    + intros [-> ->].
      destruct Hcases1 as [[-> _]|[_ [=]]].
      destruct Hcases2 as [[_ [= ->]]|([=] & _)]. reflexivity.
Qed.

End PipelineProperties.

Lemma optimizerLast_composes_witness :
  exists F2 PA1 PA2,
    PassRegistration.optimizerLast Examples.evalConstant map_to_list
      Examples.singleBlockDT Examples.partlyConstant [0%nat]
    = Some (F2, PA1, PA2)
    /\ map IR.bid F2 = map IR.bid Examples.partlyConstant
    /\ sublist (IR.instrIds F2) (IR.instrIds Examples.partlyConstant)
    /\ (closedUses Examples.partlyConstant -> closedUses F2)
    /\ (F2 = Examples.partlyConstant
        <-> PA1 = PreservedAll /\ PA2 = PreservedAll).
Proof.
  apply (optimizerLast_composes Examples.evalConstant map_to_list
           Examples.singleBlockDT).
  - intros m. reflexivity.
  - intros G HG. split; [intros Inst H; exact H | exact HG].
  - distinct_ids.
  - reflexivity.
Defined.

(** ** Redundancy eliminator: the visiting order *)

Section EliminationOrder.
Import IR RedundancyAnalysis RedundancyElimination.

(** X27: the redundancy eliminator gives the same result whatever the
    order in which the [DenseMap] of redundant instructions is visited.
    On a function whose instructions are distinct objects and on whose
    analyzable instructions dominance is tree-shaped and consistent with
    the processing order, any two visiting orders give the same function
    and the same report of preserved analyses, and the same result flag
    and function for any count of instructions eliminated before; and at
    every query of the analysis at most one instruction of the bucket
    dominates the query point, so that the replacement
    [findAvailableValue] returns does not depend on which dominating
    candidate it meets first. *)
Theorem elimination_deterministic (F : Function) (Args : list nat)
  (DT : DominatorTree)
  (order1 order2 : gmap InstrId InstrId -> list (InstrId * InstrId)) :
  NoDup (instrIds (preorder DT)) ->
  treeLike DT (analyzableIds (instructions (preorder DT))) = true ->
  dominatorsFirst DT (analyzableIds (instructions (preorder DT))) = true ->
  visitsOnce order1 -> visitsOnce order2 ->
  RedundancyElimination.run order1 F Args DT
    = RedundancyElimination.run order2 F Args DT
  /\ (forall n,
        eliminateRedundancies F
          (entriesOf
             (order1 (RedundantInstructions
                        (RedundancyAnalysis.run DT Args)))) n
        = eliminateRedundancies F
            (entriesOf
               (order2 (RedundantInstructions
                          (RedundancyAnalysis.run DT Args)))) n)
  /\ (forall pre Inst post bucket c1 c2,
        instructions (preorder DT) = pre ++ Inst :: post ->
        isAnalyzable Inst = true ->
        ExpressionTable
          (snd (createExpressionKey (fst (stateAfter DT Args pre)) Inst))
          !! fst (createExpressionKey (fst (stateAfter DT Args pre)) Inst)
          = Some bucket ->
        In c1 bucket -> In c2 bucket ->
        dominates DT c1 (iid Inst) = true ->
        dominates DT c2 (iid Inst) = true ->
        c1 = c2).
Proof.
  intros Hnd Htree Hdf Ho1 Ho2.
  assert (Hsame : forall n,
            eliminateRedundancies F
              (entriesOf
             (order1 (RedundantInstructions
                        (RedundancyAnalysis.run DT Args)))) n
            = eliminateRedundancies F
                (entriesOf
               (order2 (RedundantInstructions
                          (RedundancyAnalysis.run DT Args)))) n).
  { intros n.
    destruct (analysis_entries_chainFree F DT Args _ Hnd (Ho1 _))
      as [Hk Hcf].
    apply eliminateRedundancies_order_independent; [|exact Hk|exact Hcf].
    unfold entriesOf. apply Permutation_map.
    now rewrite (Ho1 _), (Ho2 _). }
  split; [|split].
  - unfold RedundancyElimination.run. now rewrite (Hsame 0).
  - exact Hsame.
  - intros pre Inst post bucket c1 c2 Hall Han.
    now apply (available_value_unique DT Args pre Inst post).
Qed.

(** [twoPairs] has the two redundant instructions 3 and 5; visiting 5
    first or 3 first gives the same function. *)
Lemma elimination_deterministic_witness :
  let F := Examples.twoPairs in
  let DT := Examples.singleBlockDT F in
  let M := RedundantInstructions (RedundancyAnalysis.run DT [0; 1]%nat) in
  (map_to_list M = [(5, 4); (3, 2)]%nat
   /\ rev (map_to_list M) = [(3, 2); (5, 4)]%nat)
  /\ RedundancyElimination.run map_to_list F [0; 1]%nat DT
     = RedundancyElimination.run (fun m => rev (map_to_list m)) F
         [0; 1]%nat DT.
Proof.
  cbv zeta. split; [split; vm_compute; reflexivity|].
  apply (elimination_deterministic Examples.twoPairs [0; 1]%nat
           (Examples.singleBlockDT Examples.twoPairs)
           map_to_list (fun m => rev (map_to_list m))).
  - vm_compute. repeat constructor; intros H;
      repeat (apply elem_of_cons in H; destruct H as [H|H];
              [discriminate H|]);
      now apply elem_of_nil in H.
  - vm_compute. reflexivity.
  - vm_compute. reflexivity.
  - intros m. reflexivity.
  - intros m. symmetry. apply Permutation_rev.
Defined.

(** What is left of [twoPairs]: [u], [w] and [u + w]. *)
Example run_two_pairs :
  RedundancyElimination.run (fun m => rev (map_to_list m)) Examples.twoPairs
    [0; 1]%nat (Examples.singleBlockDT Examples.twoPairs)
  = ([ {| bid := 0%nat;
          instrs :=
            [ Examples.instr 2 Add Examples.i32 [VArgument 0; VArgument 1];
              Examples.instr 4 Mul Examples.i32 [VArgument 0; VArgument 1];
              Examples.instr 6 Add Examples.i32
                [VInstruction 2; VInstruction 4];
              Examples.instr 7 Ret Examples.void [VInstruction 6] ] |} ],
     PreservedCFGAndDomTree).
Proof. vm_compute. reflexivity. Qed.

End EliminationOrder.

(** ** Loop unroller *)

Section Unroller.
Import IR LoopUnrolling LoopUnrollingPass.
Variable Host : Type.
Variable getLoopFor : Host -> BlockId -> bool.
Variable UnrollLoop :
  Loop -> ULO.UnrollLoopOptions -> bool -> Host -> LoopUnrollResult * Host.
Variable Config : LoopUnrollConfig.

Local Abbreviation processCandidate :=
  (LoopUnrollingPass.processCandidate Host getLoopFor UnrollLoop).
Local Abbreviation run :=
  (LoopUnrollingPass.run Host getLoopFor UnrollLoop Config).

(** What the assignments of [unrollLoop] leave in the options object. *)
Lemma unrollOptions_members ULO c :
  unrollOptions ULO c
  = {| ULO.Count := UnrollFactor c;
       ULO.Force := false;
       ULO.AllowExpensiveTripCount := false;
       ULO.UnrollRemainder := bool_decide (Strategy c = RuntimeUnroll);
       ULO.ForgetAllSCEV := false;
       ULO.TripCount := if 0 <? TripCount c then TripCount c
                        else ULO.TripCount ULO;
       ULO.TripMultiple := TripMultiple c |}.
Proof. unfold unrollOptions. now destruct (0 <? TripCount c). Qed.





Lemma depth_first_leaf l : subLoops l = [] -> depth_first l = [l].
Proof. destruct l. cbn. now intros ->. Qed.

Lemma getCandidates_single l :
  subLoops l = [] -> Strategy (analyzeLoop Config l) <> NoUnroll ->
  getCandidates Config [l] = [analyzeLoop Config l].
Proof.
  intros Hsub Hs. unfold getCandidates. cbn [flat_map].
  rewrite (depth_first_leaf l Hsub), app_nil_r. cbn [map].
  rewrite filter_cons_True by exact Hs. reflexivity.
Qed.

(** The pass on a function whose only loop is a candidate: one request to
    the host, with the options [unrollLoop] has put together. *)
Lemma run_single u l h Stats0 :
  subLoops l = [] -> Strategy (analyzeLoop Config l) <> NoUnroll ->
  getLoopFor h (loopHeader l) = true ->
  host (fst (run u h [l] Stats0))
  = snd (UnrollLoop l (unrollOptions (u 0%nat) (analyzeLoop Config l))
           true h).
Proof.
  intros Hsub Hs Hl. unfold LoopUnrollingPass.run.
  rewrite (getCandidates_single l Hsub Hs). cbn [fold_left].
  unfold LoopUnrollingPass.processCandidate. cbn [host L analyzeLoop Calls].
  rewrite Hl. cbn [negb]. unfold unrollLoop.
  destruct (UnrollLoop l _ true h) as [R h'].
  cbn [snd]. now destruct (negb (bool_decide (R = Unmodified))).
Qed.

End Unroller.

Section UnrollerResults.
Import IR LoopUnrolling LoopUnrollingPass.

(** C9: the output of the loop unrolling pass is not a function of its
    input when a trip count is unknown.  On a function whose only loop is
    an innermost loop selected for RuntimeUnroll (trip count 0, that is,
    unknown), [run] makes one request to the host's [UnrollLoop], and the
    trip count of the options it hands over is the one the options object
    held when it was declared: [unrollLoop] assigns that member only when
    the trip count is known.  The function the pass leaves is the one
    [UnrollLoop] returns for these options; so, whenever the host answers
    the options of two runs differently, two runs of the pass on the same
    function leave different functions. *)
Theorem unrolling_reads_unset_trip_count
  (Host : Type) (getLoopFor : Host -> BlockId -> bool)
  (UnrollLoop :
     Loop -> ULO.UnrollLoopOptions -> bool -> Host -> LoopUnrollResult * Host)
  (Config : LoopUnrollConfig) (u1 u2 : nat -> ULO.UnrollLoopOptions)
  (l : Loop) (h : Host) (Stats0 : Statistics) :
  subLoops l = [] ->
  Strategy (analyzeLoop Config l) = RuntimeUnroll ->
  getLoopFor h (loopHeader l) = true ->
  snd (UnrollLoop l (runtimeOptions Config l (u1 0%nat)) true h)
  <> snd (UnrollLoop l (runtimeOptions Config l (u2 0%nat)) true h) ->
  getCandidates Config [l] = [analyzeLoop Config l]
  /\ smallConstantTripCount l = 0
  /\ (forall u,
        host (fst (run Host getLoopFor UnrollLoop Config u h [l] Stats0))
        = snd (UnrollLoop l (runtimeOptions Config l (u 0%nat)) true h))
  /\ host (fst (run Host getLoopFor UnrollLoop Config u1 h [l] Stats0))
     <> host (fst (run Host getLoopFor UnrollLoop Config u2 h [l] Stats0)).
Proof.
  intros Hsub Hs Hl Hsens.
  assert (Hno : Strategy (analyzeLoop Config l) <> NoUnroll)
    by (rewrite Hs; discriminate).
  destruct (strategy_Runtime Config l Hs) as (Htc & _ & _).
  assert (Hrun : forall u,
            host (fst (run Host getLoopFor UnrollLoop Config u h [l] Stats0))
            = snd (UnrollLoop l (runtimeOptions Config l (u 0%nat)) true h)).
  { intros u. rewrite (run_single Host getLoopFor UnrollLoop Config u l h
                         Stats0 Hsub Hno Hl).
    rewrite unrollOptions_members, analyzeLoop_UnrollFactor, Hs.
    cbn [TripCount TripMultiple analyzeLoop]. rewrite Htc.
    reflexivity. }
  split; [now apply getCandidates_single|].
  split; [now rewrite <- computeTripCount_eq|].
  split; [exact Hrun|].
  rewrite !Hrun. exact Hsens.
Qed.

(** The loop [addLoop 3 0], whose trip count is unknown, and a host that
    records the options it is handed: the trip count it records is the one
    the storage held, 0 in one run and 16 in the other. *)
Lemma unrolling_reads_unset_trip_count_witness :
  let run u :=
    host (fst (run (list ULO.UnrollLoopOptions) (fun _ _ => true)
                 Examples.recordingUnrollLoop defaultConfig u []
                 [Examples.addLoop 3 0] Examples.noStatistics)) in
  map ULO.TripCount (run (Examples.storage 0)) = [0]
  /\ map ULO.TripCount (run (Examples.storage 16)) = [16]
  /\ run (Examples.storage 0) <> run (Examples.storage 16).
Proof.
  cbv zeta. split; [reflexivity|]. split; [reflexivity|].
  apply (unrolling_reads_unset_trip_count (list ULO.UnrollLoopOptions)
           (fun _ _ => true) Examples.recordingUnrollLoop defaultConfig
           (Examples.storage 0) (Examples.storage 16)
           (Examples.addLoop 3 0) [] Examples.noStatistics).
  - reflexivity.
  - reflexivity.
  - reflexivity.
  - cbn. discriminate.
Defined.



End UnrollerResults.
